(** * Order-book streaming pipeline (websocketapi251110.py)

    A shallow embedding of the symbol normaliser, the local order book, the
    fan-out and batching stages and the QuestDB ingestor, together with the
    properties the specification states about them.

    Conventions of the embedding:
    - a Python [float] is a binary64 value, here Rocq's primitive [float];
      [==], [<] and the arithmetic are the IEEE operations, so [0.0 == -0.0]
      holds and a NaN equals nothing;
    - a Python [str] is a [string]; venue symbols are ASCII;
    - a [dict] whose iteration order is observable is an association list in
      insertion order, looked up with the key's [==];
    - a raised exception is the [Raise] branch of [py]. *)

From Stdlib Require Import Floats ZArith Ascii String List Sorted Lia Bool.
From stdpp Require Import base list strings gmap sorting.

(** ** Exceptions and fallible computations *)

Inductive exn : Type :=
  | ValueError
  | KeyError
  | TypeError
  | AttributeError
  | IndexError
  | ZeroDivisionError
  | JSONDecodeError
  | OverflowError
  | IngressError.

Inductive py (A : Type) : Type :=
  | Return (a : A)
  | Raise (e : exn).
Arguments Return {A} a.
Arguments Raise {A} e.

Global Instance py_ret : MRet py := fun _ a => Return a.
Global Instance py_bind : MBind py := fun _ _ k m =>
  match m with
  | Return a => k a
  | Raise e => Raise e
  end.

Definition raises {A} (m : py A) : bool :=
  match m with Return _ => false | Raise _ => true end.

(** ** Python string primitives used by the normaliser *)

Module PyStr.

(** [c.upper()] on an ASCII character. *)
Definition upper_ascii (c : ascii) : ascii :=
  let n := nat_of_ascii c in
  if (97 <=? n)%nat && (n <=? 122)%nat then ascii_of_nat (n - 32) else c.

(** [s.upper()]. *)
Fixpoint upper (s : string) : string :=
  match s with
  | EmptyString => EmptyString
  | String c r => String (upper_ascii c) (upper r)
  end.

(** [s.split(sep)] for a one-character separator. *)
Fixpoint split (sep : ascii) (s : string) : list string :=
  match s with
  | EmptyString => [EmptyString]
  | String c r =>
      if Ascii.eqb c sep then EmptyString :: split sep r
      else match split sep r with
           | p :: ps => String c p :: ps
           | [] => [String c EmptyString]
           end
  end.

(** [sep in s]. *)
Fixpoint contains (sep : ascii) (s : string) : bool :=
  match s with
  | EmptyString => false
  | String c r => Ascii.eqb c sep || contains sep r
  end.

Fixpoint take (n : nat) (s : string) : string :=
  match n, s with
  | S k, String c r => String c (take k r)
  | _, _ => EmptyString
  end.

Fixpoint drop (n : nat) (s : string) : string :=
  match n, s with
  | S k, String _ r => drop k r
  | _, _ => s
  end.

(** [s.endswith(suffix)]. *)
Definition endswith (s suffix : string) : bool :=
  (String.length suffix <=? String.length s)%nat
  && String.eqb (drop (String.length s - String.length suffix) s) suffix.

(** [s[:-k]] for a positive literal [k]: all but the last [k] characters. *)
Definition drop_last (k : nat) (s : string) : string :=
  take (String.length s - k) s.

End PyStr.

(** ** Symbol normalisation *)

(** [split_symbol(exchange, venue_sym)], branch by branch. The tuple
    unpacking [base, quote = s.split("-")] of the OKX branch raises
    [ValueError] unless the split has exactly two parts; the other branches
    test [len(parts) == 2] first. *)
Definition split_symbol (exchange venue_sym : string)
  : py (string * string * string) :=
  let s := PyStr.upper venue_sym in
  let fallback := Return (venue_sym, EmptyString, venue_sym) in
  if String.eqb exchange "upbit" then
    match PyStr.split "-" s with
    | [quote; base] => Return (base, quote, base +:+ "-" +:+ quote)
    | _ => fallback
    end
  else if String.eqb exchange "bithumb" then
    match PyStr.split "_" s with
    | [base; quote] => Return (base, quote, base +:+ "-" +:+ quote)
    | _ => fallback
    end
  else if String.eqb exchange "coinone" then
    match PyStr.split "-" s with
    | [base; quote] =>
        Return (PyStr.upper base, PyStr.upper quote,
                PyStr.upper base +:+ "-" +:+ PyStr.upper quote)
    | _ => fallback
    end
  else if String.eqb exchange "korbit" then
    match PyStr.split "_" s with
    | [base; quote] =>
        Return (PyStr.upper base, PyStr.upper quote,
                PyStr.upper base +:+ "-" +:+ PyStr.upper quote)
    | _ => fallback
    end
  else if String.eqb exchange "binance" then
    if PyStr.endswith s "USDT" then
      let base := PyStr.drop_last 4 s in
      Return (base, "USDT"%string, base +:+ "-USD")
    else fallback
  else if String.eqb exchange "okx" then
    if PyStr.contains "-" s then
      match PyStr.split "-" s with
      | [base; quote] =>
          if String.eqb quote "USDT" then Return (base, quote, base +:+ "-USD")
          else fallback
      | _ => Raise ValueError
      end
    else fallback
  else if String.eqb exchange "bybit" then
    if PyStr.endswith s "USDT" then
      let base := PyStr.drop_last 4 s in
      Return (base, "USDT"%string, base +:+ "-USD")
    else fallback
  else fallback.

(** [get_region(exchange, quote)]. *)
Definition get_region (exchange quote : string) : string :=
  if existsb (String.eqb exchange) ["upbit"; "bithumb"; "coinone"; "korbit"]%string
     || String.eqb quote "KRW"
  then "KR"%string else "GLOBAL"%string.


(** ** Python floats *)

Module PyFloat.

(** [bool(x)] for a float: false exactly for [0.0] and [-0.0]. *)
Definition truthy (x : float) : bool := negb (x =? 0)%float.

(** [x / y]: true division raises on a zero divisor. *)
Definition div (x y : float) : py float :=
  if (y =? 0)%float then Raise ZeroDivisionError else Return (x / y)%float.

(** [float(n)] for an [int]: nearest binary64, [OverflowError] beyond range. *)
Definition of_int (n : Z) : py float :=
  let f := SF2Prim (binary_normalize prec emax n 0 false) in
  if is_infinity f then Raise OverflowError else Return f.

(** [int(x)] for a float: truncation toward zero. *)
Definition to_int (x : float) : py Z :=
  match Prim2SF x with
  | S754_zero _ => Return 0%Z
  | S754_infinity _ => Raise OverflowError
  | S754_nan => Raise ValueError
  | S754_finite s m e =>
      let a := (if (0 <=? e)%Z then Z.pos m * 2 ^ e
                else Z.pos m / 2 ^ (- e))%Z in
      Return (if s then (- a)%Z else a)
  end.

End PyFloat.

(** [float(s)] and [int(s)] on a [str] are the C library's parsers; the
    embedding takes them as given. *)
Class StrParse := {
  float_of_str : string -> option float;
  int_of_str : string -> option Z
}.

(** An instance for the worked examples: decimal literals [-ddd.ddd]
    without exponent, as the venues send prices and sizes. The quotient of
    the two integers is exact up to 15 significant digits. *)
Module Decimal.

Definition digit (c : ascii) : option Z :=
  let n := nat_of_ascii c in
  if (48 <=? n)%nat && (n <=? 57)%nat then Some (Z.of_nat (n - 48)) else None.

(** The digits before the point, then those after it: the integer they
    spell and the number of fractional digits. *)
Fixpoint scan (s : string) (acc : Z) (frac : option nat) (seen : bool)
  : option (Z * nat) :=
  match s with
  | EmptyString => if seen then Some (acc, default O frac) else None
  | String c r =>
      if Ascii.eqb c "."
      then match frac with
           | None => scan r acc (Some O) seen
           | Some _ => None
           end
      else match digit c with
           | Some d => scan r (10 * acc + d)%Z (Nat.succ <$> frac) true
           | None => None
           end
  end.

Definition unsigned (s : string) : option float :=
  '(n, k) ← scan s 0%Z None false;
  Some (SF2Prim (binary_normalize prec emax n 0 false)
        / SF2Prim (binary_normalize prec emax (10 ^ Z.of_nat k) 0 false))%float.

Definition parse_float (s : string) : option float :=
  match s with
  | String "-" r => (fun x => (- x)%float) <$> unsigned r
  | _ => unsigned s
  end.

Definition parse_int (s : string) : option Z :=
  match s with
  | String "-" r =>
      '(n, k) ← scan r 0%Z None false;
      if (k =? 0)%nat && negb (PyStr.contains "." r) then Some (- n)%Z else None
  | _ =>
      '(n, k) ← scan s 0%Z None false;
      if (k =? 0)%nat && negb (PyStr.contains "." s) then Some n else None
  end.

End Decimal.

Definition decimal_parse : StrParse :=
  {| float_of_str := Decimal.parse_float; int_of_str := Decimal.parse_int |}.

(** ** Decoded JSON values *)

#[local] Set Warnings "-register-all".

(** What [json.loads] returns: [None], [bool], [int], [float], [str], [list]
    and [dict] with string keys (in document order, each key once). *)
Inductive pyval : Type :=
  | PNone
  | PBool (b : bool)
  | PInt (n : Z)
  | PFloat (x : float)
  | PStr (s : string)
  | PList (l : list pyval)
  | PDict (kv : list (string * pyval)).

Module PyVal.

Fixpoint assoc (k : string) (kv : list (string * pyval)) : option pyval :=
  match kv with
  | [] => None
  | (k', v) :: r => if String.eqb k' k then Some v else assoc k r
  end.

(** [v[k]] with a string key. *)
Definition getitem (v : pyval) (k : string) : py pyval :=
  match v with
  | PDict kv => match assoc k kv with Some x => Return x | None => Raise KeyError end
  | _ => Raise TypeError
  end.

(** [v.get(k, default)]: only a dict has the method. *)
Definition get (v : pyval) (k : string) (default : pyval) : py pyval :=
  match v with
  | PDict kv => Return (match assoc k kv with Some x => x | None => default end)
  | _ => Raise AttributeError
  end.

(** [v[i]] with the literal index [0]. *)
Definition getitem0 (v : pyval) : py pyval :=
  match v with
  | PList (x :: _) => Return x
  | PList [] => Raise IndexError
  | PStr (String c _) => Return (PStr (String c EmptyString))
  | PStr EmptyString => Raise IndexError
  | PDict _ => Raise KeyError
  | _ => Raise TypeError
  end.

Fixpoint chars (s : string) : list pyval :=
  match s with
  | EmptyString => []
  | String c r => PStr (String c EmptyString) :: chars r
  end.

(** [iter(v)]: the elements a [for] loop or an unpacking sees. *)
Definition iter (v : pyval) : py (list pyval) :=
  match v with
  | PList l => Return l
  | PStr s => Return (chars s)
  | PDict kv => Return (map (fun p => PStr p.1) kv)
  | _ => Raise TypeError
  end.

(** [a, b = v]. *)
Definition unpack2 (v : pyval) : py (pyval * pyval) :=
  l ← iter v;
  match l with
  | [a; b] => Return (a, b)
  | _ => Raise ValueError
  end.

(** [a, b, *_ = v]. *)
Definition unpack2_star (v : pyval) : py (pyval * pyval) :=
  l ← iter v;
  match l with
  | a :: b :: _ => Return (a, b)
  | _ => Raise ValueError
  end.

(** [bool(v)]. *)
Definition truthy (v : pyval) : bool :=
  match v with
  | PNone => false
  | PBool b => b
  | PInt n => negb (n =? 0)%Z
  | PFloat x => PyFloat.truthy x
  | PStr s => negb (String.eqb s EmptyString)
  | PList l => match l with [] => false | _ => true end
  | PDict kv => match kv with [] => false | _ => true end
  end.

(** [v == s] for a string literal [s]. *)
Definition eq_str (v : pyval) (s : string) : bool :=
  match v with
  | PStr t => String.eqb t s
  | _ => false
  end.

(** [s in v] for a string literal [s]: key of a dict, element of a list,
    substring of a str. *)
Fixpoint is_prefix (p s : string) : bool :=
  match p, s with
  | EmptyString, _ => true
  | String a p', String b s' => Ascii.eqb a b && is_prefix p' s'
  | String _ _, EmptyString => false
  end.

Fixpoint is_substring (p s : string) : bool :=
  is_prefix p s
  || match s with
     | EmptyString => false
     | String _ s' => is_substring p s'
     end.

Definition contains_str (v : pyval) (s : string) : py bool :=
  match v with
  | PDict kv => Return (match assoc s kv with Some _ => true | None => false end)
  | PList l => Return (existsb (fun x => eq_str x s) l)
  | PStr t => Return (is_substring s t)
  | _ => Raise TypeError
  end.

Section Conversions.
Context {SP : StrParse}.

(** [float(v)]. *)
Definition to_float (v : pyval) : py float :=
  match v with
  | PFloat x => Return x
  | PInt n => PyFloat.of_int n
  | PBool b => Return (if b then 1 else 0)%float
  | PStr s => match float_of_str s with Some x => Return x | None => Raise ValueError end
  | _ => Raise TypeError
  end.

(** [int(v)]. *)
Definition to_int (v : pyval) : py Z :=
  match v with
  | PInt n => Return n
  | PFloat x => PyFloat.to_int x
  | PBool b => Return (if b then 1 else 0)%Z
  | PStr s => match int_of_str s with Some n => Return n | None => Raise ValueError end
  | _ => Raise TypeError
  end.

(** [v / 1000.0]. *)
Definition div_1000 (v : pyval) : py float :=
  match v with
  | PFloat x => Return (x / 1000)%float
  | PInt n => x ← PyFloat.of_int n; Return (x / 1000)%float
  | PBool b => Return ((if b then 1 else 0) / 1000)%float
  | _ => Raise TypeError
  end.

End Conversions.

End PyVal.

(** ** The local order book *)

Module Book.

(** A side map [{price: quantity}]: a dict keyed by floats, in insertion
    order. A lookup compares keys with [==], so [0.0] and [-0.0] are one key
    and a freshly made NaN never matches a stored one. *)
Abbreviation side := (list (float * float)).

(** [p in d]. *)
Fixpoint side_mem (p : float) (d : side) : bool :=
  match d with
  | [] => false
  | (k, _) :: r => (k =? p)%float || side_mem p r
  end.

(** [d.pop(p, None)]. *)
Fixpoint side_pop (p : float) (d : side) : side :=
  match d with
  | [] => []
  | (k, v) :: r => if (k =? p)%float then r else (k, v) :: side_pop p r
  end.

(** [d[p] = q]: an existing key keeps its place, a new one goes last. *)
Fixpoint side_set (p q : float) (d : side) : side :=
  match d with
  | [] => [(p, q)]
  | (k, v) :: r => if (k =? p)%float then (k, q) :: r else (k, v) :: side_set p q r
  end.

Record LocalOrderBook := {
  lob_symbol : string;
  lob_bids : side;
  lob_asks : side;
  lob_last_update_id : pyval
}.

(** [LocalOrderBook(symbol)]. *)
Definition new_book (symbol : string) : LocalOrderBook :=
  {| lob_symbol := symbol; lob_bids := []; lob_asks := [];
     lob_last_update_id := PInt 0 |}.

Definition set_bids (d : side) (lob : LocalOrderBook) : LocalOrderBook :=
  {| lob_symbol := lob_symbol lob; lob_bids := d; lob_asks := lob_asks lob;
     lob_last_update_id := lob_last_update_id lob |}.

Definition set_asks (d : side) (lob : LocalOrderBook) : LocalOrderBook :=
  {| lob_symbol := lob_symbol lob; lob_bids := lob_bids lob; lob_asks := d;
     lob_last_update_id := lob_last_update_id lob |}.

Definition set_last_update_id (u : pyval) (lob : LocalOrderBook) : LocalOrderBook :=
  {| lob_symbol := lob_symbol lob; lob_bids := lob_bids lob;
     lob_asks := lob_asks lob; lob_last_update_id := u |}.

Section Updates.
Context {SP : StrParse}.

(** One turn of the loop of [upsert_side]: unpack, convert, then pop or set. *)
Definition upsert_level (d : side) (u : pyval) : py side :=
  '(price, qty) ← PyVal.unpack2 u;
  p ← PyVal.to_float price;
  q ← PyVal.to_float qty;
  Return (if (q =? 0)%float then side_pop p d else side_set p q d).

(** The loop over the update list. The dict is mutated in place, so the
    levels applied before a raising one stay applied. *)
Fixpoint upsert_levels (d : side) (us : list pyval) : side * py unit :=
  match us with
  | [] => (d, Return tt)
  | u :: r =>
      match upsert_level d u with
      | Return d' => upsert_levels d' r
      | Raise e => (d, Raise e)
      end
  end.

(** [lob.upsert_side(side_dict, updates)]. *)
Definition upsert_side (d : side) (updates : pyval) : side * py unit :=
  match PyVal.iter updates with
  | Return us => upsert_levels d us
  | Raise e => (d, Raise e)
  end.

(** A dict comprehension [{k: v for u in levels if c}]: [f u] is [None] when
    the filter rejects [u], else the pair to store. *)
Fixpoint dict_comp (f : pyval -> py (option (float * float)))
    (levels : list pyval) (acc : side) : py side :=
  match levels with
  | [] => Return acc
  | u :: r =>
      o ← f u;
      dict_comp f r (match o with
                     | Some (p, q) => side_set p q acc
                     | None => acc
                     end)
  end.

(** [{float(p): float(sz) for p, sz, *_ in levels}], the full-replacement
    form of the snapshot venues (OKX [books5]). *)
Definition level_pair (u : pyval) : py (option (float * float)) :=
  '(price, sz) ← PyVal.unpack2_star u;
  p ← PyVal.to_float price;
  q ← PyVal.to_float sz;
  Return (Some (p, q)).

Definition replace_side (levels : pyval) : py side :=
  us ← PyVal.iter levels;
  dict_comp level_pair us [].

(** The two ways a streamer changes a side of its book: an incremental
    [upsert_side], or the assignment of a freshly built dict. When the
    update raises, the book keeps what was done before the exception. *)
Inductive which_side : Type := Bids | Asks.

Inductive update : Type :=
  | Upsert (w : which_side) (updates : pyval)
  | Replace (w : which_side) (levels : pyval).

Definition get_side (w : which_side) (lob : LocalOrderBook) : side :=
  match w with Bids => lob_bids lob | Asks => lob_asks lob end.

Definition set_side (w : which_side) (d : side) (lob : LocalOrderBook)
  : LocalOrderBook :=
  match w with Bids => set_bids d lob | Asks => set_asks d lob end.

Definition apply_update (lob : LocalOrderBook) (op : update) : LocalOrderBook :=
  match op with
  | Upsert w updates => set_side w (upsert_side (get_side w lob) updates).1 lob
  | Replace w levels =>
      match replace_side levels with
      | Return d => set_side w d lob
      | Raise _ => lob
      end
  end.

Definition apply_updates (lob : LocalOrderBook) (ops : list update)
  : LocalOrderBook :=
  foldl apply_update lob ops.

(** Levels of a full replacement none of which converts to size [0]. *)
Definition clean_levels (levels : pyval) : Prop :=
  forall us, PyVal.iter levels = Return us ->
    Forall (fun u => forall p q, level_pair u = Return (Some (p, q)) ->
                                 (q =? 0)%float = false) us.

(** The updates under which the book keeps its quantities non-zero. *)
Definition keeps_invariant (op : update) : Prop :=
  match op with
  | Upsert _ _ => True
  | Replace _ levels => clean_levels levels
  end.

End Updates.

(** No level of the map stores the quantity [0]. *)
Definition no_zero_qty (d : side) : Prop :=
  Forall (fun kv => (kv.2 =? 0)%float = false) d.

Definition book_no_zero (lob : LocalOrderBook) : Prop :=
  no_zero_qty (lob_bids lob) /\ no_zero_qty (lob_asks lob).

(** The keys of a dict are pairwise unequal under [==]. *)
Definition distinct_keys (d : side) : Prop :=
  StronglySorted (fun a b => (a.1 =? b.1)%float = false) d.

(** No price of the map is a NaN. *)
Definition no_nan_keys (d : side) : Prop :=
  Forall (fun kv => is_nan kv.1 = false) d.

(** Best-first orders of a snapshot side. *)
Definition strictly_descending (l : list (float * float)) : Prop :=
  StronglySorted (fun a b => (b.1 <? a.1)%float = true) l.

Definition strictly_ascending (l : list (float * float)) : Prop :=
  StronglySorted (fun a b => (a.1 <? b.1)%float = true) l.

(** [sorted(items, key=key)]: a stable sort that compares keys with [<].
    For keys without NaN this is the list Python returns. *)
Fixpoint insert_by {A} (key : A -> float) (x : A) (l : list A) : list A :=
  match l with
  | [] => [x]
  | y :: r => if (key y <? key x)%float then y :: insert_by key x r
              else x :: y :: r
  end.

Fixpoint sorted_by {A} (key : A -> float) (l : list A) : list A :=
  match l with
  | [] => []
  | x :: r => insert_by key x (sorted_by key r)
  end.

(** [l[:n]] for any [int] [n]: a negative [n] counts from the end. *)
Definition slice_to {A} (n : Z) (l : list A) : list A :=
  if (0 <=? n)%Z then take (Z.to_nat n) l
  else take (length l - Z.to_nat (- n)) l.

Record Depth := {
  snap_symbol : string;
  snap_ts : float;
  snap_bids : list (float * float);
  snap_asks : list (float * float);
  snap_last_update_id : pyval
}.

(** [lob.snapshot(top_n)]; [now] is the reading of [time.time()]. *)
Definition snapshot (now : float) (top_n : Z) (lob : LocalOrderBook) : Depth :=
  {| snap_symbol := lob_symbol lob;
     snap_ts := now;
     snap_bids := slice_to top_n (sorted_by (fun x => (- x.1)%float) (lob_bids lob));
     snap_asks := slice_to top_n (sorted_by (fun x => x.1) (lob_asks lob));
     snap_last_update_id := lob_last_update_id lob |}.

End Book.

(** ** Venue streamers *)

Module Streamer.
Import Book.

(** A computation that mutates a state [S] in place and may raise: the
    state reached before the exception is kept. *)
Definition stx (S A : Type) : Type := S -> S * py A.

Global Instance stx_ret {S} : MRet (stx S) := fun _ a s => (s, Return a).
Global Instance stx_bind {S} : MBind (stx S) := fun _ _ k m s =>
  match m s with
  | (s', Return a) => k a s'
  | (s', Raise e) => (s', Raise e)
  end.

Definition lift {S A} (m : py A) : stx S A := fun s => (s, m).
Definition get_state {S} : stx S S := fun s => (s, Return s).
Definition modify {S} (f : S -> S) : stx S unit := fun s => (f s, Return tt).

(** The dict [publish] puts on the output queue. *)
Record Event := {
  ev_exchange : string;
  ev_symbol : string;
  ev_venue_symbol : pyval;
  ev_event_ts : float;
  ev_recv_ts : float;
  ev_seq : pyval;
  ev_depth : Depth;
  ev_raw : pyval
}.

(** The readings of [time.time()] while one message is handled: for a
    default argument, inside [snapshot], inside [publish]. *)
Record Clock := {
  clk_default : float;
  clk_snapshot : float;
  clk_publish : float
}.

(** An inbound websocket frame after [json.loads]: the decoded value, or
    text that is not JSON. *)
Inductive frame : Type :=
  | Json (v : pyval)
  | NotJson.

Definition json_loads (f : frame) : py pyval :=
  match f with
  | Json v => Return v
  | NotJson => Raise JSONDecodeError
  end.

(** [symbol_map]: unified symbol to venue symbol, in insertion order. *)
Abbreviation symbol_map := (list (string * string)).

Fixpoint map_get (k : string) (m : symbol_map) : option string :=
  match m with
  | [] => None
  | (k', v) :: r => if String.eqb k' k then Some v else map_get k r
  end.

(** [BaseStreamer._find_unified(venue)]. *)
Fixpoint find_unified (m : symbol_map) (venue : pyval) : py (option string) :=
  match m with
  | [] => Return None
  | (unified, v) :: r =>
      match venue with
      | PStr s =>
          if String.eqb (PyStr.upper v) (PyStr.upper s) then Return (Some unified)
          else find_unified r venue
      | _ => Raise AttributeError
      end
  end.

(** [BaseStreamer.publish]: builds the event; the caller appends it to the
    output queue. *)
Definition publish (exchange : string) (m : symbol_map) (clk : Clock)
    (symbol : string) (venue_sym : pyval) (event_ts : float) (seq : pyval)
    (depth : Depth) (raw : pyval) : Event :=
  {| ev_exchange := exchange;
     ev_symbol := symbol;
     ev_venue_symbol :=
       if PyVal.truthy venue_sym then venue_sym
       else PStr (default symbol (map_get symbol m));
     ev_event_ts := event_ts;
     ev_recv_ts := clk_publish clk;
     ev_seq := seq;
     ev_depth := depth;
     ev_raw := raw |}.

Section Handlers.
Context {SP : StrParse}.

(** [lob.upsert_side(lob.bids, updates)] on the book held as state. *)
Definition upsert_bids (updates : pyval) : stx LocalOrderBook unit :=
  fun lob =>
    let '(d, r) := upsert_side (lob_bids lob) updates in (set_bids d lob, r).

Definition upsert_asks (updates : pyval) : stx LocalOrderBook unit :=
  fun lob =>
    let '(d, r) := upsert_side (lob_asks lob) updates in (set_asks d lob, r).

(** The body of [async for msg in ws] in [BinanceStreamer._one]. *)
Definition binance_on_message (m : symbol_map) (unified_sym venue_sym : string)
    (clk : Clock) (f : frame) : stx LocalOrderBook (option Event) :=
  msg ← lift (json_loads f);
  data ← lift (PyVal.getitem msg "data");
  b ← lift (PyVal.getitem data "b");
  upsert_bids b;;
  a ← lift (PyVal.getitem data "a");
  upsert_asks a;;
  u ← lift (PyVal.getitem data "u");
  modify (set_last_update_id u);;
  e ← lift (PyVal.getitem data "E");
  event_ts ← lift (PyVal.div_1000 e);
  seq ← lift (PyVal.getitem data "u");
  lob ← get_state;
  mret (Some (publish "binance" m clk unified_sym (PStr venue_sym) event_ts seq
                (snapshot (clk_snapshot clk) 20 lob) data)).

(** The books of a multiplexed streamer, keyed by unified symbol. *)
Abbreviation books := (gmap string LocalOrderBook).

Definition make_books (m : symbol_map) : books :=
  list_to_map (map (fun kv => (kv.1, new_book kv.1)) m).

(** [lob = self.books[unified]] followed by in-place updates of [lob]. *)
Definition with_book {A} (unified : string) (k : stx LocalOrderBook A)
  : stx books A :=
  fun bs =>
    match bs !! unified with
    | None => (bs, Raise KeyError)
    | Some lob => let '(lob', r) := k lob in (<[unified := lob']> bs, r)
    end.

(** The body of the read loop of [OKXStreamer.run]; [None] is [continue]. *)
Definition okx_on_message (m : symbol_map) (clk : Clock) (f : frame)
  : stx books (option Event) :=
  msg ← lift (json_loads f);
  is_event ← lift (PyVal.contains_str msg "event");
  if is_event : bool then mret None else
  arg ← lift (PyVal.get msg "arg" (PDict []));
  channel ← lift (PyVal.get arg "channel" PNone);
  if negb (PyVal.eq_str channel "books5") then mret None else
  data_list ← lift (PyVal.get msg "data" PNone);
  if negb (PyVal.truthy data_list) then mret None else
  book_data ← lift (PyVal.getitem0 data_list);
  arg' ← lift (PyVal.getitem msg "arg");
  venue ← lift (PyVal.getitem arg' "instId");
  found ← lift (find_unified m venue);
  match found with
  | None => mret None
  | Some unified =>
      if String.eqb unified EmptyString then mret None else
      with_book unified (
        bids ← lift (PyVal.getitem book_data "bids");
        new_bids ← lift (replace_side bids);
        modify (set_bids new_bids);;
        asks ← lift (PyVal.getitem book_data "asks");
        new_asks ← lift (replace_side asks);
        modify (set_asks new_asks);;
        seq_id ← lift (PyVal.get book_data "seqId" (PInt 0));
        seq ← lift (PyVal.to_int seq_id);
        modify (set_last_update_id (PInt seq));;
        ts ← lift (PyVal.getitem book_data "ts");
        ts_ms ← lift (PyVal.to_float ts);
        lob ← get_state;
        mret (Some (publish "okx" m clk unified venue (ts_ms / 1000)%float (PInt seq)
                      (snapshot (clk_snapshot clk) 20 lob) msg)))
  end.

(** [{float(u[price]): float(u[size]) for u in units if u.get(price)}]. *)
Definition upbit_unit (price size : string) (u : pyval)
  : py (option (float * float)) :=
  c ← PyVal.get u price PNone;
  if negb (PyVal.truthy c) then Return None else
  pv ← PyVal.getitem u price;
  p ← PyVal.to_float pv;
  qv ← PyVal.getitem u size;
  q ← PyVal.to_float qv;
  Return (Some (p, q)).

(** The body of the read loop of [UpbitStreamer.run]. *)
Definition upbit_on_message (m : symbol_map) (clk : Clock) (f : frame)
  : stx books (option Event) :=
  msg ← lift (json_loads f);
  ty ← lift (PyVal.get msg "type" PNone);
  if negb (PyVal.eq_str ty "orderbook") then mret None else
  code ← lift (PyVal.getitem msg "code");
  found ← lift (find_unified m code);
  match found with
  | None => mret None
  | Some unified =>
      if String.eqb unified EmptyString then mret None else
      with_book unified (
        units ← lift (PyVal.get msg "orderbook_units" (PList []));
        us ← lift (PyVal.iter units);
        new_bids ← lift (dict_comp (upbit_unit "bid_price" "bid_size") us []);
        modify (set_bids new_bids);;
        us' ← lift (PyVal.iter units);
        new_asks ← lift (dict_comp (upbit_unit "ask_price" "ask_size") us' []);
        modify (set_asks new_asks);;
        now_ms ← lift (PyFloat.to_int (clk_default clk * 1000)%float);
        ts ← lift (PyVal.get msg "timestamp" (PInt now_ms));
        seq ← lift (PyVal.to_int ts);
        modify (set_last_update_id (PInt seq));;
        event_ts ← lift (PyVal.div_1000 (PInt seq));
        lob ← get_state;
        mret (Some (publish "upbit" m clk unified code event_ts (PInt seq)
                      (snapshot (clk_snapshot clk) 20 lob) msg)))
  end.

End Handlers.

(** What the socket delivers to [async for]: a frame, or a transport
    failure (reset, ping timeout) raised by the iterator. *)
Inductive inbound : Type :=
  | Frame (clk : Clock) (f : frame)
  | TransportError.

(** How one connection ends. *)
Inductive conn_end : Type :=
  | PeerClosed
  | HandlerRaised (e : exn) (unread : nat)
  | TransportFailed (unread : nat).

(** [async with connect(...) as ws: async for msg in ws: body], inside
    [try]. An exception of the body leaves the [async with] block, which
    closes the socket; the frames behind it are never read. *)
Fixpoint read_loop {S} (body : Clock -> frame -> stx S (option Event))
    (input : list inbound) (s : S) : S * list Event * conn_end :=
  match input with
  | [] => (s, [], PeerClosed)
  | TransportError :: rest => (s, [], TransportFailed (length rest))
  | Frame clk f :: rest =>
      match body clk f s with
      | (s', Raise e) => (s', [], HandlerRaised e (length rest))
      | (s', Return o) =>
          let '(s'', evs, fin) := read_loop body rest s' in
          (s'', match o with Some ev => ev :: evs | None => evs end, fin)
      end
  end.

(** What the [except Exception] clause of the streamer does next. *)
Definition sleeps_before_reconnect (fin : conn_end) : bool :=
  match fin with
  | PeerClosed => false
  | HandlerRaised _ _ | TransportFailed _ => true
  end.

(** [while True: try: ... except Exception: sleep(5)] over the successive
    connections; the state survives a reconnect. *)
Fixpoint run {S} (body : Clock -> frame -> stx S (option Event))
    (connections : list (list inbound)) (s : S)
  : S * list Event * list conn_end :=
  match connections with
  | [] => (s, [], [])
  | input :: rest =>
      let '(s', evs, fin) := read_loop body input s in
      let '(s'', evs', fins) := run body rest s' in
      (s'', evs ++ evs', fin :: fins)
  end.

(** The symbol maps [main] gives the three streamers. *)
Definition binance_map : symbol_map :=
  [("BTC-USD", "btcusdt"); ("ETH-USD", "ethusdt"); ("SOL-USD", "solusdt");
   ("XRP-USD", "xrpusdt"); ("ADA-USD", "adausdt"); ("DOGE-USD", "dogeusdt")]%string.

Definition okx_map : symbol_map :=
  [("BTC-USD", "BTC-USDT"); ("ETH-USD", "ETH-USDT"); ("SOL-USD", "SOL-USDT");
   ("XRP-USD", "XRP-USDT"); ("ADA-USD", "ADA-USDT"); ("DOGE-USD", "DOGE-USDT")]%string.

Definition upbit_map : symbol_map :=
  [("BTC-KRW", "KRW-BTC"); ("ETH-KRW", "KRW-ETH"); ("SOL-KRW", "KRW-SOL");
   ("XRP-KRW", "KRW-XRP"); ("ADA-KRW", "KRW-ADA"); ("DOGE-KRW", "KRW-DOGE")]%string.

(** A Binance depth update, as [json.loads] decodes it. *)
Definition binance_depth_frame : frame :=
  Json
    (PDict [("stream", PStr "btcusdt@depth@100ms");
            ("data", PDict [("e", PStr "depthUpdate"); ("E", PInt 1700000000000);
                            ("s", PStr "BTCUSDT"); ("U", PInt 6); ("u", PInt 7);
                            ("b", PList [PList [PStr "100.5"; PStr "1"]]);
                            ("a", PList [PList [PStr "101"; PStr "2"]])])]%string).

(** A clock for the worked examples. *)
Definition sample_clock : Clock :=
  {| clk_default := 1700000000; clk_snapshot := 1700000000;
     clk_publish := 1700000000 |}.

End Streamer.

(** ** Queues, fan-out and batching *)

Module Pipeline.
Import Book Streamer.

(** [asyncio.Queue(maxsize)]; [maxsize <= 0] means no bound. *)
Record Queue (A : Type) := {
  q_maxsize : Z;
  q_items : list A
}.
Arguments q_maxsize {A} _.
Arguments q_items {A} _.

(** [asyncio.Queue()]: the default [maxsize] is [0]. *)
Definition new_queue {A} : Queue A := {| q_maxsize := 0; q_items := [] |}.

(** [q.full()]. *)
Definition full {A} (q : Queue A) : bool :=
  if (q_maxsize q <=? 0)%Z then false
  else (q_maxsize q <=? Z.of_nat (length (q_items q)))%Z.

(** [await q.put(x)]: [None] when the caller is suspended on a full queue. *)
Definition put {A} (x : A) (q : Queue A) : option (Queue A) :=
  if full q then None
  else Some {| q_maxsize := q_maxsize q; q_items := q_items q ++ [x] |}.

(** [await q.get()]: [None] when the caller is suspended on an empty queue. *)
Definition get {A} (q : Queue A) : option (A * Queue A) :=
  match q_items q with
  | [] => None
  | x :: r => Some (x, {| q_maxsize := q_maxsize q; q_items := r |})
  end.

(** The fan-out stage: the source queue, the destination queues, and where
    the broadcaster stands in [for q in dst_queues: await q.put(ev)]; [None]
    is the broadcaster waiting in [src_q.get()]. The last two fields log
    every put on the source and on each destination. *)
Record Fanout := {
  f_src : Queue Event;
  f_dsts : list (Queue Event);
  f_hand : option (Event * nat);
  f_published : list Event;
  f_received : list (list Event)
}.

Inductive label : Type :=
  | Publish (ev : Event)
  | BroadcasterGet
  | BroadcasterPut
  | ConsumerGet (i : nat).

(** The broadcaster's position after it dealt with destination [i - 1]:
    past the last queue the [for] loop is over. *)
Definition next_hand (n : nat) (ev : Event) (i : nat) : option (Event * nat) :=
  if (i <? n)%nat then Some (ev, i) else None.

(** One atomic step of one task; [None] when that task is suspended. *)
Definition step (s : Fanout) (l : label) : option Fanout :=
  match l with
  | Publish ev =>
      q ← put ev (f_src s);
      Some {| f_src := q; f_dsts := f_dsts s; f_hand := f_hand s;
              f_published := f_published s ++ [ev];
              f_received := f_received s |}
  | BroadcasterGet =>
      match f_hand s with
      | Some _ => None
      | None =>
          '(ev, q) ← get (f_src s);
          Some {| f_src := q; f_dsts := f_dsts s;
                  f_hand := next_hand (length (f_dsts s)) ev 0;
                  f_published := f_published s;
                  f_received := f_received s |}
      end
  | BroadcasterPut =>
      '(ev, i) ← f_hand s;
      q ← f_dsts s !! i;
      q' ← put ev q;
      Some {| f_src := f_src s; f_dsts := <[i := q']> (f_dsts s);
              f_hand := next_hand (length (f_dsts s)) ev (S i);
              f_published := f_published s;
              f_received := alter (fun h => h ++ [ev]) i (f_received s) |}
  | ConsumerGet i =>
      q ← f_dsts s !! i;
      '(_, q') ← get q;
      Some {| f_src := f_src s; f_dsts := <[i := q']> (f_dsts s);
              f_hand := f_hand s;
              f_published := f_published s;
              f_received := f_received s |}
  end.

Fixpoint exec (s : Fanout) (ls : list label) : option Fanout :=
  match ls with
  | [] => Some s
  | l :: r => s' ← step s l; exec s' r
  end.

(** A fan-out stage at start-up: empty queues of the given capacities, the
    broadcaster waiting on the source. *)
Definition fresh_fanout (src_max : Z) (dst_max : list Z) : Fanout :=
  {| f_src := {| q_maxsize := src_max; q_items := [] |};
     f_dsts := map (fun m => {| q_maxsize := m; q_items := [] |}) dst_max;
     f_hand := None;
     f_published := [];
     f_received := map (fun _ => []) dst_max |}.

(** The queues [main] creates with [asyncio.Queue()] and hands to
    [broadcaster]: [central_q] to [realtime_q], [file_q], [db_staging_q]. *)
Definition main_fanout : Fanout :=
  {| f_src := new_queue;
     f_dsts := [new_queue; new_queue; new_queue];
     f_hand := None;
     f_published := [];
     f_received := [[]; []; []] |}.

(** The puts the broadcaster still has to make for the event in its hand,
    and the steps it needs to empty the source. *)
Definition hand_left (s : Fanout) : nat :=
  match f_hand s with
  | Some (_, i) => length (f_dsts s) - i
  | None => 0
  end.

Definition work (s : Fanout) : nat :=
  length (q_items (f_src s)) * S (length (f_dsts s)) + hand_left s.

(** What the log of destination [i] must hold: the events fanned out in
    full, and the one in hand if the broadcaster is past queue [i]. *)
Definition hand_part (s : Fanout) (i : nat) : list Event :=
  match f_hand s with
  | Some (ev, k) => if (i <? k)%nat then [ev] else []
  | None => []
  end.

Definition hand_event (s : Fanout) : list Event :=
  match f_hand s with
  | Some (ev, _) => [ev]
  | None => []
  end.

(** The invariant of the fan-out stage: the events published are those
    fanned out in full, then the one in hand, then those still queued on
    the source; and each destination's log is the first part, plus the
    event in hand once the broadcaster is past that destination. *)
Definition fan_inv (s : Fanout) : Prop :=
  length (f_received s) = length (f_dsts s)
  /\ match f_hand s with
     | Some (_, k) => (k < length (f_dsts s))%nat
     | None => True
     end
  /\ exists done : list Event,
       f_published s = done ++ hand_event s ++ q_items (f_src s)
       /\ forall i, (i < length (f_dsts s))%nat ->
                    f_received s !! i = Some (done ++ hand_part s i).

(** No destination queue has a capacity. *)
Definition unbounded (s : Fanout) : Prop :=
  Forall (fun q => (q_maxsize q <= 0)%Z) (f_dsts s).

(** No consumer has taken anything yet: each destination queue holds what
    it received. *)
Definition untouched (s : Fanout) : Prop :=
  map q_items (f_dsts s) = f_received s.

(** The broadcaster running alone until it has to wait for the source. *)
Fixpoint broadcaster (fuel : nat) (s : Fanout) : Fanout :=
  match fuel with
  | O => s
  | S k =>
      match step s (match f_hand s with
                    | Some _ => BroadcasterPut
                    | None => BroadcasterGet
                    end) with
      | Some s' => broadcaster k s'
      | None => s
      end
  end.

(** What [asyncio.wait_for(src_q.get(), timeout=max_wait)] gave and the
    reading of [time.time()] that follows it. *)
Inductive wait_result : Type :=
  | Got (ev : Event)
  | TimedOut.

Record BatcherState := {
  b_buf : list Event;
  b_last_flush : float
}.

(** One turn of the [while True] loop of [batcher]: the new state and the
    batch put on [dst_q], if any. *)
Definition batcher_step (batch_size : Z) (max_wait : float)
    (st : BatcherState) (obs : wait_result * float)
  : BatcherState * option (list Event) :=
  let buf := match obs.1 with
             | Got ev => b_buf st ++ [ev]
             | TimedOut => b_buf st
             end in
  let now := obs.2 in
  let nonempty := match buf with [] => false | _ => true end in
  let should_flush :=
    if (batch_size <=? Z.of_nat (length buf))%Z then true
    else if nonempty && (max_wait <=? now - b_last_flush st)%float then true
    else false in
  if should_flush && nonempty
  then ({| b_buf := []; b_last_flush := now |}, Some buf)
  else ({| b_buf := buf; b_last_flush := b_last_flush st |}, None).

(** The batcher over a run of loop turns: the batches in emission order and
    the state it is left in. *)
Fixpoint batcher (batch_size : Z) (max_wait : float)
    (st : BatcherState) (trace : list (wait_result * float))
  : list (list Event) * BatcherState :=
  match trace with
  | [] => ([], st)
  | obs :: rest =>
      let '(st', out) := batcher_step batch_size max_wait st obs in
      let '(bs, fin) := batcher batch_size max_wait st' rest in
      (match out with Some b => b :: bs | None => bs end, fin)
  end.

(** [buf = []; last_flush = time.time()] at task start. *)
Definition batcher_init (start : float) : BatcherState :=
  {| b_buf := []; b_last_flush := start |}.

(** The events a trace hands to the batcher. *)
Definition events_of (trace : list (wait_result * float)) : list Event :=
  omap (fun obs => match obs.1 with Got ev => Some ev | TimedOut => None end) trace.

(** A run of turns in each of which [wait_for] returns an event. *)
Definition arrivals (evs : list (Event * float)) : list (wait_result * float) :=
  map (fun p => (Got p.1, p.2)) evs.

(** Any [b] consecutive readings of the clock, the start included, span
    less than [W]. *)
Definition window (b : nat) (W : float) (times : list float) : Prop :=
  forall i j ti tj,
    times !! i = Some ti -> times !! j = Some tj ->
    i < j < i + b -> (tj - ti <? W)%float = true.

(** [ceil(n / b)] for a positive [b]. *)
Definition ceil_div (n b : Z) : Z := ((n + b - 1) / b)%Z.

(** The defaults of [batcher]: [batch_size=100], [max_wait=0.5]. *)
Definition default_batch_size : Z := 100.
Definition default_max_wait : float := 0.5%float.

End Pipeline.

(** ** The QuestDB ingestor *)

Module Ingest.
Import Book Streamer.

(** The arguments of one [sender.row("orderbook", symbols=..., columns=...,
    at=...)] call. The two JSON columns hold the value that is dumped. *)
Record Row := {
  row_exchange : string;
  row_symbol : string;
  row_base : string;
  row_quote : string;
  row_region : string;
  row_venue_type : string;
  row_instance : string;
  row_seq : Z;
  row_best_bid : option float;
  row_best_ask : option float;
  row_mid_price : option float;
  row_spread_bps : option float;
  row_recv_ts_s : float;
  row_depth_json : Depth;
  row_raw_json : pyval;
  row_at : Z
}.

(** [float(side[0][0]) if side else None]. *)
Definition best_price (levels : list (float * float)) : option float :=
  match levels with
  | [] => None
  | (p, _) :: _ => Some p
  end.

(** [bool(x)] for [x] a float or [None]. *)
Definition truthy_opt (x : option float) : bool :=
  match x with
  | None => false
  | Some p => PyFloat.truthy p
  end.

(** The derived metrics: [mid_price] and [spread_bps] start as [None] and
    are set under [if best_bid and best_ask]. *)
Definition derived (best_bid best_ask : option float)
  : py (option float * option float) :=
  if truthy_opt best_bid && truthy_opt best_ask then
    match best_bid, best_ask with
    | Some bb, Some ba =>
        let mid_price := ((bb + ba) / 2)%float in
        q ← PyFloat.div (ba - bb)%float mid_price;
        Return (Some mid_price, Some (q * 10000)%float)
    | _, _ => Return (None, None)
    end
  else Return (None, None).

Section Consumer.
Context {SP : StrParse}.

(** The body of the [try] up to the call of [sender.row]: every argument of
    the call. *)
Definition build_row (ev : Event) : py Row :=
  let ex := ev_exchange ev in
  '(base, quote, normalized) ←
    match ev_venue_symbol ev with
    | PStr venue_sym => split_symbol ex venue_sym
    | _ => Raise AttributeError
    end;
  let region := get_region ex quote in
  let depth := ev_depth ev in
  let best_bid := best_price (snap_bids depth) in
  let best_ask := best_price (snap_asks depth) in
  '(mid_price, spread_bps) ← derived best_bid best_ask;
  seq ← PyVal.to_int (ev_seq ev);
  at_ns ← PyFloat.to_int (ev_event_ts ev * 1000000000)%float;
  Return {| row_exchange := ex; row_symbol := normalized; row_base := base;
            row_quote := quote; row_region := region;
            row_venue_type := "SPOT"; row_instance := "A";
            row_seq := seq; row_best_bid := best_bid; row_best_ask := best_ask;
            row_mid_price := mid_price; row_spread_bps := spread_bps;
            row_recv_ts_s := ev_recv_ts ev; row_depth_json := depth;
            row_raw_json := ev_raw ev; row_at := at_ns |}.

(** The QuestDB client: [row] buffers a row or raises, [flush] sends the
    buffer or raises. *)
Class Sender (S : Type) := {
  sender_row : S -> Row -> S * py unit;
  sender_flush : S -> S * py unit
}.

(** What the consumer does that is visible from outside. *)
Inductive io : Type :=
  | RowCall (r : Row)
  | FlushCall
  | PrintError (e : exn)
  | PrintFlushed (n : nat).

Context {S : Type} {SND : Sender S}.

(** [for ev in batch: try: ... except Exception: print; continue]. *)
Fixpoint ingest_events (s : S) (batch : list Event) : S * list io :=
  match batch with
  | [] => (s, [])
  | ev :: rest =>
      match build_row ev with
      | Raise e =>
          let '(s', out) := ingest_events s rest in (s', PrintError e :: out)
      | Return r =>
          match sender_row s r with
          | (s1, Return _) =>
              let '(s', out) := ingest_events s1 rest in (s', RowCall r :: out)
          | (s1, Raise e) =>
              let '(s', out) := ingest_events s1 rest in
              (s', RowCall r :: PrintError e :: out)
          end
      end
  end.

(** One turn of [while True]: the rows of the batch, then [sender.flush()],
    which is outside the [try]. *)
Definition ingest_batch (s : S) (batch : list Event) : S * list io * py unit :=
  let '(s1, out) := ingest_events s batch in
  match sender_flush s1 with
  | (s2, Return _) =>
      (s2, out ++ [FlushCall; PrintFlushed (length batch)], Return tt)
  | (s2, Raise e) => (s2, out ++ [FlushCall], Raise e)
  end.

(** The consumer over the batches it receives; it ends only when [flush]
    raises. *)
Fixpoint questdb_consumer (s : S) (batches : list (list Event))
  : S * list io * py unit :=
  match batches with
  | [] => (s, [], Return tt)
  | b :: rest =>
      match ingest_batch s b with
      | (s1, out, Return _) =>
          let '(s2, out', r) := questdb_consumer s1 rest in (s2, out ++ out', r)
      | (s1, out, Raise e) => (s1, out, Raise e)
      end
  end.

(** The rows of the events of a batch whose [try] body reaches the call
    of [sender.row]. *)
Definition buildable (batch : list Event) : list Row :=
  omap (fun ev => match build_row ev with
                  | Return r => Some r
                  | Raise _ => None
                  end) batch.

End Consumer.

(** The rows handed to [sender.row], and the calls of [sender.flush], in a
    run of the consumer. *)
Definition row_calls (out : list io) : list Row :=
  omap (fun a => match a with RowCall r => Some r | _ => None end) out.

Definition flush_calls (out : list io) : nat :=
  length (omap (fun a => match a with FlushCall => Some tt | _ => None end) out).

(** An event for the worked examples: one level on each side. *)
Definition sample_event (exchange venue_sym : string) (event_ts : float) : Event :=
  {| ev_exchange := exchange; ev_symbol := "BTC-USD";
     ev_venue_symbol := PStr venue_sym;
     ev_event_ts := event_ts; ev_recv_ts := event_ts;
     ev_seq := PInt 1;
     ev_depth := {| snap_symbol := "BTC-USD"; snap_ts := event_ts;
                    snap_bids := [(100, 1)%float];
                    snap_asks := [(101, 1)%float];
                    snap_last_update_id := PInt 1 |};
     ev_raw := PDict [] |}.

(** A client for the worked examples: [row] buffers the row but rejects a
    negative timestamp, [flush] moves the buffer to the store. *)
Definition buffer_sender : Sender (list Row * list (list Row)) :=
  {| sender_row := fun s r =>
       if (row_at r <? 0)%Z then (s, Raise IngressError)
       else ((s.1 ++ [r], s.2), Return tt);
     sender_flush := fun s => (([] : list Row, s.2 ++ [s.1]), Return tt) |}.

End Ingest.

(** ** Further Python primitives *)

Module PyOps.

(** [v[n]] with a literal index [n >= 0]. *)
Definition getitem_at (n : nat) (v : pyval) : py pyval :=
  match v with
  | PList l => match l !! n with Some x => Return x | None => Raise IndexError end
  | PStr s => match String.get n s with
              | Some c => Return (PStr (String c EmptyString))
              | None => Raise IndexError
              end
  | PDict _ => Raise KeyError
  | _ => Raise TypeError
  end.

(** [v.startswith(prefix)]: only a str has the method. *)
Definition startswith (v : pyval) (prefix : string) : py bool :=
  match v with
  | PStr s => Return (PyVal.is_prefix prefix s)
  | _ => Raise AttributeError
  end.

(** [s.replace(old, empty)] for a non-empty [old]: every occurrence found from
    left to right is dropped; [skip] counts the characters of the current
    occurrence still to drop. *)
Fixpoint remove_from (old : string) (skip : nat) (s : string) : string :=
  match s with
  | EmptyString => EmptyString
  | String c r =>
      match skip with
      | S k => remove_from old k r
      | O => if PyVal.is_prefix old s
             then remove_from old (String.length old - 1) r
             else String c (remove_from old 0 r)
      end
  end.

Definition remove_all (old s : string) : string := remove_from old 0 s.

(** [v == 0]. *)
Definition eq_zero (v : pyval) : bool :=
  match v with
  | PInt n => (n =? 0)%Z
  | PFloat x => (x =? 0)%float
  | PBool b => negb b
  | _ => false
  end.

(** [str(v)] inside an f-string. What [str] prints for a number or a
    container is taken as given. *)
Class StrFormat := str_of_value : pyval -> string.

Definition fmt {SF : StrFormat} (v : pyval) : string :=
  match v with
  | PStr s => s
  | PNone => "None"
  | PBool true => "True"
  | PBool false => "False"
  | _ => str_of_value v
  end.

End PyOps.

(** ** The other venue streamers *)

Module Venues.
Import Book Streamer.

Abbreviation books := (gmap string LocalOrderBook).

Section Handlers.
Context {SP : StrParse}.

(** [{float(p): float(q) for p, q in levels}]. *)
Definition pair_level (u : pyval) : py (option (float * float)) :=
  '(price, qty) ← PyVal.unpack2 u;
  p ← PyVal.to_float price;
  q ← PyVal.to_float qty;
  Return (Some (p, q)).

(** [{float(item[0]): float(item[1]) for item in levels}]. *)
Definition indexed_level (item : pyval) : py (option (float * float)) :=
  a ← PyOps.getitem_at 0 item;
  p ← PyVal.to_float a;
  b ← PyOps.getitem_at 1 item;
  q ← PyVal.to_float b;
  Return (Some (p, q)).

(** [{float(item["price"]): float(item["qty"]) for item in levels}]. *)
Definition keyed_level (item : pyval) : py (option (float * float)) :=
  a ← PyVal.getitem item "price";
  p ← PyVal.to_float a;
  b ← PyVal.getitem item "qty";
  q ← PyVal.to_float b;
  Return (Some (p, q)).

(** The assignment of both sides from [src.get("bids", [])] and
    [src.get("asks", [])], each through a comprehension. *)
Definition replace_both (level : pyval -> py (option (float * float)))
    (src : pyval) : stx LocalOrderBook unit :=
  bids ← lift (PyVal.get src "bids" (PList []));
  us ← lift (PyVal.iter bids);
  new_bids ← lift (dict_comp level us []);
  modify (set_bids new_bids);;
  asks ← lift (PyVal.get src "asks" (PList []));
  us' ← lift (PyVal.iter asks);
  new_asks ← lift (dict_comp level us' []);
  modify (set_asks new_asks).

(** [seq = int(src.get(key, int(time.time()*1000)))], stored as
    [last_update_id], and the [publish] call that ends the handlers of the
    Korean venues. *)
Definition stamp_and_publish (exchange : string) (m : symbol_map) (clk : Clock)
    (unified : string) (venue_sym : pyval) (src : pyval) (key : string)
    (raw : pyval) : stx LocalOrderBook (option Event) :=
  now_ms ← lift (PyFloat.to_int (clk_default clk * 1000)%float);
  ts ← lift (PyVal.get src key (PInt now_ms));
  seq ← lift (PyVal.to_int ts);
  modify (set_last_update_id (PInt seq));;
  event_ts ← lift (PyVal.div_1000 (PInt seq));
  lob ← get_state;
  mret (Some (publish exchange m clk unified venue_sym event_ts (PInt seq)
                (snapshot (clk_snapshot clk) 20 lob) raw)).

(** [unified = self._find_unified(sym); if not unified: continue;
    lob = self.books[unified]], then the rest of the handler on [lob]. *)
Definition on_book (m : symbol_map) (sym : pyval)
    (k : string -> stx LocalOrderBook (option Event)) : stx books (option Event) :=
  found ← lift (find_unified m sym);
  match found with
  | None => mret None
  | Some unified =>
      if String.eqb unified EmptyString then mret None
      else with_book unified (k unified)
  end.

(** The body of the read loop of [BithumbStreamer.run]. *)
Definition bithumb_on_message (m : symbol_map) (clk : Clock) (f : frame)
  : stx books (option Event) :=
  msg ← lift (json_loads f);
  ty ← lift (PyVal.get msg "type" PNone);
  if negb (PyVal.eq_str ty "orderbookdepth") then mret None else
  content ← lift (PyVal.get msg "content" (PDict []));
  sym ← lift (PyVal.get content "symbol" PNone);
  if negb (PyVal.truthy sym) then mret None else
  on_book m sym (fun unified =>
    replace_both pair_level content;;
    stamp_and_publish "bithumb" m clk unified sym content "datetime" msg).

Context {SF : PyOps.StrFormat}.

(** The body of the read loop of [CoinoneStreamer.run]. *)
Definition coinone_on_message (m : symbol_map) (clk : Clock) (f : frame)
  : stx books (option Event) :=
  msg ← lift (json_loads f);
  rt ← lift (PyVal.get msg "response_type" PNone);
  if negb (PyVal.eq_str rt "DATA") then mret None else
  data ← lift (PyVal.get msg "data" (PDict []));
  ch ← lift (PyVal.get msg "channel" PNone);
  if negb (PyVal.eq_str ch "ORDERBOOK") then mret None else
  topic ← lift (PyVal.get msg "topic" (PDict []));
  target ← lift (PyVal.get topic "target_currency" PNone);
  quote ← lift (PyVal.get topic "quote_currency" PNone);
  let sym := PStr (PyOps.fmt target +:+ "-" +:+ PyOps.fmt quote) in
  on_book m sym (fun unified =>
    replace_both keyed_level data;;
    stamp_and_publish "coinone" m clk unified sym data "timestamp" msg).

(** The topics [CoinoneStreamer.run] subscribes to before it reads:
    [venue.split("-")[1]] then [venue.split("-")[0]] for each symbol. *)
Fixpoint coinone_topics (m : symbol_map) : py (list (string * string)) :=
  match m with
  | [] => Return []
  | (_, venue) :: r =>
      match PyStr.split "-" venue with
      | target :: quote :: _ =>
          rest ← coinone_topics r; Return ((quote, target) :: rest)
      | _ => Raise IndexError
      end
  end.

(** One connection of the Coinone streamer: the subscriptions, then the
    read loop. *)
Definition coinone_connection (m : symbol_map) (input : list inbound)
    (bs : books) : books * list Event * conn_end :=
  match coinone_topics m with
  | Raise e => (bs, [], HandlerRaised e (length input))
  | Return _ => read_loop (coinone_on_message m) input bs
  end.

(** The body of the read loop of [KorbitStreamer.run]. *)
Definition korbit_on_message (m : symbol_map) (clk : Clock) (f : frame)
  : stx books (option Event) :=
  msg ← lift (json_loads f);
  ch ← lift (PyVal.get msg "channel" (PStr EmptyString));
  is_book ← lift (PyOps.startswith ch "orderbook:");
  if negb is_book then mret None else
  let sym := match ch with
             | PStr c => PStr (PyOps.remove_all "orderbook:" c)
             | _ => ch
             end in
  on_book m sym (fun unified =>
    data ← lift (PyVal.get msg "data" (PDict []));
    replace_both indexed_level data;;
    stamp_and_publish "korbit" m clk unified sym data "timestamp" msg).

(** [for p, q in levels: lob.upsert_side(side, [(p, q)])]. *)
Fixpoint upsert_each (upsert : pyval -> stx LocalOrderBook unit)
    (us : list pyval) : stx LocalOrderBook unit :=
  match us with
  | [] => mret tt
  | u :: r =>
      '(p, q) ← lift (PyVal.unpack2 u);
      upsert (PList [PList [p; q]]);;
      upsert_each upsert r
  end.

(** The body of the read loop of [BybitStreamer._one]. *)
Definition bybit_on_message (m : symbol_map) (unified_sym venue_sym : string)
    (clk : Clock) (f : frame) : stx LocalOrderBook (option Event) :=
  msg ← lift (json_loads f);
  op ← lift (PyVal.get msg "op" PNone);
  if PyVal.eq_str op "ping" || PyVal.eq_str op "pong" then mret None else
  has_topic ← lift (PyVal.contains_str msg "topic");
  if negb has_topic then mret None else
  topic ← lift (PyVal.getitem msg "topic");
  is_book ← lift (PyOps.startswith topic "orderbook.");
  if negb is_book then mret None else
  data ← lift (PyVal.get msg "data" (PDict []));
  b ← lift (PyVal.get data "b" (PList []));
  bs ← lift (PyVal.iter b);
  upsert_each upsert_bids bs;;
  a ← lift (PyVal.get data "a" (PList []));
  asks ← lift (PyVal.iter a);
  upsert_each upsert_asks asks;;
  t ← lift (PyVal.get data "t" (PFloat (clk_default clk * 1000)%float));
  ts ← lift (PyVal.to_float t);
  u ← lift (PyVal.get data "u" (PFloat ts));
  seq ← lift (PyVal.to_int u);
  modify (set_last_update_id (PInt seq));;
  lob ← get_state;
  mret (Some (publish "bybit" m clk unified_sym (PStr venue_sym) (ts / 1000)%float
                (PInt seq) (snapshot (clk_snapshot clk) 20 lob) msg)).

(** The REST snapshot [BybitStreamer._one] loads before it connects:
    [snap = await resp.json()], used when [retCode == 0]. *)
Definition bybit_bootstrap (clk : Clock) (reply : frame) : stx LocalOrderBook unit :=
  snap ← lift (json_loads reply);
  rc ← lift (PyVal.get snap "retCode" PNone);
  if negb (PyOps.eq_zero rc) then mret tt else
  result ← lift (PyVal.get snap "result" (PDict []));
  b ← lift (PyVal.get result "b" (PList []));
  us ← lift (PyVal.iter b);
  new_bids ← lift (dict_comp pair_level us []);
  modify (set_bids new_bids);;
  a ← lift (PyVal.get result "a" (PList []));
  us' ← lift (PyVal.iter a);
  new_asks ← lift (dict_comp pair_level us' []);
  modify (set_asks new_asks);;
  now_ms ← lift (PyFloat.to_int (clk_default clk * 1000)%float);
  u ← lift (PyVal.get result "u" (PInt now_ms));
  seq ← lift (PyVal.to_int u);
  modify (set_last_update_id (PInt seq)).

(** One turn of [while True] in [BybitStreamer._one]: the REST snapshot,
    then the websocket read loop. *)
Definition bybit_connection (m : symbol_map) (unified_sym venue_sym : string)
    (clk : Clock) (reply : frame) (input : list inbound) (lob : LocalOrderBook)
  : LocalOrderBook * list Event * conn_end :=
  match bybit_bootstrap clk reply lob with
  | (lob', Raise e) => (lob', [], HandlerRaised e (length input))
  | (lob', Return _) =>
      read_loop (bybit_on_message m unified_sym venue_sym) input lob'
  end.

End Handlers.

End Venues.

(** ** The console consumer *)

Module Console.
Import Book Streamer.

(** What one [print] of [realtime_consumer] shows. *)
Record Line := {
  ln_exchange : string;
  ln_symbol : string;
  ln_dt : float;
  ln_bid : float;
  ln_ask : float
}.

(** [depth[side][0][0] if depth[side] else None]. *)
Definition first_price (levels : list (float * float)) : option float :=
  match levels with
  | [] => None
  | (p, _) :: _ => Some p
  end.

(** [ex in ["binance", "okx"]]. *)
Definition high_frequency (ex : string) : bool :=
  String.eqb ex "binance" || String.eqb ex "okx".

(** One turn of the loop of [realtime_consumer]: the new [last_seen] and
    the line printed, if any. *)
Definition realtime_step (last_seen : gmap (string * string) float) (ev : Event)
  : gmap (string * string) float * option Line :=
  let ex := ev_exchange ev in
  let sym := ev_symbol ev in
  if high_frequency ex then (last_seen, None) else
  let now := ev_recv_ts ev in
  let prev := default now (last_seen !! (ex, sym)) in
  let dt := (now - prev)%float in
  let last_seen' := <[(ex, sym) := now]> last_seen in
  let depth := ev_depth ev in
  match first_price (snap_bids depth), first_price (snap_asks depth) with
  | Some bid, Some ask =>
      if PyFloat.truthy bid && PyFloat.truthy ask
      then (last_seen',
            Some {| ln_exchange := PyStr.upper ex; ln_symbol := sym;
                    ln_dt := dt; ln_bid := bid; ln_ask := ask |})
      else (last_seen', None)
  | _, _ => (last_seen', None)
  end.

(** [realtime_consumer] over the events it takes from its queue; whether a
    line was printed is kept per event. *)
Fixpoint realtime_consumer (last_seen : gmap (string * string) float)
    (evs : list Event) : gmap (string * string) float * list (option Line) :=
  match evs with
  | [] => (last_seen, [])
  | ev :: r =>
      let '(ls, out) := realtime_step last_seen ev in
      let '(ls', outs) := realtime_consumer ls r in
      (ls', out :: outs)
  end.

End Console.

(** ** What a handler does to the books *)

Module Frames.
Import Book Streamer.

(** [wp c Q E s]: run from [s], the computation [c] returns [a] in a
    state [s'] with [Q s' a], or raises in a state [s'] with [E s']. *)
Definition wp {S A} (c : stx S A) (Q : S -> A -> Prop) (E : S -> Prop) (s : S)
  : Prop :=
  match c s with
  | (s', Return a) => Q s' a
  | (s', Raise _) => E s'
  end.

(** The event shows the book as the handler left it. *)
Definition mirrors (clk : Clock) (lob : LocalOrderBook) (ev : Event) : Prop :=
  ev_depth ev = snapshot (clk_snapshot clk) 20 lob
  /\ ev_seq ev = lob_last_update_id lob
  /\ ev_recv_ts ev = clk_publish clk.

(** The outcome of a handler of a multiplexed streamer on one frame: an
    event comes with the rewrite of the one book it names, a skipped frame
    changes nothing, and an exception leaves at most one book rewritten. *)
Definition published_from (clk : Clock) (bs bs' : gmap string LocalOrderBook)
    (o : option Event) : Prop :=
  match o with
  | Some ev =>
      exists lob0 lob,
        bs !! ev_symbol ev = Some lob0
        /\ bs' = <[ev_symbol ev := lob]> bs
        /\ lob_symbol lob = lob_symbol lob0
        /\ mirrors clk lob ev
  | None => bs' = bs
  end.

Definition failed_from (bs bs' : gmap string LocalOrderBook) : Prop :=
  bs' = bs
  \/ exists u lob0 lob,
       bs !! u = Some lob0 /\ bs' = <[u := lob]> bs
       /\ lob_symbol lob = lob_symbol lob0.

Definition one_book_frame (clk : Clock) (bs : gmap string LocalOrderBook)
    (c : stx (gmap string LocalOrderBook) (option Event)) : Prop :=
  wp c (published_from clk bs) (failed_from bs) bs.

(** Each book is filed under its own symbol. *)
Definition books_named (bs : gmap string LocalOrderBook) : Prop :=
  forall u lob, bs !! u = Some lob -> lob_symbol lob = u.





(** The books of a multiplexed streamer are those of the symbols [D]. *)
Definition books_of (D : gset string) (bs : gmap string LocalOrderBook) : Prop :=
  dom bs = D /\ books_named bs.

(** The event carries a symbol of [D] and a snapshot labelled with it. *)
Definition labelled (D : gset string) (ev : Event) : Prop :=
  ev_symbol ev ∈ D /\ snap_symbol (ev_depth ev) = ev_symbol ev.

(** The same frame handled on two sets of books: the outcome is the same,
    and so is the book left under the symbol of the event published. *)
Definition same_outcome (c : stx (gmap string LocalOrderBook) (option Event))
    (bs bs' : gmap string LocalOrderBook) : Prop :=
  (c bs).2 = (c bs').2
  /\ forall ev, (c bs).2 = Return (Some ev) ->
                (c bs).1 !! ev_symbol ev = (c bs').1 !! ev_symbol ev.

End Frames.

(** ** The configuration of [main] *)

Module Main.
Import Streamer.

Definition bybit_map : symbol_map :=
  [("BTC-USD", "BTCUSDT"); ("ETH-USD", "ETHUSDT"); ("SOL-USD", "SOLUSDT");
   ("XRP-USD", "XRPUSDT"); ("ADA-USD", "ADAUSDT"); ("DOGE-USD", "DOGEUSDT")]%string.

Definition bithumb_map : symbol_map :=
  [("BTC-KRW", "BTC_KRW"); ("ETH-KRW", "ETH_KRW"); ("SOL-KRW", "SOL_KRW");
   ("XRP-KRW", "XRP_KRW"); ("ADA-KRW", "ADA_KRW"); ("DOGE-KRW", "DOGE_KRW")]%string.

Definition coinone_map : symbol_map :=
  [("BTC-KRW", "btc-krw"); ("ETH-KRW", "eth-krw"); ("SOL-KRW", "sol-krw");
   ("XRP-KRW", "xrp-krw"); ("ADA-KRW", "ada-krw"); ("DOGE-KRW", "doge-krw")]%string.

Definition korbit_map : symbol_map :=
  [("BTC-KRW", "btc_krw"); ("ETH-KRW", "eth_krw"); ("SOL-KRW", "sol_krw");
   ("XRP-KRW", "xrp_krw"); ("ADA-KRW", "ada_krw"); ("DOGE-KRW", "doge_krw")]%string.

(** The streamers [main] creates: exchange name and symbol map. *)
Definition streamers : list (string * symbol_map) :=
  [("binance", binance_map); ("okx", okx_map); ("bybit", bybit_map);
   ("upbit", upbit_map); ("bithumb", bithumb_map); ("coinone", coinone_map);
   ("korbit", korbit_map)]%string.

End Main.

(** ** Clients for the worked examples *)

Module Samples.
Import Ingest.

(** A client that takes every row and whose [flush] fails when more than
    one row is buffered. *)
Definition small_sender : Sender (list Row) :=
  {| sender_row := fun s r => (s ++ [r], Return tt);
     sender_flush := fun s =>
       if (2 <=? length s)%nat then (s, Raise IngressError)
       else ([], Return tt) |}.

End Samples.

(** ** What the console consumer remembers *)

Module ConsoleLog.
Import Streamer Console.

(** The entry of [last_seen] an event is filed under. *)
Definition key_of (ev : Event) : string * string := (ev_exchange ev, ev_symbol ev).

(** The event reaches the bookkeeping of [realtime_consumer] and is
    filed under [k]. *)
Definition tracks (k : string * string) (ev : Event) : bool :=
  negb (high_frequency (ev_exchange ev)) && bool_decide (key_of ev = k).

(** The receive time of the last event of the list filed under [k]. *)
Fixpoint last_tracked (k : string * string) (evs : list Event) : option float :=
  match evs with
  | [] => None
  | ev :: r =>
      match last_tracked k r with
      | Some t => Some t
      | None => if tracks k ev then Some (ev_recv_ts ev) else None
      end
  end.

End ConsoleLog.

(** ** The order of binary64 values

    Every float that is not a NaN is placed in [Z * Z * Z] ordered
    lexicographically: sign class, exponent, mantissa. The comparisons of
    the IEEE specification are the comparisons of these triples. *)

Module FloatOrder.

Definition rank (x : spec_float) : Z * Z * Z :=
  match x with
  | S754_zero _ => (0, 0, 0)
  | S754_infinity s => (if s then -2 else 2, 0, 0)
  | S754_nan => (0, 0, 0)
  | S754_finite s m e => if s then (-1, - e, Z.neg m) else (1, e, Z.pos m)
  end%Z.

Definition lex3 (a b : Z * Z * Z) : comparison :=
  match (a.1.1 ?= b.1.1)%Z with
  | Eq => match (a.1.2 ?= b.1.2)%Z with
          | Eq => (a.2 ?= b.2)%Z
          | c => c
          end
  | c => c
  end.

Definition frank (x : float) : Z * Z * Z := rank (Prim2SF x).

Definition neg3 (a : Z * Z * Z) : Z * Z * Z := (- a.1.1, - a.1.2, - a.2)%Z.

End FloatOrder.

(** * Properties *)

(** ** Symbol normalisation *)

Section StringFacts.
Local Open Scope string_scope.

Lemma str_length_app (a b : string) :
  String.length (a +:+ b) = (String.length a + String.length b)%nat.
Proof. induction a as [|c a IH]; simpl; [done | by rewrite IH]. Qed.

Lemma str_drop_app (a b : string) : PyStr.drop (String.length a) (a +:+ b) = b.
Proof. induction a as [|c a IH]; simpl; [by destruct b | done]. Qed.

Lemma str_take_app (a b : string) : PyStr.take (String.length a) (a +:+ b) = a.
Proof. induction a as [|c a IH]; simpl; [by destruct b | by rewrite IH]. Qed.

Lemma endswith_app (a suffix : string) : PyStr.endswith (a +:+ suffix) suffix = true.
Proof.
  unfold PyStr.endswith. rewrite str_length_app.
  replace (String.length a + String.length suffix - String.length suffix)%nat
    with (String.length a) by lia.
  rewrite str_drop_app, String.eqb_refl, andb_true_r.
  apply Nat.leb_le. lia.
Qed.

Lemma drop_last_app (a suffix : string) :
  PyStr.drop_last (String.length suffix) (a +:+ suffix) = a.
Proof.
  unfold PyStr.drop_last. rewrite str_length_app.
  replace (String.length a + String.length suffix - String.length suffix)%nat
    with (String.length a) by lia.
  apply str_take_app.
Qed.

Lemma split_nonempty sep s : PyStr.split sep s <> [].
Proof.
  destruct s as [|c s]; simpl; [done |].
  destruct (Ascii.eqb c sep); [done |]. by destruct (PyStr.split sep s).
Qed.

Lemma split_app sep (a b : string) :
  PyStr.contains sep a = false ->
  PyStr.split sep (a +:+ String sep b) = a :: PyStr.split sep b.
Proof.
  induction a as [|c a IH]; simpl; intros Hc.
  - by rewrite Ascii.eqb_refl.
  - apply orb_false_elim in Hc as [Hc1 Hc2]. rewrite Hc1, (IH Hc2). done.
Qed.

Lemma contains_app sep (a b : string) :
  PyStr.contains sep (a +:+ String sep b) = true.
Proof.
  induction a as [|c a IH]; simpl.
  - by rewrite Ascii.eqb_refl.
  - rewrite IH. apply orb_true_r.
Qed.

(** Outside the OKX branch no path of [split_symbol] raises. *)
Lemma split_symbol_total_off_okx (exchange venue_sym : string) :
  exchange <> "okx" -> raises (split_symbol exchange venue_sym) = false.
Proof.
  intros Hex. unfold split_symbol.
  repeat match goal with
  | |- context [String.eqb exchange ?k] =>
      destruct (String.eqb_spec exchange k); [subst |]
  end; try done;
  repeat case_match; done.
Qed.

Lemma split_no_sep sep (s : string) :
  PyStr.contains sep s = false -> PyStr.split sep s = [s].
Proof.
  induction s as [|c s IH]; simpl; [done |].
  intros [Hc1 Hc2]%orb_false_elim. by rewrite Hc1, (IH Hc2).
Qed.

Lemma split_with_sep sep (s : string) :
  PyStr.contains sep s = true -> (2 <= length (PyStr.split sep s))%nat.
Proof.
  induction s as [|c s IH]; simpl; [done |].
  destruct (Ascii.eqb c sep); simpl.
  - intros _. pose proof (split_nonempty sep s).
    destruct (PyStr.split sep s); simpl; [done | lia].
  - intros Hc. specialize (IH Hc).
    destruct (PyStr.split sep s); simpl in *; lia.
Qed.

(** On OKX the only raising inputs are those with more than one dash. *)
Lemma split_symbol_okx_raises (venue_sym : string) :
  raises (split_symbol "okx" venue_sym) = true <->
  (2 < length (PyStr.split "-" (PyStr.upper venue_sym)))%nat.
Proof.
  unfold split_symbol; simpl.
  destruct (PyStr.contains "-" (PyStr.upper venue_sym)) eqn:Hc.
  - apply split_with_sep in Hc.
    destruct (PyStr.split "-" (PyStr.upper venue_sym)) as [|a [|b [|c l]]];
      simpl in *; try lia.
    split; [| lia]. by destruct (String.eqb b "USDT").
  - rewrite (split_no_sep _ _ Hc). simpl. split; [done | lia].
Qed.

End StringFacts.

(** C8. The normaliser is meant to be total, falling back to
    [(venue_sym, EmptyString, venue_sym)] on an unrecognised format, and the Korean
    branches guard the unpacking with [len(parts) == 2]. The OKX branch
    unpacks [s.split("-")] into two names unguarded: on the OKX instrument
    id [BTC-USDT-SWAP] the call raises [ValueError] instead of returning the
    fallback. *)
Theorem split_symbol_okx_three_parts_raises :
  split_symbol "okx" "BTC-USDT-SWAP" = Raise ValueError
  /\ split_symbol "upbit" "BTC-USDT-SWAP"
     = Return ("BTC-USDT-SWAP", EmptyString, "BTC-USDT-SWAP")%string.
Proof. split; reflexivity. Qed.

(** C9. The two worked examples of the specification, and the rewriting of
    the display quote: for a venue symbol whose upper-case form is a base
    followed by [USDT] (Binance, Bybit) or by [-USDT] (OKX, base without
    dash), the quote stays [USDT] and the canonical symbol ends in [-USD]. *)
Theorem split_symbol_usdt_display_quote :
  split_symbol "binance" "dogeusdt" = Return ("DOGE", "USDT", "DOGE-USD")%string
  /\ split_symbol "upbit" "KRW-BTC" = Return ("BTC", "KRW", "BTC-KRW")%string
  /\ (forall exchange venue_sym base : string,
        exchange = "binance"%string \/ exchange = "bybit"%string ->
        PyStr.upper venue_sym = (base +:+ "USDT")%string ->
        split_symbol exchange venue_sym
        = Return (base, "USDT", base +:+ "-USD")%string)
  /\ (forall venue_sym base : string,
        PyStr.contains "-" base = false ->
        PyStr.upper venue_sym = (base +:+ "-USDT")%string ->
        split_symbol "okx" venue_sym
        = Return (base, "USDT", base +:+ "-USD")%string).
Proof.
  split; [reflexivity |]. split; [reflexivity |]. split.
  - intros exchange venue_sym base Hex Hup.
    assert (Hend : PyStr.endswith (PyStr.upper venue_sym) "USDT" = true)
      by (rewrite Hup; apply endswith_app).
    assert (Hbase : PyStr.drop_last 4 (PyStr.upper venue_sym) = base)
      by (rewrite Hup; apply (drop_last_app base "USDT")).
    destruct Hex as [-> | ->]; unfold split_symbol; simpl;
      by rewrite Hend, Hbase.
  - intros venue_sym base Hdash Hup.
    unfold split_symbol; simpl. rewrite Hup.
    change (base +:+ "-USDT")%string with (base +:+ String "-" "USDT")%string.
    rewrite contains_app, split_app by done. reflexivity.
Qed.

Lemma split_symbol_usdt_display_quote_witness :
  split_symbol "bybit" "SOLUSDT" = Return ("SOL", "USDT", "SOL-USD")%string
  /\ split_symbol "okx" "eth-usdt" = Return ("ETH", "USDT", "ETH-USD")%string.
Proof.
  destruct split_symbol_usdt_display_quote as (_ & _ & Hglobal & Hokx).
  split.
  - apply (Hglobal "bybit" "SOLUSDT" "SOL")%string; [by right | reflexivity].
  - apply (Hokx "eth-usdt" "ETH")%string; reflexivity.
Defined.

(** ** Facts about float comparisons *)

Section FloatFacts.
Import FloatOrder.

Lemma SFcompare_rank x y :
  x <> S754_nan -> y <> S754_nan ->
  SFcompare x y = Some (lex3 (rank x) (rank y)).
Proof.
  intros Hx Hy.
  destruct x as [sx|sx| |sx mx ex], y as [sy|sy| |sy my ey]; try congruence;
    try (destruct sx); try (destruct sy); try reflexivity.
  unfold SFcompare, lex3, rank; simpl.
  rewrite Z.compare_opp, (Z.compare_antisym ex ey).
  by destruct (ex ?= ey)%Z.
Qed.

Lemma Prim2SF_not_nan x : is_nan x = false -> Prim2SF x <> S754_nan.
Proof.
  unfold is_nan. rewrite FloatAxioms.eqb_spec. intros Hx E.
  rewrite E in Hx. discriminate.
Qed.

Lemma ltb_rank x y :
  is_nan x = false -> is_nan y = false ->
  (x <? y)%float = match lex3 (frank x) (frank y) with Lt => true | _ => false end.
Proof.
  intros Hx%Prim2SF_not_nan Hy%Prim2SF_not_nan.
  rewrite FloatAxioms.ltb_spec. unfold SFltb, frank.
  by rewrite SFcompare_rank.
Qed.

Lemma eqb_rank x y :
  is_nan x = false -> is_nan y = false ->
  (x =? y)%float = match lex3 (frank x) (frank y) with Eq => true | _ => false end.
Proof.
  intros Hx%Prim2SF_not_nan Hy%Prim2SF_not_nan.
  rewrite FloatAxioms.eqb_spec. unfold SFeqb, frank.
  by rewrite SFcompare_rank.
Qed.

Lemma leb_rank x y :
  is_nan x = false -> is_nan y = false ->
  (x <=? y)%float = match lex3 (frank x) (frank y) with Gt => false | _ => true end.
Proof.
  intros Hx%Prim2SF_not_nan Hy%Prim2SF_not_nan.
  rewrite FloatAxioms.leb_spec. unfold SFleb, frank.
  rewrite SFcompare_rank by done. by destruct (lex3 _ _).
Qed.

(** A comparison that answers [true] had no NaN operand. *)
Lemma compare_some_not_nan x y c :
  SFcompare (Prim2SF x) (Prim2SF y) = Some c ->
  is_nan x = false /\ is_nan y = false.
Proof.
  unfold is_nan. rewrite !FloatAxioms.eqb_spec. unfold SFeqb.
  destruct (Prim2SF x) as [[]|[]| |[] mx ex], (Prim2SF y) as [[]|[]| |[] my ey];
    simpl; try discriminate; intros _;
    rewrite ?Z.compare_refl, ?Pos.compare_cont_refl; auto.
Qed.

Lemma eqb_true_not_nan x y :
  (x =? y)%float = true -> is_nan x = false /\ is_nan y = false.
Proof.
  rewrite FloatAxioms.eqb_spec. unfold SFeqb.
  destruct (SFcompare _ _) eqn:E; [| done]. intros _.
  by eapply compare_some_not_nan.
Qed.

Lemma ltb_true_not_nan x y :
  (x <? y)%float = true -> is_nan x = false /\ is_nan y = false.
Proof.
  rewrite FloatAxioms.ltb_spec. unfold SFltb.
  destruct (SFcompare _ _) eqn:E; [| done]. intros _.
  by eapply compare_some_not_nan.
Qed.

Lemma leb_true_not_nan x y :
  (x <=? y)%float = true -> is_nan x = false /\ is_nan y = false.
Proof.
  rewrite FloatAxioms.leb_spec. unfold SFleb.
  destruct (SFcompare _ _) eqn:E; [| done]. intros _.
  by eapply compare_some_not_nan.
Qed.

Ltac lex3_cases :=
  unfold lex3 in *; simpl in *;
  repeat match goal with
  | |- context [(?a ?= ?b)%Z] => destruct (Z.compare_spec a b)
  | H : context [(?a ?= ?b)%Z] |- _ => destruct (Z.compare_spec a b)
  end; try done; try lia.

Lemma lex3_antisym a b : lex3 b a = CompOpp (lex3 a b).
Proof.
  destruct a as [[a1 a2] a3], b as [[b1 b2] b3]; unfold lex3; simpl.
  rewrite (Z.compare_antisym a1 b1), (Z.compare_antisym a2 b2),
    (Z.compare_antisym a3 b3).
  by destruct (a1 ?= b1)%Z, (a2 ?= b2)%Z, (a3 ?= b3)%Z.
Qed.

Lemma lex3_eq_trans a b c : lex3 a c = Eq -> lex3 b c = Eq -> lex3 a b = Eq.
Proof.
  destruct a as [[a1 a2] a3], b as [[b1 b2] b3], c as [[c1 c2] c3].
  intros H1 H2. lex3_cases.
Qed.

Lemma lex3_not_lt_trans a b c :
  lex3 b a <> Lt -> lex3 c b <> Lt -> lex3 c a <> Lt.
Proof.
  destruct a as [[a1 a2] a3], b as [[b1 b2] b3], c as [[c1 c2] c3].
  intros H1 H2. lex3_cases.
Qed.

Lemma lex3_neg3 a b : lex3 (neg3 a) (neg3 b) = lex3 b a.
Proof.
  destruct a as [[a1 a2] a3], b as [[b1 b2] b3]; unfold lex3, neg3; simpl.
  by rewrite !Z.compare_opp.
Qed.

Lemma frank_opp x : frank (- x)%float = neg3 (frank x).
Proof.
  unfold frank. rewrite FloatAxioms.opp_spec.
  destruct (Prim2SF x) as [[]|[]| |[] m e]; unfold neg3; simpl;
    rewrite ?Z.opp_involutive; reflexivity.
Qed.

Lemma is_nan_opp x : is_nan (- x)%float = is_nan x.
Proof.
  unfold is_nan. rewrite !FloatAxioms.eqb_spec, FloatAxioms.opp_spec.
  unfold SFeqb.
  destruct (Prim2SF x) as [[]|[]| |[] m e]; simpl; try done.
  all: by rewrite ?Z.compare_refl, ?Pos.compare_cont_refl.
Qed.

(** [==] is Euclidean: two floats equal to a third are equal. *)
Lemma feqb_euclid a b c :
  (a =? c)%float = true -> (b =? c)%float = true -> (a =? b)%float = true.
Proof.
  intros Hac Hbc.
  destruct (eqb_true_not_nan _ _ Hac) as [Ha Hc].
  destruct (eqb_true_not_nan _ _ Hbc) as [Hb _].
  rewrite eqb_rank in * by done.
  destruct (lex3 (frank a) (frank c)) eqn:E1; try done.
  destruct (lex3 (frank b) (frank c)) eqn:E2; try done.
  by rewrite (lex3_eq_trans _ _ _ E1 E2).
Qed.

(** [a < b] excludes [b <= a]. *)
Lemma fltb_leb_false a b : (a <? b)%float = true -> (b <=? a)%float = false.
Proof.
  intros Hab. destruct (ltb_true_not_nan _ _ Hab) as [Ha Hb].
  rewrite ltb_rank in Hab by done. rewrite leb_rank by done.
  rewrite (lex3_antisym (frank a) (frank b)). by destruct (lex3 (frank a) (frank b)).
Qed.

Lemma fltb_asym a b : (a <? b)%float = true -> (b <? a)%float = false.
Proof.
  intros Hab. destruct (ltb_true_not_nan _ _ Hab) as [Ha Hb].
  rewrite ltb_rank in Hab by done. rewrite ltb_rank by done.
  rewrite (lex3_antisym (frank a) (frank b)). by destruct (lex3 (frank a) (frank b)).
Qed.

(** On floats that are not NaN, "not less than" is transitive. *)
Lemma fltb_false_trans a b c :
  is_nan a = false -> is_nan b = false -> is_nan c = false ->
  (b <? a)%float = false -> (c <? b)%float = false -> (c <? a)%float = false.
Proof.
  intros Ha Hb Hc. rewrite !ltb_rank by done. intros H1 H2.
  assert (lex3 (frank c) (frank a) <> Lt) as Hne.
  { apply (lex3_not_lt_trans _ (frank b)).
    - by destruct (lex3 (frank b) (frank a)).
    - by destruct (lex3 (frank c) (frank b)). }
  by destruct (lex3 (frank c) (frank a)).
Qed.

(** Two floats that are not NaN and not equal are ordered one way. *)
Lemma fltb_connected a b :
  is_nan a = false -> is_nan b = false ->
  (b <? a)%float = false -> (a =? b)%float = false -> (a <? b)%float = true.
Proof.
  intros Ha Hb. rewrite !ltb_rank, eqb_rank by done.
  rewrite (lex3_antisym (frank a) (frank b)). by destruct (lex3 (frank a) (frank b)).
Qed.

Lemma fltb_opp a b :
  is_nan a = false -> is_nan b = false ->
  (- a <? - b)%float = (b <? a)%float.
Proof.
  intros Ha Hb. rewrite !ltb_rank by (by rewrite ?is_nan_opp).
  by rewrite !frank_opp, lex3_neg3.
Qed.

Lemma lex3_lt_trans a b c : lex3 a b = Lt -> lex3 b c = Lt -> lex3 a c = Lt.
Proof.
  destruct a as [[a1 a2] a3], b as [[b1 b2] b3], c as [[c1 c2] c3].
  intros H1 H2. lex3_cases.
Qed.

Lemma fltb_trans a b c :
  (a <? b)%float = true -> (b <? c)%float = true -> (a <? c)%float = true.
Proof.
  intros Hab Hbc.
  destruct (ltb_true_not_nan _ _ Hab) as [Ha Hb].
  destruct (ltb_true_not_nan _ _ Hbc) as [_ Hc].
  rewrite ltb_rank in * by done.
  destruct (lex3 (frank a) (frank b)) eqn:E1; try done.
  destruct (lex3 (frank b) (frank c)) eqn:E2; try done.
  by rewrite (lex3_lt_trans _ _ _ E1 E2).
Qed.

Lemma feqb_opp a b : (- a =? - b)%float = (a =? b)%float.
Proof.
  destruct (- a =? - b)%float eqn:E1.
  - destruct (eqb_true_not_nan _ _ E1) as [Ha Hb]. rewrite is_nan_opp in Ha, Hb.
    rewrite eqb_rank in E1 by (by rewrite is_nan_opp).
    rewrite eqb_rank by done.
    rewrite !frank_opp, lex3_neg3, (lex3_antisym (frank a) (frank b)) in E1.
    by destruct (lex3 (frank a) (frank b)).
  - destruct (a =? b)%float eqn:E2; [| done].
    destruct (eqb_true_not_nan _ _ E2) as [Ha Hb].
    rewrite eqb_rank in E1 by (by rewrite is_nan_opp).
    rewrite eqb_rank in E2 by done.
    rewrite !frank_opp, lex3_neg3, (lex3_antisym (frank a) (frank b)) in E1.
    by destruct (lex3 (frank a) (frank b)).
Qed.

End FloatFacts.

(** ** The local order book *)

Section BookFacts.
Import Book.
Context {SP : StrParse}.

Lemma Forall_sublist {A} (P : A -> Prop) (l k : list A) :
  sublist l k -> Forall P k -> Forall P l.
Proof.
  intros Hs. rewrite !Forall_forall. intros Hk x Hx.
  eapply Hk, elem_of_sublist; eauto.
Qed.

Lemma side_pop_sublist p (d : side) : sublist (side_pop p d) d.
Proof.
  induction d as [|[k v] r IH]; simpl; [done |].
  destruct (k =? p)%float; [by apply sublist_cons | by apply sublist_skip].
Qed.

Lemma side_set_Forall_key (Q : float -> Prop) p q (d : side) :
  Forall (fun kv => Q kv.1) d -> Q p ->
  Forall (fun kv => Q kv.1) (side_set p q d).
Proof.
  induction 1 as [|[k v] r Hk Hr IH]; simpl; intros Hp.
  - by repeat constructor.
  - destruct (k =? p)%float; constructor; auto.
Qed.

Lemma side_pop_no_zero p (d : side) : no_zero_qty d -> no_zero_qty (side_pop p d).
Proof. apply Forall_sublist, side_pop_sublist. Qed.

Lemma side_set_no_zero p q (d : side) :
  (q =? 0)%float = false -> no_zero_qty d -> no_zero_qty (side_set p q d).
Proof.
  intros Hq. induction 1 as [|[k v] r Hk Hr IH]; simpl.
  - by repeat constructor.
  - destruct (k =? p)%float; constructor; auto.
Qed.

Lemma StronglySorted_sublist {A} (R : A -> A -> Prop) (l k : list A) :
  sublist l k -> StronglySorted R k -> StronglySorted R l.
Proof.
  induction 1 as [|x l k Hs IH|x l k Hs IH]; intros Hk; [done | |].
  - apply StronglySorted_inv in Hk as [Hk Hx]. constructor; [auto |].
    eapply Forall_sublist; eauto.
  - apply StronglySorted_inv in Hk as [Hk _]. auto.
Qed.

Lemma side_pop_distinct p (d : side) : distinct_keys d -> distinct_keys (side_pop p d).
Proof. apply StronglySorted_sublist, side_pop_sublist. Qed.

Lemma side_mem_false p (d : side) :
  side_mem p d = false <-> Forall (fun kv => (kv.1 =? p)%float = false) d.
Proof.
  induction d as [|[k v] r IH]; simpl; [by split; [constructor |] |].
  rewrite orb_false_iff, IH. split.
  - intros [? ?]. by constructor.
  - by inversion 1.
Qed.

Lemma side_set_distinct p q (d : side) :
  distinct_keys d -> distinct_keys (side_set p q d).
Proof.
  induction 1 as [|[k v] r Hr IH Hk]; simpl.
  - repeat constructor.
  - destruct (k =? p)%float eqn:E.
    + by constructor.
    + constructor; [done |].
      by apply (side_set_Forall_key (fun k' => (k =? k')%float = false)).
Qed.

(** After [d.pop(p, None)] no key of the dict equals [p]. *)
Lemma side_mem_pop p (d : side) :
  distinct_keys d -> side_mem p (side_pop p d) = false.
Proof.
  induction 1 as [|[k v] r Hr IH Hk]; simpl; [done |].
  destruct (k =? p)%float eqn:E; simpl.
  - apply side_mem_false. eapply Forall_impl; [exact Hk |].
    intros [k2 v2] Hk2; simpl in *.
    destruct (k2 =? p)%float eqn:E2; [| done].
    by rewrite (feqb_euclid _ _ _ E E2) in Hk2.
  - by rewrite E, IH.
Qed.

(** What one level of an update does to the map, when it does not raise. *)
Lemma upsert_level_spec (d d' : side) (u : pyval) :
  upsert_level d u = Return d' ->
  exists p q, d' = (if (q =? 0)%float then side_pop p d else side_set p q d).
Proof.
  unfold upsert_level. destruct (PyVal.unpack2 u) as [[price qty]|]; [| done].
  simpl. destruct (PyVal.to_float price) as [p|]; [| done].
  simpl. destruct (PyVal.to_float qty) as [q|]; [| done].
  simpl. intros [= <-]. eauto.
Qed.

Lemma upsert_level_no_zero (d d' : side) u :
  upsert_level d u = Return d' -> no_zero_qty d -> no_zero_qty d'.
Proof.
  intros (p & q & ->)%upsert_level_spec Hd.
  destruct (q =? 0)%float eqn:E;
    [by apply side_pop_no_zero | by apply side_set_no_zero].
Qed.


(** The invariant holds in the map [upsert_side] leaves behind, whether the
    loop ran to its end or stopped at a level that raised. *)
Lemma upsert_side_no_zero (d : side) (updates : pyval) :
  no_zero_qty d -> no_zero_qty (upsert_side d updates).1.
Proof.
  unfold upsert_side. destruct (PyVal.iter updates) as [us|]; [| done].
  revert d. induction us as [|u us IH]; simpl; intros d Hd; [done |].
  destruct (upsert_level d u) as [d'|] eqn:E; [| done].
  apply IH. by eapply upsert_level_no_zero.
Qed.


Lemma dict_comp_no_zero f (us : list pyval) (acc d : side) :
  Forall (fun u => forall p q, f u = Return (Some (p, q)) -> (q =? 0)%float = false) us ->
  no_zero_qty acc -> dict_comp f us acc = Return d -> no_zero_qty d.
Proof.
  intros Hus. revert acc. induction Hus as [|u us Hu Hus IH]; simpl; intros acc Hacc.
  - by intros [= <-].
  - destruct (f u) as [[[p q]|]|] eqn:E; simpl; [| by apply IH | done].
    apply IH. apply side_set_no_zero; eauto.
Qed.


Lemma replace_side_no_zero (levels : pyval) (d : side) :
  clean_levels levels -> replace_side levels = Return d -> no_zero_qty d.
Proof.
  unfold replace_side, clean_levels. intros Hc.
  destruct (PyVal.iter levels) as [us|]; simpl; [| done].
  apply dict_comp_no_zero; [by apply Hc | constructor].
Qed.

Lemma apply_update_no_zero (lob : LocalOrderBook) (op : update) :
  keeps_invariant op -> book_no_zero lob -> book_no_zero (apply_update lob op).
Proof.
  intros Hop [Hb Ha]. destruct op as [w updates|w levels]; simpl.
  - destruct w; split; simpl; auto using upsert_side_no_zero.
  - destruct (replace_side levels) as [d|] eqn:E; [| done].
    pose proof (replace_side_no_zero _ _ Hop E).
    by destruct w; split.
Qed.

Lemma apply_updates_no_zero (lob : LocalOrderBook) (ops : list update) :
  Forall keeps_invariant ops -> book_no_zero lob ->
  book_no_zero (apply_updates lob ops).
Proof.
  unfold apply_updates. intros Hops. revert lob.
  induction Hops as [|op ops Hop Hops IH]; simpl; intros lob Hlob; [done |].
  by apply IH, apply_update_no_zero.
Qed.

(** C2 (amended). A book that holds no zero quantity (a new book holds
    none) still holds none after any sequence of [upsert_side] updates,
    also when an update raises part-way, and after full replacements whose
    levels all have a non-zero size; an update [(p, 0)] passed to
    [upsert_side] removes the key [p]. A full replacement does not filter:
    it stores each size as the message gives it. *)
Theorem upsert_side_never_stores_zero :
  (forall (lob : LocalOrderBook) (ops : list update),
      Forall keeps_invariant ops -> book_no_zero lob ->
      book_no_zero (apply_updates lob ops))
  /\ (forall (d : side) (price qty : pyval) (p q : float),
        distinct_keys d ->
        PyVal.to_float price = Return p -> PyVal.to_float qty = Return q ->
        (q =? 0)%float = true ->
        upsert_side d (PList [PList [price; qty]]) = (side_pop p d, Return tt)
        /\ side_mem p (side_pop p d) = false).
Proof.
  split; [apply apply_updates_no_zero |].
  intros d price qty p q Hd Hp Hq Hz. split; [| by apply side_mem_pop].
  unfold upsert_side; simpl. unfold upsert_level; simpl.
  by rewrite Hp; simpl; rewrite Hq; simpl; rewrite Hz.
Qed.

End BookFacts.

Section BookExamples.
Import Book.

Lemma upsert_side_never_stores_zero_witness :
  let ops := [Upsert Bids (PList [PList [PStr "100"; PStr "1"]]);
              Upsert Bids (PList [PList [PStr "100"; PStr "0"]]);
              Replace Asks (PList [PList [PStr "101"; PStr "2"; PStr "0"; PStr "1"]])] in
  book_no_zero (apply_updates (SP := decimal_parse) (new_book "BTC-USD") ops)
  /\ upsert_side (SP := decimal_parse) [(100, 1)%float]
       (PList [PList [PStr "100"; PStr "0"]]) = (side_pop 100 [(100, 1)%float], Return tt)
  /\ side_mem 100 (side_pop 100 [(100, 1)%float]) = false.
Proof.
  destruct (upsert_side_never_stores_zero (SP := decimal_parse)) as [Hseq Hzero].
  split.
  - apply Hseq.
    + repeat constructor. intros us [= <-]. repeat constructor.
      intros p q [= <- <-]. reflexivity.
    + split; constructor.
  - apply (Hzero [(100, 1)%float] (PStr "100") (PStr "0") 100%float 0%float);
      [repeat constructor | reflexivity | reflexivity | reflexivity].
Defined.

(** The claim as stated fails on the full-replacement path: the OKX
    comprehension [{float(p): float(sz) for p, sz, *_ in levels}] keeps a
    level of size [0]. *)
Lemma full_replacement_stores_zero_qty :
  let lob := apply_updates (SP := decimal_parse) (new_book "BTC-USD")
               [Replace Bids (PList [PList [PStr "100"; PStr "0"; PStr "0"; PStr "1"]])] in
  lob_bids lob = [(100, 0)%float] /\ ~ book_no_zero lob.
Proof.
  split; [reflexivity |].
  intros [Hb _]. apply Forall_cons in Hb as [Hb _]. discriminate Hb.
Qed.

End BookExamples.

(** ** Snapshots *)

Section SnapshotFacts.
Import Book.


Section Sorting.
Context {A : Type} (key : A -> float).

Let before (a b : A) : Prop := (key a <? key b)%float = true.

Lemma insert_by_perm x (l : list A) : insert_by key x l ≡ₚ x :: l.
Proof.
  induction l as [|y r IH]; simpl; [done |].
  destruct (key y <? key x)%float; [| done].
  by rewrite IH, Permutation_swap.
Qed.

Lemma sorted_by_perm (l : list A) : sorted_by key l ≡ₚ l.
Proof.
  induction l as [|x r IH]; simpl; [done |].
  by rewrite insert_by_perm, IH.
Qed.

Lemma sorted_by_length (l : list A) : length (sorted_by key l) = length l.
Proof. by rewrite sorted_by_perm. Qed.

Lemma insert_by_sorted x (l : list A) :
  is_nan (key x) = false ->
  Forall (fun y => is_nan (key y) = false) l ->
  Forall (fun y => (key x =? key y)%float = false) l ->
  StronglySorted before l ->
  StronglySorted before (insert_by key x l).
Proof.
  intros Hx Hnan Hne Hs.
  induction Hs as [|y r Hr IH Hy]; simpl; [by repeat constructor |].
  apply Forall_cons in Hnan as [Hy_nan Hr_nan].
  apply Forall_cons in Hne as [Hxy Hxr].
  destruct (key y <? key x)%float eqn:E.
  - constructor; [by apply IH |].
    rewrite insert_by_perm. by constructor.
  - assert (before x y) as Hbxy by (by apply fltb_connected).
    constructor; [by constructor |].
    constructor; [done |].
    eapply Forall_impl; [exact Hy |].
    intros z Hyz. by apply (fltb_trans _ (key y)).
Qed.

Lemma sorted_by_sorted (l : list A) :
  Forall (fun y => is_nan (key y) = false) l ->
  StronglySorted (fun a b => (key a =? key b)%float = false) l ->
  StronglySorted before (sorted_by key l).
Proof.
  intros Hnan Hd.
  induction Hd as [|x r Hr IH Hx]; simpl; [constructor |].
  apply Forall_cons in Hnan as [Hx_nan Hr_nan].
  apply insert_by_sorted; [done | | | by apply IH].
  - by rewrite sorted_by_perm.
  - by rewrite sorted_by_perm.
Qed.

(** Whatever stable sort is used, there is one strictly sorted arrangement
    of the items: the one [sorted_by] returns. *)
Lemma sorted_by_unique (l l' : list A) :
  Forall (fun y => is_nan (key y) = false) l ->
  StronglySorted (fun a b => (key a =? key b)%float = false) l ->
  l' ≡ₚ l -> StronglySorted before l' -> l' = sorted_by key l.
Proof.
  intros Hnan Hd Hperm Hs.
  apply (StronglySorted_unique_strong before); [| done | by apply sorted_by_sorted |].
  - intros a b _ _ Hab Hba. unfold before in *.
    by rewrite (fltb_asym _ _ Hab) in Hba.
  - by rewrite sorted_by_perm.
Qed.

End Sorting.

Lemma StronglySorted_mono {A} (R R' : A -> A -> Prop) (l : list A) :
  (forall a b, R a b -> R' a b) -> StronglySorted R l -> StronglySorted R' l.
Proof.
  intros HR. induction 1 as [|x r Hr IH Hx]; constructor; [done |].
  eapply Forall_impl; eauto.
Qed.

Lemma sorted_bids_descending (d : side) :
  distinct_keys d -> no_nan_keys d ->
  strictly_descending (sorted_by (fun x => (- x.1)%float) d).
Proof.
  intros Hd Hnan. unfold strictly_descending.
  eapply StronglySorted_mono; [| apply sorted_by_sorted].
  - intros a b Hab; simpl in Hab.
    destruct (ltb_true_not_nan _ _ Hab) as [Ha Hb].
    rewrite is_nan_opp in Ha, Hb. by rewrite fltb_opp in Hab.
  - eapply Forall_impl; [exact Hnan |]. intros kv Hkv; simpl.
    by rewrite is_nan_opp.
  - eapply StronglySorted_mono; [| exact Hd].
    intros a b Hab; simpl in *. by rewrite feqb_opp.
Qed.

Lemma sorted_asks_ascending (d : side) :
  distinct_keys d -> no_nan_keys d ->
  strictly_ascending (sorted_by (fun x => x.1) d).
Proof. intros Hd Hnan. by apply (sorted_by_sorted (fun x => x.1)). Qed.

Lemma slice_to_sublist {A} (n : Z) (l : list A) : sublist (slice_to n l) l.
Proof. unfold slice_to. destruct (0 <=? n)%Z; apply sublist_take. Qed.

(** The length of [l[:n]], for a count and for a negative index. *)
Lemma slice_to_length {A} (n : Z) (l : list A) :
  Z.of_nat (length (slice_to n l))
  = (if (0 <=? n)%Z then Z.min n (Z.of_nat (length l))
     else Z.max 0 (Z.of_nat (length l) + n))%Z.
Proof.
  unfold slice_to. destruct (0 <=? n)%Z eqn:E; rewrite length_take.
  - apply Z.leb_le in E. lia.
  - apply Z.leb_gt in E. lia.
Qed.




Example snapshot_example :
  let lob := {| lob_symbol := "BTC-USD";
                lob_bids := [(100, 1); (101, 2); (99, 3)]%float;
                lob_asks := [(103, 1); (102, 5)]%float;
                lob_last_update_id := PInt 7 |} in
  snap_bids (snapshot 0 2 lob) = [(101, 2); (100, 1)]%float
  /\ snap_asks (snapshot 0 2 lob) = [(102, 5); (103, 1)]%float
  /\ snap_bids (snapshot 0 (-1) lob) = [(101, 2); (100, 1)]%float.
Proof. repeat split; reflexivity. Qed.

End SnapshotFacts.


(** ** The ingestor *)

Section DerivedFacts.
Import Book Streamer Ingest.

(** With a side missing, both metrics stay [None]. *)
Lemma derived_one_sided (best_bid best_ask : option float) :
  best_bid = None \/ best_ask = None ->
  derived best_bid best_ask = Return (None, None).
Proof.
  intros [-> | ->]; unfold derived; simpl; [done |].
  by rewrite andb_false_r.
Qed.

(** With both best prices non-zero and a non-zero mid, the metrics are the
    two formulas. *)
Lemma derived_two_sided (bb ba : float) :
  (bb =? 0)%float = false -> (ba =? 0)%float = false ->
  ((bb + ba) / 2 =? 0)%float = false ->
  derived (Some bb) (Some ba)
  = Return (Some ((bb + ba) / 2)%float,
            Some ((ba - bb) / ((bb + ba) / 2) * 10000)%float).
Proof.
  intros Hb Ha Hm. unfold derived, truthy_opt, PyFloat.truthy, PyFloat.div.
  by rewrite Hb, Ha, Hm.
Qed.

(** The test [if best_bid and best_ask] is a truth test: a best price of
    [0.0] is taken for a missing side. *)
Lemma derived_zero_price (bb ba : float) :
  (bb =? 0)%float = true \/ (ba =? 0)%float = true ->
  derived (Some bb) (Some ba) = Return (None, None).
Proof.
  intros [Hz | Hz]; unfold derived, truthy_opt, PyFloat.truthy; rewrite Hz; simpl;
    [done | by rewrite andb_false_r].
Qed.

(** A mid price of zero makes the spread division raise. *)
Lemma derived_zero_mid (bb ba : float) :
  (bb =? 0)%float = false -> (ba =? 0)%float = false ->
  ((bb + ba) / 2 =? 0)%float = true ->
  derived (Some bb) (Some ba) = Raise ZeroDivisionError.
Proof.
  intros Hb Ha Hm. unfold derived, truthy_opt, PyFloat.truthy, PyFloat.div.
  by rewrite Hb, Ha, Hm.
Qed.

Context {SP : StrParse}.

(** The price columns of a row that was built. *)
Lemma build_row_prices (ev : Event) (r : Row) :
  build_row ev = Return r ->
  row_best_bid r = best_price (snap_bids (ev_depth ev))
  /\ row_best_ask r = best_price (snap_asks (ev_depth ev))
  /\ derived (row_best_bid r) (row_best_ask r)
     = Return (row_mid_price r, row_spread_bps r).
Proof.
  unfold build_row. intros Hr.
  destruct (match ev_venue_symbol ev with
            | PStr v => split_symbol (ev_exchange ev) v
            | _ => Raise AttributeError
            end) as [[[base quote] normalized]|]; [| done].
  simpl in Hr.
  destruct (derived _ _) as [[mid spread]|] eqn:Hd; [| done]. simpl in Hr.
  destruct (PyVal.to_int (ev_seq ev)) as [seq|]; [| done]. simpl in Hr.
  destruct (PyFloat.to_int _) as [at_ns|]; [| done]. simpl in Hr.
  injection Hr as <-. simpl. by rewrite Hd.
Qed.

(** The two depth snapshots the specification works out. *)
Example derived_spec_examples :
  derived (best_price [(100, 1)%float]) (best_price []) = Return (None, None)
  /\ derived (best_price [(100, 1)%float]) (best_price [(101, 1)%float])
     = Return (Some 100.5%float, Some (1 / 100.5 * 10000)%float).
Proof. split; reflexivity. Qed.

End DerivedFacts.

(** C1. With both sides present the ingestor is meant to store
    [(bestBid+bestAsk)/2] and the spread, and [None] only for a missing
    side. The guard [if best_bid and best_ask] tests truth, not [None]: for
    the depth [bids=[(0.0, 1.0)]], [asks=[(1.0, 1.0)]] the row is written
    with both best prices set and both metrics [None], where the claim
    gives [mid_price = 0.5] and [spread_bps = 20000]. *)
Theorem mid_price_null_for_zero_best_bid (SP : StrParse) :
  let depth := {| Book.snap_symbol := "BTC-USD"; Book.snap_ts := 1;
                  Book.snap_bids := [(0, 1)%float];
                  Book.snap_asks := [(1, 1)%float];
                  Book.snap_last_update_id := PInt 1 |} in
  let ev := {| Streamer.ev_exchange := "binance"; Streamer.ev_symbol := "BTC-USD";
               Streamer.ev_venue_symbol := PStr "btcusdt";
               Streamer.ev_event_ts := 1; Streamer.ev_recv_ts := 1;
               Streamer.ev_seq := PInt 1; Streamer.ev_depth := depth;
               Streamer.ev_raw := PDict [] |} in
  exists r, Ingest.build_row ev = Return r
    /\ Ingest.row_best_bid r = Some 0%float
    /\ Ingest.row_best_ask r = Some 1%float
    /\ Ingest.row_mid_price r = None
    /\ Ingest.row_spread_bps r = None
    /\ ((0 + 1) / 2 = 0.5 /\ (1 - 0) / 0.5 * 10000 = 20000)%float.
Proof. simpl. eexists. repeat split; reflexivity. Qed.

Section ConsumerFacts.
Import Book Streamer Ingest.
Context {SP : StrParse} {S : Type} {SND : Sender S}.

(** The loop over a batch is the loop over its first part followed by the
    loop over the rest, from the sender the first part left. *)
Lemma ingest_events_app (s : S) (a b : list Event) :
  ingest_events s (a ++ b)
  = let '(s1, o1) := ingest_events s a in
    let '(s2, o2) := ingest_events s1 b in
    (s2, o1 ++ o2).
Proof.
  revert s. induction a as [|ev a IH]; intros s; simpl.
  - by destruct (ingest_events s b).
  - destruct (build_row ev) as [r|e].
    + destruct (sender_row s r) as [s1 [[]|e]]; rewrite IH;
        destruct (ingest_events s1 a) as [s2 o1];
        by destruct (ingest_events s2 b).
    + rewrite IH. destruct (ingest_events s a) as [s2 o1].
      by destruct (ingest_events s2 b).
Qed.

(** Every event whose row builds has its [sender.row] call, in batch
    order, whatever happened to the events before it. *)
Lemma ingest_events_row_calls (s : S) (batch : list Event) :
  row_calls (ingest_events s batch).2 = buildable batch.
Proof.
  revert s. induction batch as [|ev batch IH]; intros s; simpl; [done |].
  unfold buildable; simpl. destruct (build_row ev) as [r|e].
  - destruct (sender_row s r) as [s1 [[]|e]];
      specialize (IH s1); destruct (ingest_events s1 batch); simpl in *;
      by rewrite IH.
  - specialize (IH s). destruct (ingest_events s batch); simpl in *. done.
Qed.

Lemma ingest_events_no_flush (s : S) (batch : list Event) :
  flush_calls (ingest_events s batch).2 = 0.
Proof.
  revert s. induction batch as [|ev batch IH]; intros s; simpl; [done |].
  destruct (build_row ev) as [r|e].
  - destruct (sender_row s r) as [s1 [[]|e]];
      specialize (IH s1); by destruct (ingest_events s1 batch).
  - specialize (IH s). by destruct (ingest_events s batch).
Qed.

Lemma row_calls_app (a b : list io) : row_calls (a ++ b) = row_calls a ++ row_calls b.
Proof. apply omap_app. Qed.

Lemma flush_calls_app (a b : list io) :
  flush_calls (a ++ b) = flush_calls a + flush_calls b.
Proof. unfold flush_calls. by rewrite omap_app, length_app. Qed.

(** C10. An event whose row cannot be built, or whose [sender.row] call
    raises, leaves one error line and nothing else: the events after it
    are handled from the sender as it then stands. Every row that builds
    is submitted, [sender.flush] is called once, after all of them, and an
    exception leaves [ingest_batch] only from that flush; when flushes
    succeed the consumer goes through all its batches. *)
Theorem ingest_batch_survives_row_failures (s : S) :
  (forall (pre post : list Event) (ev : Event) (e : exn),
      build_row ev = Raise e ->
      ingest_events s (pre ++ ev :: post)
      = let '(s1, o1) := ingest_events s pre in
        let '(s2, o2) := ingest_events s1 post in
        (s2, o1 ++ PrintError e :: o2))
  /\ (forall (pre post : list Event) (ev : Event) (r : Row) (e : exn),
        build_row ev = Return r ->
        (sender_row (ingest_events s pre).1 r).2 = Raise e ->
        ingest_events s (pre ++ ev :: post)
        = let '(s1, o1) := ingest_events s pre in
          let '(s2, o2) := ingest_events (sender_row s1 r).1 post in
          (s2, o1 ++ RowCall r :: PrintError e :: o2))
  /\ (forall batch : list Event,
        let '(_, out, res) := ingest_batch s batch in
        row_calls out = buildable batch
        /\ flush_calls out = 1
        /\ (exists tail, out = (ingest_events s batch).2 ++ FlushCall :: tail
                         /\ row_calls tail = [])
        /\ res = (sender_flush (ingest_events s batch).1).2)
  /\ (forall batches : list (list Event),
        (forall s' : S, (sender_flush s').2 = Return tt) ->
        let '(_, out, res) := questdb_consumer s batches in
        res = Return tt /\ row_calls out = buildable (concat batches)).
Proof.
  repeat split.
  - intros pre post ev e Hev. rewrite ingest_events_app; simpl.
    destruct (ingest_events s pre) as [s1 o1]. rewrite Hev.
    by destruct (ingest_events s1 post).
  - intros pre post ev r e Hev Hrow. rewrite ingest_events_app; simpl.
    destruct (ingest_events s pre) as [s1 o1]; simpl in *. rewrite Hev.
    destruct (sender_row s1 r) as [s1' res]; simpl in *. subst res.
    by destruct (ingest_events s1' post).
  - intros batch. unfold ingest_batch.
    pose proof (ingest_events_row_calls s batch) as Hrows.
    pose proof (ingest_events_no_flush s batch) as Hflush.
    destruct (ingest_events s batch) as [s1 out]; simpl in *.
    destruct (sender_flush s1) as [s2 [[]|e]]; simpl;
      rewrite row_calls_app, flush_calls_app, Hrows, Hflush; simpl.
    all: rewrite app_nil_r.
    all: split; [done |]; split; [done |]; split; [| done].
    all: by eexists.
  - intros batches Hflush. revert s.
    induction batches as [|b batches IH]; intros s; simpl; [done |].
    unfold ingest_batch.
    pose proof (ingest_events_row_calls s b) as Hrows.
    destruct (ingest_events s b) as [s1 out]; simpl in *.
    specialize (Hflush s1) as Hf.
    destruct (sender_flush s1) as [s2 res]; simpl in *. subst res.
    specialize (IH s2). destruct (questdb_consumer s2 batches) as [[s3 out'] res].
    destruct IH as [-> IH]. split; [done |].
    rewrite !row_calls_app, Hrows, IH; simpl.
    unfold buildable. by rewrite app_nil_r, omap_app.
Qed.

End ConsumerFacts.

Section ConsumerExamples.
Import Book Streamer Ingest.

(** A batch of four: a row that is written, an OKX symbol on which
    [split_symbol] raises, a row the client rejects, a row that is written. *)
Example ingest_batch_example :
  let batch := [sample_event "binance" "btcusdt" 1;
                sample_event "okx" "BTC-USDT-SWAP" 2;
                sample_event "upbit" "KRW-BTC" (-3);
                sample_event "bybit" "BTCUSDT" 4] in
  let '(s, out, res) :=
    ingest_batch (SP := decimal_parse) (SND := buffer_sender) ([], []) batch in
  map row_at (row_calls out) = [1000000000; -3000000000; 4000000000]%Z
  /\ omap (fun a => match a with PrintError e => Some e | _ => None end) out
     = [ValueError; IngressError]
  /\ map (map row_at) s.2 = [[1000000000; 4000000000]%Z]
  /\ res = Return tt.
Proof. vm_compute. repeat split; reflexivity. Qed.

Lemma ingest_batch_survives_row_failures_witness :
  let s0 : list Row * list (list Row) := ([], []) in
  let good := sample_event "binance" "btcusdt" 1 in
  let bad_symbol := sample_event "okx" "BTC-USDT-SWAP" 2 in
  let late := sample_event "bybit" "BTCUSDT" 4 in
  ingest_events (SP := decimal_parse) (SND := buffer_sender) s0
    ([good] ++ bad_symbol :: [late])
  = (let '(s1, o1) := ingest_events (SP := decimal_parse) (SND := buffer_sender) s0 [good] in
     let '(s2, o2) := ingest_events (SP := decimal_parse) (SND := buffer_sender) s1 [late] in
     (s2, o1 ++ PrintError ValueError :: o2))
  /\ (let '(_, out, res) :=
        questdb_consumer (SP := decimal_parse) (SND := buffer_sender) s0
          [[good; bad_symbol]; [late]] in
      res = Return tt
      /\ row_calls out
         = buildable (SP := decimal_parse) (concat [[good; bad_symbol]; [late]])).
Proof.
  destruct (ingest_batch_survives_row_failures
              (SP := decimal_parse) (SND := buffer_sender) ([], []))
    as (Hbuild & _ & _ & Hall).
  split.
  - apply (Hbuild [sample_event "binance" "btcusdt" 1]
                  [sample_event "bybit" "BTCUSDT" 4]
                  (sample_event "okx" "BTC-USDT-SWAP" 2) ValueError).
    reflexivity.
  - apply (Hall [[sample_event "binance" "btcusdt" 1;
                  sample_event "okx" "BTC-USDT-SWAP" 2];
                 [sample_event "bybit" "BTCUSDT" 4]]).
    intros s'. reflexivity.
Defined.

End ConsumerExamples.

(** ** The batcher *)

Section BatcherFacts.
Import Book Streamer Pipeline.
Implicit Types (st : BatcherState) (trace : list (wait_result * float)).

Lemma batcher_run_app B W st (a b : list (wait_result * float)) :
  batcher B W st (a ++ b)
  = let '(bs1, st1) := batcher B W st a in
    let '(bs2, st2) := batcher B W st1 b in
    (bs1 ++ bs2, st2).
Proof.
  revert st. induction a as [|obs a IH]; intros st; simpl.
  - by destruct (batcher B W st b).
  - destruct (batcher_step B W st obs) as [st' out]. rewrite IH.
    destruct (batcher B W st' a) as [bs1 st1].
    destruct (batcher B W st1 b) as [bs2 st2].
    by destruct out.
Qed.

(** What a turn does, by the two ways it can end. *)
Lemma batcher_step_cases B W st obs :
  let buf := match obs.1 with Got ev => b_buf st ++ [ev] | TimedOut => b_buf st end in
  (batcher_step B W st obs = ({| b_buf := []; b_last_flush := obs.2 |}, Some buf)
   /\ buf <> []
   /\ ((B <= Z.of_nat (length buf))%Z
       \/ (W <=? obs.2 - b_last_flush st)%float = true))
  \/ (batcher_step B W st obs
      = ({| b_buf := buf; b_last_flush := b_last_flush st |}, None)
      /\ (buf = []
          \/ ((Z.of_nat (length buf) < B)%Z
              /\ (W <=? obs.2 - b_last_flush st)%float = false))).
Proof.
  unfold batcher_step. simpl.
  destruct (match obs.1 with Got ev => b_buf st ++ [ev] | TimedOut => b_buf st end)
    as [|x buf]; simpl.
  - right. rewrite andb_false_r. auto.
  - destruct (B <=? Z.of_nat (S (length buf)))%Z eqn:Hsize; simpl.
    + apply Z.leb_le in Hsize. left. split; [done |]. split; [done |]. by left.
    + apply Z.leb_gt in Hsize.
      destruct (W <=? obs.2 - b_last_flush st)%float eqn:Ht; simpl.
      * left. split; [done |]. split; [done |]. by right.
      * right. split; [done |]. by right.
Qed.

(** No turn puts an empty batch on the output queue. *)
Lemma batcher_step_nonempty B W st obs st' b :
  batcher_step B W st obs = (st', Some b) -> b <> [].
Proof.
  intros Hs. destruct (batcher_step_cases B W st obs) as [(E & Hne & _) | (E & _)];
    rewrite E in Hs; by simplify_eq.
Qed.

Lemma batcher_run_nonempty B W st trace :
  Forall (fun b => b <> []) (batcher B W st trace).1.
Proof.
  revert st. induction trace as [|obs trace IH]; intros st; simpl; [constructor |].
  destruct (batcher_step B W st obs) as [st' out] eqn:E.
  specialize (IH st'). destruct (batcher B W st' trace) as [bs fin].
  destruct out as [b|]; simpl in *; [| done].
  constructor; [by eapply batcher_step_nonempty | done].
Qed.

(** The batches, then what is still buffered, are the events received, in
    the order received. *)
Lemma batcher_step_order B W st obs :
  let '(st', out) := batcher_step B W st obs in
  default [] out ++ b_buf st'
  = b_buf st ++ match obs.1 with Got ev => [ev] | TimedOut => [] end.
Proof.
  destruct (batcher_step_cases B W st obs) as [(E & _) | (E & _)]; rewrite E; simpl;
    destruct obs.1; by rewrite ?app_nil_r.
Qed.

Lemma batcher_run_order B W st trace :
  let '(bs, fin) := batcher B W st trace in
  concat bs ++ b_buf fin = b_buf st ++ events_of trace.
Proof.
  revert st. induction trace as [|obs trace IH]; intros st; simpl.
  - by rewrite app_nil_r.
  - pose proof (batcher_step_order B W st obs) as Hstep.
    destruct (batcher_step B W st obs) as [st' out].
    specialize (IH st'). destruct (batcher B W st' trace) as [bs fin].
    unfold events_of in *; simpl.
    assert (concat (match out with Some b => b :: bs | None => bs end)
            = default [] out ++ concat bs) as -> by (by destruct out).
    rewrite <- app_assoc, IH, app_assoc, Hstep, <- app_assoc. f_equal.
    by destruct obs.1.
Qed.

Lemma ceil_div_nat (n b : nat) :
  1 <= b ->
  ceil_div (Z.of_nat n) (Z.of_nat b)
  = Z.of_nat (n / b + (if (n mod b =? 0)%nat then 0 else 1)).
Proof.
  intros Hb. unfold ceil_div.
  pose proof (Nat.div_mod_eq n b) as Hdm.
  pose proof (Nat.mod_upper_bound n b ltac:(lia)) as Hr.
  destruct (Nat.eqb_spec (n mod b) 0) as [Hz|Hz]; symmetry.
  - apply (Z.div_unique _ _ _ (Z.of_nat b - 1)); nia.
  - apply (Z.div_unique _ _ _ (Z.of_nat (n mod b) - 1)); nia.
Qed.

(** While events come in that fast, only the size trigger fires. *)
Lemma batcher_fast_phase (b : nat) W (times p : list float)
    (evs : list (Event * float)) st (i0 : nat) :
  1 <= b -> window b W times ->
  times = p ++ map snd evs ->
  p !! i0 = Some (b_last_flush st) ->
  length (b_buf st) + i0 + 1 = length p ->
  length (b_buf st) < b ->
  let '(bs, fin) := batcher (Z.of_nat b) W st (arrivals evs) in
  length bs = (length (b_buf st) + length evs) / b
  /\ length (b_buf fin) = (length (b_buf st) + length evs) mod b
  /\ b_last_flush fin ∈ times.
Proof.
  intros Hb Hwin. revert p st i0.
  induction evs as [|[ev t] evs IH]; intros p st i0 Htimes Hlast Hlen Hk; simpl.
  - rewrite Nat.add_0_r, Nat.div_small, Nat.mod_small by done.
    repeat split. rewrite Htimes. apply elem_of_app. left.
    by eapply list_elem_of_lookup_2.
  - simpl in Htimes.
    assert (times !! i0 = Some (b_last_flush st)) as Hti.
    { rewrite Htimes. by apply lookup_app_l_Some. }
    assert (times !! length p = Some t) as Htj.
    { rewrite Htimes. by apply list_lookup_middle. }
    assert (times = (p ++ [t]) ++ map snd evs) as Htimes'.
    { by rewrite <- app_assoc. }
    destruct (batcher_step_cases (Z.of_nat b) W st (Got ev, t))
      as [(E & _ & Hwhy) | (E & Hwhy)]; simpl in E, Hwhy; rewrite E;
      rewrite length_app in Hwhy; simpl in Hwhy.
    + assert (length (b_buf st) + 1 = b) as Hfull.
      { destruct Hwhy as [Hsize | Htime]; [lia |].
        destruct (decide (length (b_buf st) + 1 < b)) as [Hlt|]; [| lia].
        assert ((t - b_last_flush st <? W)%float = true) as Hfast
          by (apply (Hwin i0 (length p)); [done | done | lia]).
        apply fltb_leb_false in Hfast. congruence. }
      specialize (IH (p ++ [t]) {| b_buf := []; b_last_flush := t |} (length p)
                     Htimes').
      simpl in IH. rewrite length_app in IH. simpl in IH.
      specialize (IH ltac:(by rewrite lookup_app_r, Nat.sub_diag by done)
                     ltac:(lia) ltac:(lia)).
      destruct (batcher (Z.of_nat b) W _ (arrivals evs)) as [bs fin].
      destruct IH as (Hn & Hm & Hin). simpl.
      replace (length (b_buf st) + S (length evs)) with (length evs + 1 * b) by lia.
      rewrite Nat.div_add, Nat.Div0.mod_add by lia.
      repeat split; [lia | done | done].
    + assert (length (b_buf st) + 1 < b) as Hlt.
      { destruct Hwhy as [Hnil | [Hsize _]]; [| lia].
        by destruct (b_buf st). }
      specialize (IH (p ++ [t])
                     {| b_buf := b_buf st ++ [ev]; b_last_flush := b_last_flush st |}
                     i0 Htimes').
      simpl in IH. rewrite !length_app in IH. simpl in IH.
      specialize (IH ltac:(by apply lookup_app_l_Some) ltac:(lia) ltac:(lia)).
      destruct (batcher (Z.of_nat b) W _ (arrivals evs)) as [bs fin].
      destruct IH as (Hn & Hm & Hin).
      replace (length (b_buf st) + S (length evs))
        with (length (b_buf st) + 1 + length evs) by lia.
      done.
Qed.

(** C4 (amended). When any [B] consecutive clock readings, the start
    included, span less than [W], the size trigger alone fires while the
    events come in; once the source has been idle long enough for a
    time-out at least [W] after every earlier reading, the batcher has
    emitted exactly [ceil(N/B)] batches and holds nothing back. And no run
    of the batcher, whatever the arrivals, emits an empty batch. *)
Theorem batcher_emits_ceil_batches :
  (forall (B : Z) (W t0 t_end : float) (evs : list (Event * float)),
      (1 <= B)%Z ->
      window (Z.to_nat B) W (t0 :: map snd evs) ->
      (forall t, t ∈ t0 :: map snd evs -> (W <=? t_end - t)%float = true) ->
      let '(batches, fin) :=
        batcher B W (batcher_init t0) (arrivals evs ++ [(TimedOut, t_end)]) in
      Z.of_nat (length batches) = ceil_div (Z.of_nat (length evs)) B
      /\ b_buf fin = [])
  /\ (forall (B : Z) (W : float) st trace,
        Forall (fun b => b <> []) (batcher B W st trace).1).
Proof.
  split; [| apply batcher_run_nonempty].
  intros B W t0 t_end evs HB Hwin Hidle.
  rewrite batcher_run_app.
  pose proof (batcher_fast_phase (Z.to_nat B) W (t0 :: map snd evs) [t0] evs
                (batcher_init t0) 0 ltac:(lia) Hwin eq_refl eq_refl eq_refl
                ltac:(simpl; lia)) as Hfast.
  rewrite Z2Nat.id in Hfast by lia.
  destruct (batcher B W (batcher_init t0) (arrivals evs)) as [bs fin].
  simpl in Hfast. destruct Hfast as (Hn & Hm & Hin). simpl.
  pose proof (ceil_div_nat (length evs) (Z.to_nat B) ltac:(lia)) as Hceil.
  rewrite Z2Nat.id in Hceil by lia. rewrite Hceil. clear Hceil.
  destruct (batcher_step_cases B W fin (TimedOut, t_end))
    as [(E & Hne & _) | (E & Hwhy)]; simpl in *; rewrite E; simpl.
  - rewrite length_app, Hn. simpl. split; [| done].
    destruct (Nat.eqb_spec (length evs `mod` Z.to_nat B) 0) as [Hz|Hz]; [| lia].
    rewrite Hz in Hm. by destruct (b_buf fin).
  - assert (b_buf fin = []) as Hnil.
    { destruct Hwhy as [Hnil | [_ Hlate]]; [done |].
      by rewrite (Hidle _ Hin) in Hlate. }
    rewrite app_nil_r, Hn. split; [| done].
    rewrite Hnil in Hm. simpl in Hm. rewrite <- Hm. simpl. lia.
Qed.

End BatcherFacts.

Section BatcherExamples.
Import Book Streamer Pipeline.

Lemma batcher_emits_ceil_batches_witness :
  let ev := Ingest.sample_event "binance" "btcusdt" 1 in
  let evs := [(ev, 0.125); (ev, 0.25); (ev, 0.375)]%float in
  let '(batches, fin) :=
    batcher 2 0.5 (batcher_init 0) (arrivals evs ++ [(TimedOut, 1%float)]) in
  Z.of_nat (length batches) = ceil_div (Z.of_nat (length evs)) 2
  /\ b_buf fin = [].
Proof.
  destruct batcher_emits_ceil_batches as [Hceil _].
  apply (Hceil 2%Z 0.5%float 0%float 1%float
           [(Ingest.sample_event "binance" "btcusdt" 1, 0.125%float);
            (Ingest.sample_event "binance" "btcusdt" 1, 0.25%float);
            (Ingest.sample_event "binance" "btcusdt" 1, 0.375%float)]).
  - lia.
  - intros i j ti tj Hi Hj Hij.
    destruct i as [|[|[|[|i]]]]; destruct j as [|[|[|[|j]]]];
      simpl in *; simplify_eq; try lia; reflexivity.
  - intros t Ht.
    repeat (apply elem_of_cons in Ht as [-> | Ht]; [reflexivity |]).
    by apply elem_of_nil in Ht.
Defined.

(** The claim as stated fails: four events [0.375 s] apart, so each closer
    than [W = 0.5 s] to the one before, with [B = 100]. The time trigger
    fires at every second event and the batcher emits two batches, not
    [ceil(4/100) = 1]. *)
Lemma batcher_time_trigger_splits_fast_stream :
  let ev := Ingest.sample_event "binance" "btcusdt" 1 in
  let evs := [(ev, 0.375); (ev, 0.75); (ev, 1.125); (ev, 1.5)]%float in
  ((0.375 - 0 <? 0.5) = true /\ (0.75 - 0.375 <? 0.5) = true
   /\ (1.125 - 0.75 <? 0.5) = true /\ (1.5 - 1.125 <? 0.5) = true)%float
  /\ map length (batcher default_batch_size default_max_wait (batcher_init 0)
                   (arrivals evs ++ [(TimedOut, 2.5%float)])).1 = [2; 2]
  /\ ceil_div 4 default_batch_size = 1%Z.
Proof. repeat split; reflexivity. Qed.

End BatcherExamples.



(** ** The fan-out stage *)

Section FanoutFacts.
Import Book Streamer Pipeline.
Implicit Types (s : Fanout) (q : Queue Event).

Lemma put_items ev q q' : put ev q = Some q' ->
  q_items q' = q_items q ++ [ev] /\ q_maxsize q' = q_maxsize q.
Proof. unfold put. destruct (full q); [done |]. by intros [= <-]. Qed.

Lemma get_items q ev q' : get q = Some (ev, q') ->
  q_items q = ev :: q_items q' /\ q_maxsize q' = q_maxsize q.
Proof.
  unfold get. destruct (q_items q) as [|x r] eqn:E; [done |].
  by intros [= <- <-].
Qed.

(** A queue made by [asyncio.Queue()] is never full. *)
Lemma unbounded_not_full q : (q_maxsize q <= 0)%Z -> full q = false.
Proof. unfold full. intros Hm. by apply Z.leb_le in Hm as ->. Qed.

Lemma put_unbounded ev q : (q_maxsize q <= 0)%Z -> is_Some (put ev q).
Proof. intros Hm. unfold put. by rewrite unbounded_not_full. Qed.

Lemma fresh_fanout_inv src_max dst_max : fan_inv (fresh_fanout src_max dst_max).
Proof.
  unfold fan_inv, fresh_fanout; simpl. rewrite !length_map.
  split; [done |]. split; [done |]. exists []. split; [done |].
  intros i Hi. rewrite list_lookup_fmap.
  destruct (lookup_lt_is_Some_2 dst_max i Hi) as [m ->]. done.
Qed.

Lemma step_inv s l s' : fan_inv s -> step s l = Some s' -> fan_inv s'.
Proof.
  intros (Hlen & Hhand & done & Hpub & Hrecv) Hstep.
  destruct l as [ev| | |i]; simpl in Hstep.
  - (* a streamer publishes *)
    destruct (put ev (f_src s)) as [q|] eqn:Hput; [| done].
    simpl in Hstep. injection Hstep as <-.
    apply put_items in Hput as [Hitems _].
    split; [done |]. split; [done |]. exists done. simpl. split; [| done].
    unfold hand_event in *; simpl.
    by rewrite Hpub, Hitems, !app_assoc.
  - (* the broadcaster takes an event *)
    destruct (f_hand s) as [[ev0 k]|] eqn:Hh; [done |].
    destruct (get (f_src s)) as [[ev q]|] eqn:Hget; [| done].
    simpl in Hstep. injection Hstep as <-.
    apply get_items in Hget as [Hitems _].
    unfold hand_event, hand_part in *; rewrite Hh in *; simpl in *.
    split; [done |]. unfold next_hand.
    destruct (0 <? length (f_dsts s))%nat eqn:Hn.
    + apply Nat.ltb_lt in Hn. split; [done |]. exists done; simpl.
      split; [by rewrite Hpub, Hitems |]. done.
    + apply Nat.ltb_ge in Hn. split; [done |]. exists (done ++ [ev]); simpl.
      split; [by rewrite Hpub, Hitems, <- app_assoc |]. intros i Hi. lia.
  - (* the broadcaster puts the event on the next queue *)
    destruct (f_hand s) as [[ev k]|] eqn:Hh; [| done]. simpl in Hstep.
    destruct (f_dsts s !! k) as [q|] eqn:Hq; [| done]. simpl in Hstep.
    destruct (put ev q) as [q'|] eqn:Hput; [| done].
    simpl in Hstep. injection Hstep as <-.
    unfold fan_inv, hand_event, hand_part in *; rewrite Hh in *; simpl in *.
    rewrite length_alter, length_insert. split; [done |].
    unfold next_hand.
    destruct (S k <? length (f_dsts s))%nat eqn:Hn.
    + apply Nat.ltb_lt in Hn. split; [done |]. exists done; simpl.
      split; [done |]. intros i Hi.
      destruct (decide (i = k)) as [-> | Hik].
      * rewrite list_lookup_alter_eq, (Hrecv k Hhand); simpl.
        rewrite Nat.ltb_irrefl, app_nil_r.
        by destruct (Nat.ltb_spec k (S k)); [| lia].
      * rewrite list_lookup_alter_ne, (Hrecv i Hi) by done.
        destruct (Nat.ltb_spec i k), (Nat.ltb_spec i (S k)); try done; lia.
    + apply Nat.ltb_ge in Hn. split; [done |]. exists (done ++ [ev]); simpl.
      split; [by rewrite Hpub, <- app_assoc |]. intros i Hi.
      rewrite app_nil_r.
      destruct (decide (i = k)) as [-> | Hik].
      * rewrite list_lookup_alter_eq, (Hrecv k Hhand); simpl.
        by rewrite Nat.ltb_irrefl, app_nil_r.
      * rewrite list_lookup_alter_ne, (Hrecv i Hi) by done.
        by destruct (Nat.ltb_spec i k); [| lia].
  - (* a consumer takes an event *)
    destruct (f_dsts s !! i) as [q|] eqn:Hq; [| done]. simpl in Hstep.
    destruct (get q) as [[ev q']|] eqn:Hget; [| done].
    simpl in Hstep. injection Hstep as <-.
    unfold fan_inv, hand_event, hand_part in *; simpl.
    rewrite length_insert. split; [done |]. split; [done |]. by exists done.
Qed.

Lemma exec_inv s ls s' : fan_inv s -> exec s ls = Some s' -> fan_inv s'.
Proof.
  revert s. induction ls as [|l ls IH]; intros s Hs; simpl.
  - by intros [= <-].
  - destruct (step s l) as [s1|] eqn:E; [| done]. simpl.
    apply IH. by eapply step_inv.
Qed.

(** Under the invariant a destination has received a prefix of what was
    published: nothing foreign, nothing twice, nothing out of order. *)
Lemma fan_inv_prefix s i h :
  fan_inv s -> f_received s !! i = Some h -> h `prefix_of` f_published s.
Proof.
  intros (Hlen & Hhand & done & Hpub & Hrecv) Hi.
  assert (i < length (f_dsts s)) as Hlt.
  { rewrite <- Hlen. by eapply lookup_lt_Some. }
  rewrite (Hrecv i Hlt) in Hi. injection Hi as <-. rewrite Hpub.
  unfold hand_part, hand_event. destruct (f_hand s) as [[ev k]|].
  - destruct (i <? k)%nat.
    + exists (q_items (f_src s)). by rewrite <- !app_assoc.
    + rewrite app_nil_r. by eexists.
  - rewrite app_nil_r. by eexists.
Qed.

Lemma step_unbounded s l s' :
  unbounded s -> step s l = Some s' -> unbounded s'.
Proof.
  unfold unbounded. intros Hu Hstep.
  destruct l as [ev| | |i]; simpl in Hstep.
  - destruct (put ev (f_src s)); simplify_eq/=; done.
  - destruct (f_hand s); [done |].
    destruct (get (f_src s)) as [[ev q]|]; simplify_eq/=; done.
  - destruct (f_hand s) as [[ev k]|]; [| done]. simpl in Hstep.
    destruct (f_dsts s !! k) as [q|] eqn:Hq; [| done]. simpl in Hstep.
    destruct (put ev q) as [q'|] eqn:Hput; simplify_eq/=.
    apply Forall_insert; [done |].
    apply put_items in Hput as [_ ->].
    by eapply (Forall_lookup_1 _ _ _ _ Hu).
  - destruct (f_dsts s !! i) as [q|] eqn:Hq; [| done]. simpl in Hstep.
    destruct (get q) as [[ev q']|] eqn:Hget; simplify_eq/=.
    apply Forall_insert; [done |].
    apply get_items in Hget as [_ ->].
    by eapply (Forall_lookup_1 _ _ _ _ Hu).
Qed.

Lemma step_src_maxsize s l s' :
  step s l = Some s' -> q_maxsize (f_src s') = q_maxsize (f_src s).
Proof.
  intros Hstep. destruct l as [ev| | |i]; simpl in Hstep.
  - destruct (put ev (f_src s)) as [q|] eqn:Hput; simplify_eq/=.
    by apply put_items in Hput as [_ ->].
  - destruct (f_hand s); [done |].
    destruct (get (f_src s)) as [[ev q]|] eqn:Hget; simplify_eq/=.
    by apply get_items in Hget as [_ ->].
  - destruct (f_hand s) as [[ev k]|]; [| done]. simpl in Hstep.
    destruct (f_dsts s !! k) as [q|]; [| done]. simpl in Hstep.
    destruct (put ev q); simplify_eq/=; done.
  - destruct (f_dsts s !! i) as [q|]; [| done]. simpl in Hstep.
    destruct (get q) as [[ev q']|]; simplify_eq/=; done.
Qed.

Lemma exec_unbounded s ls s' :
  unbounded s -> (q_maxsize (f_src s) <= 0)%Z -> exec s ls = Some s' ->
  unbounded s' /\ (q_maxsize (f_src s') <= 0)%Z.
Proof.
  revert s. induction ls as [|l ls IH]; intros s Hu Hsrc; simpl.
  - by intros [= <-].
  - destruct (step s l) as [s1|] eqn:E; [| done]. simpl.
    apply IH; [by eapply step_unbounded |].
    by rewrite (step_src_maxsize _ _ _ E).
Qed.

(** With destinations that are never full, the broadcaster left alone for
    [work s] steps has emptied the source, and every destination has
    received everything that was published. *)
Lemma broadcaster_drains (n : nat) s :
  work s = n -> fan_inv s -> unbounded s ->
  let s' := broadcaster n s in
  f_hand s' = None /\ q_items (f_src s') = []
  /\ f_published s' = f_published s
  /\ length (f_dsts s') = length (f_dsts s)
  /\ (forall i, i < length (f_dsts s) ->
                f_received s' !! i = Some (f_published s))
  /\ (untouched s -> untouched s').
Proof.
  revert s. induction n as [|n IH]; intros s Hwork Hinv Hu; simpl.
  - destruct Hinv as (Hlen & Hhand & done & Hpub & Hrecv).
    unfold work, hand_left in Hwork.
    assert (q_items (f_src s) = []) as Hsrc
      by (destruct (q_items (f_src s)); [done | simpl in Hwork; lia]).
    assert (f_hand s = None) as Hh.
    { destruct (f_hand s) as [[ev k]|]; [lia | done]. }
    repeat split; try done. intros i Hi.
    rewrite (Hrecv i Hi), Hpub. unfold hand_part, hand_event.
    by rewrite Hh, Hsrc.
  - pose proof Hinv as (Hlen & Hhand & done & Hpub & Hrecv).
    unfold work, hand_left in Hwork.
    destruct (f_hand s) as [[ev k]|] eqn:Hh.
    + (* the next put cannot block *)
      destruct (lookup_lt_is_Some_2 (f_dsts s) k Hhand) as [q Hq].
      assert ((q_maxsize q <= 0)%Z) as Hq_max
        by (by eapply (Forall_lookup_1 _ _ _ _ Hu)).
      destruct (put_unbounded ev q Hq_max) as [q' Hput].
      assert (step s BroadcasterPut
              = Some {| f_src := f_src s; f_dsts := <[k := q']> (f_dsts s);
                        f_hand := next_hand (length (f_dsts s)) ev (S k);
                        f_published := f_published s;
                        f_received := alter (fun h => h ++ [ev]) k (f_received s) |})
        as Hstep by (simpl; by rewrite Hh; simpl; rewrite Hq; simpl; rewrite Hput).
      rewrite Hstep.
      match goal with |- context [broadcaster n ?s1] => set (s1' := s1) end.
      assert (work s1' = n) as Hwork1.
      { unfold work, hand_left, s1', next_hand; simpl. rewrite length_insert.
        destruct (Nat.ltb_spec (S k) (length (f_dsts s))); lia. }
      destruct (IH s1' Hwork1 (step_inv _ _ _ Hinv Hstep)
                  (step_unbounded _ _ _ Hu Hstep))
        as (H1 & H2 & H3 & H4 & H5 & H6).
      unfold s1' in H3, H4, H5, H6; simpl in *. rewrite length_insert in *.
      repeat split; try done. intros Hunt. apply H6.
      unfold untouched in *; simpl.
      change (map q_items ?l) with (q_items <$> l) in *.
      rewrite list_fmap_insert, <- Hunt.
      apply put_items in Hput as [-> _].
      apply list_eq. intros j. destruct (decide (j = k)) as [-> | Hjk].
      * rewrite list_lookup_insert_eq by (by rewrite length_fmap).
        by rewrite list_lookup_alter_eq, list_lookup_fmap, Hq.
      * by rewrite list_lookup_insert_ne, list_lookup_alter_ne.
    + (* the source holds an event *)
      destruct (q_items (f_src s)) as [|ev items] eqn:Hsrc; [simpl in Hwork; lia |].
      assert (step s BroadcasterGet
              = Some {| f_src := {| q_maxsize := q_maxsize (f_src s); q_items := items |};
                        f_dsts := f_dsts s;
                        f_hand := next_hand (length (f_dsts s)) ev 0;
                        f_published := f_published s;
                        f_received := f_received s |})
        as Hstep by (simpl; rewrite Hh; unfold get; by rewrite Hsrc).
      rewrite Hstep.
      match goal with |- context [broadcaster n ?s1] => set (s1' := s1) end.
      assert (work s1' = n) as Hwork1.
      { unfold work, hand_left, s1', next_hand; simpl. simpl in Hwork.
        destruct (Nat.ltb_spec 0 (length (f_dsts s))); lia. }
      destruct (IH s1' Hwork1 (step_inv _ _ _ Hinv Hstep)
                  (step_unbounded _ _ _ Hu Hstep))
        as (H1 & H2 & H3 & H4 & H5 & H6).
      unfold s1' in H3, H4, H5, H6; simpl in *.
      repeat split; done.
Qed.

Lemma exec_dsts_length s ls s' :
  exec s ls = Some s' -> length (f_dsts s') = length (f_dsts s).
Proof.
  revert s. induction ls as [|l ls IH]; intros s; simpl.
  - by intros [= <-].
  - destruct (step s l) as [s1|] eqn:E; [| done]. simpl.
    intros Hex. rewrite (IH _ Hex). clear Hex IH.
    destruct l as [ev| | |i]; simpl in E.
    + destruct (put ev (f_src s)); simplify_eq/=; done.
    + destruct (f_hand s); [done |].
      destruct (get (f_src s)) as [[ev q]|]; simplify_eq/=; done.
    + destruct (f_hand s) as [[ev k]|]; [| done]. simpl in E.
      destruct (f_dsts s !! k) as [q|]; [| done]. simpl in E.
      destruct (put ev q); simplify_eq/=. by rewrite length_insert.
    + destruct (f_dsts s !! i) as [q|]; [| done]. simpl in E.
      destruct (get q) as [[ev q']|]; simplify_eq/=. by rewrite length_insert.
Qed.

(** On a source without capacity every publish goes through. *)
Lemma exec_publish s (evs : list Event) :
  (q_maxsize (f_src s) <= 0)%Z ->
  exec s (map Publish evs)
  = Some {| f_src := {| q_maxsize := q_maxsize (f_src s);
                        q_items := q_items (f_src s) ++ evs |};
            f_dsts := f_dsts s; f_hand := f_hand s;
            f_published := f_published s ++ evs;
            f_received := f_received s |}.
Proof.
  revert s. induction evs as [|ev evs IH]; intros s Hm; simpl.
  - rewrite !app_nil_r. by destruct s as [[] ? ? ? ?].
  - unfold put. rewrite unbounded_not_full by done. simpl.
    rewrite IH by done. simpl. by rewrite <- !app_assoc.
Qed.

Lemma main_fanout_fresh : main_fanout = fresh_fanout 0 [0; 0; 0]%Z.
Proof. reflexivity. Qed.

Lemma main_fanout_reach ls s :
  exec main_fanout ls = Some s ->
  fan_inv s /\ unbounded s /\ (q_maxsize (f_src s) <= 0)%Z
  /\ length (f_dsts s) = 3.
Proof.
  intros Hex. split; [| split].
  - eapply exec_inv; [| exact Hex]. rewrite main_fanout_fresh.
    apply fresh_fanout_inv.
  - eapply exec_unbounded; [| | exact Hex]; [| done].
    by repeat constructor.
  - split; [| by rewrite (exec_dsts_length _ _ _ Hex)].
    eapply exec_unbounded; [| | exact Hex]; [| done].
    by repeat constructor.
Qed.


(** C6 (amended). The queues of [main] are made by [asyncio.Queue()]:
    their [maxsize] is [0], none is ever full, so no put ever suspends the
    distributor; and with the consumers stalled each downstream queue comes
    to hold every event published, whatever their number. *)
Theorem main_queues_never_full :
  Forall (fun q => q_maxsize q = 0%Z) (f_src main_fanout :: f_dsts main_fanout)
  /\ (forall (labels : list label) s,
        exec main_fanout labels = Some s ->
        Forall (fun q => full q = false) (f_src s :: f_dsts s))
  /\ (forall evs : list Event,
        exists s, exec main_fanout (map Publish evs) = Some s
                  /\ map q_items (f_dsts (broadcaster (work s) s)) = [evs; evs; evs]).
Proof.
  split; [by repeat constructor |]. split.
  - intros labels s Hex.
    destruct (main_fanout_reach _ _ Hex) as (_ & Hu & Hsrc & _).
    constructor; [by apply unbounded_not_full |].
    eapply Forall_impl; [exact Hu |]. intros q. apply unbounded_not_full.
  - intros evs. eexists. split; [by apply exec_publish |]. simpl.
    match goal with |- context [broadcaster _ ?s0] => set (s := s0) end.
    assert (exec main_fanout (map Publish evs) = Some s) as Hex
      by (by apply exec_publish).
    destruct (main_fanout_reach _ _ Hex) as (Hinv & Hu & _ & Hlen).
    destruct (broadcaster_drains (work s) s eq_refl Hinv Hu)
      as (_ & _ & _ & Hlen' & Hall & Hunt).
    specialize (Hunt eq_refl). unfold untouched in Hunt.
    rewrite Hunt. rewrite Hlen in *.
    assert (length (f_received (broadcaster (work s) s)) = 3) as Hl
      by (by rewrite <- Hunt, length_map).
    pose proof (Hall 0 ltac:(lia)) as H0.
    pose proof (Hall 1 ltac:(lia)) as H1.
    pose proof (Hall 2 ltac:(lia)) as H2.
    destruct (f_received (broadcaster (work s) s)) as [|a [|b [|c [|d l]]]];
      simpl in *; try lia. by simplify_eq.
Qed.

End FanoutFacts.




Lemma main_queues_never_full_witness :
  let e1 := Ingest.sample_event "binance" "btcusdt" 1 in
  let labels := [Pipeline.Publish e1; Pipeline.BroadcasterGet;
                 Pipeline.BroadcasterPut] in
  match Pipeline.exec Pipeline.main_fanout labels with
  | Some s => Forall (fun q => Pipeline.full q = false)
                     (Pipeline.f_src s :: Pipeline.f_dsts s)
  | None => False
  end.
Proof.
  destruct main_queues_never_full as (_ & Hfull & _).
  intros e1 labels.
  destruct (Pipeline.exec Pipeline.main_fanout labels) as [s|] eqn:Hex;
    [| vm_compute in Hex; discriminate Hex].
  exact (Hfull labels s Hex).
Defined.

(** The claim as stated fails: no downstream queue has a capacity. With
    the consumers stalled, two hundred published events are all fanned out
    without the distributor ever being suspended, and each queue holds the
    two hundred without being full. *)
Lemma main_queues_have_no_capacity_bound :
  let evs := replicate 200 (Ingest.sample_event "binance" "btcusdt" 1) in
  exists s, Pipeline.exec Pipeline.main_fanout (map Pipeline.Publish evs) = Some s
    /\ let s' := Pipeline.broadcaster (Pipeline.work s) s in
       map Pipeline.q_maxsize (Pipeline.f_dsts s') = [0; 0; 0]%Z
       /\ map (fun q => length (Pipeline.q_items q)) (Pipeline.f_dsts s')
          = [200; 200; 200]
       /\ map Pipeline.full (Pipeline.f_dsts s') = [false; false; false]
       /\ Pipeline.f_hand s' = None
       /\ Pipeline.q_items (Pipeline.f_src s') = [].
Proof. eexists. split; [vm_compute; reflexivity |]. vm_compute. repeat split. Qed.

(** ** Venue streamers *)

Section StreamerFacts.
Import Book Streamer.
Context {SP : StrParse}.



Lemma read_loop_app {S} (body : Clock -> frame -> stx S (option Event))
    (a b : list inbound) (s : S) :
  read_loop body (a ++ b) s
  = let '(s1, evs1, fin1) := read_loop body a s in
    match fin1 with
    | PeerClosed =>
        let '(s2, evs2, fin2) := read_loop body b s1 in (s2, evs1 ++ evs2, fin2)
    | HandlerRaised e n => (s1, evs1, HandlerRaised e (n + length b))
    | TransportFailed n => (s1, evs1, TransportFailed (n + length b))
    end.
Proof.
  revert s. induction a as [|[clk f|] a IH]; intros s; simpl.
  - by destruct (read_loop body b s) as [[s2 evs2] fin2].
  - destruct (body clk f s) as [s' [o|e]].
    + rewrite IH. destruct (read_loop body a s') as [[s1 evs1] fin1].
      destruct fin1; [| done | done].
      destruct (read_loop body b s1) as [[s2 evs2] fin2]. by destruct o.
    + by rewrite length_app.
  - by rewrite length_app.
Qed.






Lemma not_json_raises m unified venue clk (lob : LocalOrderBook) (bs : gmap string LocalOrderBook) :
  binance_on_message m unified venue clk NotJson lob = (lob, Raise JSONDecodeError)
  /\ okx_on_message m clk NotJson bs = (bs, Raise JSONDecodeError)
  /\ upbit_on_message m clk NotJson bs = (bs, Raise JSONDecodeError).
Proof. done. Qed.



End StreamerFacts.



(** An OKX [books5] push with a level of size [0]: the level is stored. *)
Example okx_books5_zero_size :
  let msg := PDict [("arg", PDict [("channel", PStr "books5");
                                   ("instId", PStr "BTC-USDT")]);
                    ("data", PList [PDict [("asks", PList []);
                                           ("bids", PList [PList [PStr "100"; PStr "0";
                                                                  PStr "0"; PStr "1"]]);
                                           ("ts", PStr "1700000000000");
                                           ("seqId", PInt 9)]])]%string in
  let '(bs, out) :=
    Streamer.okx_on_message (SP := decimal_parse) Streamer.okx_map
      Streamer.sample_clock (Streamer.Json msg) (Streamer.make_books Streamer.okx_map) in
  (Book.lob_bids <$> bs !! "BTC-USD"%string) = Some [(100, 0)%float]
  /\ match out with
     | Return (Some ev) =>
         Book.snap_bids (Streamer.ev_depth ev) = [(100, 0)%float]
     | _ => False
     end.
Proof. vm_compute. split; reflexivity. Qed.


(** Two connections of the Binance streamer: the first ends at the message
    without [data], the streamer sleeps and reconnects, and the depth
    update is handled on the second; a transport failure takes the same
    path. *)
Example binance_run_reconnects :
  let body := Streamer.binance_on_message (SP := decimal_parse)
                Streamer.binance_map "BTC-USD" "btcusdt" in
  let clk := Streamer.sample_clock in
  let bad := Streamer.Frame clk (Streamer.Json (PDict [])) in
  let good := Streamer.Frame clk Streamer.binance_depth_frame in
  let '(lob, evs, fins) :=
    Streamer.run body [[bad; good]; [Streamer.TransportError; good]; [good]]
      (Book.new_book "BTC-USD") in
  Book.lob_bids lob = [(100.5, 1)%float]
  /\ length evs = 1
  /\ fins = [Streamer.HandlerRaised KeyError 1; Streamer.TransportFailed 1;
             Streamer.PeerClosed]
  /\ map Streamer.sleeps_before_reconnect fins = [true; true; false].
Proof. vm_compute. repeat split; reflexivity. Qed.

(** ** More on symbols *)

Section SymbolFacts.
Local Open Scope string_scope.

Lemma upper_ascii_idemp c : PyStr.upper_ascii (PyStr.upper_ascii c) = PyStr.upper_ascii c.
Proof. by destruct c as [[] [] [] [] [] [] [] []]. Qed.

Lemma upper_idemp s : PyStr.upper (PyStr.upper s) = PyStr.upper s.
Proof. induction s as [|c s IH]; simpl; [done |]. by rewrite upper_ascii_idemp, IH. Qed.

Lemma upper_app a b : PyStr.upper (a +:+ b) = PyStr.upper a +:+ PyStr.upper b.
Proof. induction a as [|c a IH]; simpl; [done |]. by rewrite IH. Qed.

(** Upper-casing neither makes nor removes a dash or an underscore. *)
Lemma upper_ascii_dash c : Ascii.eqb (PyStr.upper_ascii c) "-" = Ascii.eqb c "-".
Proof. by destruct c as [[] [] [] [] [] [] [] []]. Qed.

Lemma upper_ascii_underscore c : Ascii.eqb (PyStr.upper_ascii c) "_" = Ascii.eqb c "_".
Proof. by destruct c as [[] [] [] [] [] [] [] []]. Qed.

Lemma contains_upper_dash s : PyStr.contains "-" (PyStr.upper s) = PyStr.contains "-" s.
Proof. induction s as [|c s IH]; simpl; [done |]. by rewrite upper_ascii_dash, IH. Qed.

Lemma contains_upper_underscore s :
  PyStr.contains "_" (PyStr.upper s) = PyStr.contains "_" s.
Proof. induction s as [|c s IH]; simpl; [done |]. by rewrite upper_ascii_underscore, IH. Qed.

Lemma join_sep (a b : string) c :
  a +:+ String c EmptyString +:+ b = a +:+ String c b.
Proof. reflexivity. Qed.

Lemma split_pair sep (a b : string) :
  PyStr.contains sep a = false -> PyStr.contains sep b = false ->
  PyStr.split sep (a +:+ String sep b) = [a; b].
Proof. intros Ha Hb. by rewrite split_app, (split_no_sep _ _ Hb). Qed.

(** X1. The four Korean conventions name a pair the same way: for a base
    and a quote free of dashes and underscores, in any letter case, Upbit's
    [QUOTE-BASE], Bithumb's [BASE_QUOTE], Coinone's [base-quote] and
    Korbit's [base_quote] all normalise to the upper-case base, the
    upper-case quote and [BASE-QUOTE]. *)
Theorem korean_conventions_agree (base quote : string) :
  PyStr.contains "-" base = false -> PyStr.contains "_" base = false ->
  PyStr.contains "-" quote = false -> PyStr.contains "_" quote = false ->
  let canonical := Return (PyStr.upper base, PyStr.upper quote,
                           PyStr.upper base +:+ "-" +:+ PyStr.upper quote) in
  split_symbol "upbit" (quote +:+ "-" +:+ base) = canonical
  /\ split_symbol "bithumb" (base +:+ "_" +:+ quote) = canonical
  /\ split_symbol "coinone" (base +:+ "-" +:+ quote) = canonical
  /\ split_symbol "korbit" (base +:+ "_" +:+ quote) = canonical.
Proof.
  intros Hbd Hbu Hqd Hqu; simpl.
  rewrite <- contains_upper_dash in Hbd, Hqd.
  rewrite <- contains_upper_underscore in Hbu, Hqu.
  unfold split_symbol; simpl. rewrite !upper_app; simpl.
  change (PyStr.upper_ascii "-") with "-"%char.
  change (PyStr.upper_ascii "_") with "_"%char.
  rewrite !join_sep, !split_pair by done. by rewrite !upper_idemp.
Qed.

Lemma korean_conventions_agree_witness :
  let canonical := Return ("DOGE", "KRW", "DOGE-KRW") in
  split_symbol "upbit" "krw-Doge" = canonical
  /\ split_symbol "bithumb" "Doge_krw" = canonical
  /\ split_symbol "coinone" "Doge-krw" = canonical
  /\ split_symbol "korbit" "Doge_krw" = canonical.
Proof. apply (korean_conventions_agree "Doge" "krw"); reflexivity. Defined.

(** X2. The region tag of a stored row depends on the exchange alone:
    whenever [split_symbol] returns, [get_region] on its quote is [KR] for
    the four Korean venues and [GLOBAL] for every other exchange name, so
    the test [quote == "KRW"] never decides. *)
Theorem region_follows_exchange (exchange venue_sym base quote normalized : string) :
  split_symbol exchange venue_sym = Return (base, quote, normalized) ->
  get_region exchange quote
  = if existsb (String.eqb exchange) ["upbit"; "bithumb"; "coinone"; "korbit"]
    then "KR" else "GLOBAL".
Proof.
  unfold get_region.
  destruct (existsb (String.eqb exchange) ["upbit"; "bithumb"; "coinone"; "korbit"])
    eqn:Hkr; [done |].
  simpl in Hkr. repeat (apply orb_false_elim in Hkr as [? Hkr]).
  unfold split_symbol.
  repeat match goal with H : String.eqb exchange _ = false |- _ => rewrite H; clear H end.
  intros Hsplit.
  assert (quote = "USDT" \/ quote = EmptyString) as [-> | ->]; [| done | done].
  repeat case_match; simplify_eq; auto.
  left. by apply String.eqb_eq.
Qed.

Lemma region_follows_exchange_witness :
  get_region "okx" "USDT" = "GLOBAL" /\ get_region "bithumb" "KRW" = "KR".
Proof.
  split.
  - apply (region_follows_exchange "okx" "DOGE-USDT" "DOGE" "USDT" "DOGE-USD").
    reflexivity.
  - apply (region_follows_exchange "bithumb" "BTC_KRW" "BTC" "KRW" "BTC-KRW").
    reflexivity.
Defined.

End SymbolFacts.


Section FindUnifiedFacts.
Import Book Streamer.

(** X3. On a string [_find_unified] never raises and returns the unified
    symbol of the first entry whose venue symbol equals the argument
    ignoring case; it returns [None] exactly when no entry does. *)
Theorem find_unified_first_match (m : symbol_map) (venue : string) :
  match find_unified m (PStr venue) with
  | Return (Some unified) =>
      exists pre v post,
        m = pre ++ (unified, v) :: post
        /\ PyStr.upper v = PyStr.upper venue
        /\ Forall (fun kv => PyStr.upper kv.2 <> PyStr.upper venue) pre
  | Return None => Forall (fun kv => PyStr.upper kv.2 <> PyStr.upper venue) m
  | Raise _ => False
  end.
Proof.
  induction m as [|[u v] m IH]; simpl; [constructor |].
  destruct (String.eqb_spec (PyStr.upper v) (PyStr.upper venue)) as [Heq|Hne].
  - exists [], v, m. repeat split; [done | constructor].
  - destruct (find_unified m (PStr venue)) as [[unified|]|e]; [| | done].
    + destruct IH as (pre & v' & post & -> & Hv & Hpre).
      exists ((u, v) :: pre), v', post. repeat split; [done |].
      by constructor.
    + by constructor.
Qed.

Lemma find_unified_resolves (m : symbol_map) (unified v venue : string) :
  NoDup (map (fun kv => PyStr.upper kv.2) m) ->
  (unified, v) ∈ m ->
  PyStr.upper venue = PyStr.upper v ->
  find_unified m (PStr venue) = Return (Some unified).
Proof.
  intros Hnd Hin Hcase. induction m as [|[u' v'] m IH]; simpl.
  - by apply elem_of_nil in Hin.
  - apply NoDup_cons in Hnd as [Hfresh Hnd]. simpl in Hfresh.
    apply elem_of_cons in Hin as [[= <- <-] | Hin].
    + by rewrite Hcase, String.eqb_refl.
    + destruct (String.eqb_spec (PyStr.upper v') (PyStr.upper venue)) as [Heq|Hne];
        [| by apply IH].
      exfalso. apply Hfresh. rewrite Heq, Hcase.
      apply list_elem_of_fmap. by exists (unified, v).
Qed.

(** X4. When the venue symbols of a map differ pairwise ignoring case,
    every configured venue symbol, written in any letter case, resolves to
    its own unified symbol. *)
Theorem find_unified_round_trip (m : symbol_map) (unified v venue : string) :
  NoDup (map (fun kv => PyStr.upper kv.2) m) ->
  (unified, v) ∈ m ->
  PyStr.upper venue = PyStr.upper v ->
  find_unified m (PStr venue) = Return (Some unified).
Proof. apply find_unified_resolves. Qed.

Lemma find_unified_round_trip_witness :
  find_unified okx_map (PStr "doge-usdt") = Return (Some "DOGE-USD"%string).
Proof.
  apply (find_unified_round_trip okx_map "DOGE-USD" "DOGE-USDT" "doge-usdt").
  - repeat (apply NoDup_cons; split; [by intros Hin; repeat (apply elem_of_cons in Hin as [Hin | Hin]; [discriminate Hin |]); apply elem_of_nil in Hin |]).
    apply NoDup_nil. done.
  - repeat (first [by apply list_elem_of_here | apply list_elem_of_further]).
  - reflexivity.
Defined.

End FindUnifiedFacts.

(** ** More on the order book *)

Section BookMore.
Import Book.
Context {SP : StrParse}.

Lemma side_pop_absent p (d : side) : side_mem p d = false -> side_pop p d = d.
Proof.
  induction d as [|[k v] r IH]; simpl; [done |].
  intros [Hk Hr]%orb_false_elim. by rewrite Hk, IH.
Qed.

(** X5. Removal is idempotent: the update [(p, 0)] applied twice leaves
    the map that one application leaves, with no key equal to [p]. *)
Theorem upsert_zero_twice (d : side) (price qty : pyval) (p q : float) :
  distinct_keys d ->
  PyVal.to_float price = Return p -> PyVal.to_float qty = Return q ->
  (q =? 0)%float = true ->
  let once := (upsert_side d (PList [PList [price; qty]])).1 in
  (upsert_side once (PList [PList [price; qty]])).1 = once
  /\ side_mem p once = false.
Proof.
  intros Hd Hp Hq Hz.
  assert (forall d', upsert_side d' (PList [PList [price; qty]])
                     = (side_pop p d', Return tt)) as Hup.
  { intros d'. unfold upsert_side; simpl. unfold upsert_level; simpl.
    by rewrite Hp; simpl; rewrite Hq; simpl; rewrite Hz. }
  simpl. rewrite !Hup; simpl.
  pose proof (side_mem_pop p d Hd) as Hgone.
  by rewrite (side_pop_absent _ _ Hgone).
Qed.

Lemma side_pop_other p (d : side) k v :
  (k =? p)%float = false -> (k, v) ∈ side_pop p d <-> (k, v) ∈ d.
Proof.
  intros Hk. induction d as [|[k' v'] r IH]; simpl; [done |].
  destruct (k' =? p)%float eqn:E.
  - rewrite elem_of_cons. split; [by right |].
    intros [[= -> ->] | Hin]; [congruence | done].
  - by rewrite !elem_of_cons, IH.
Qed.

Lemma side_set_other p q (d : side) k v :
  is_nan p = false -> (k =? p)%float = false ->
  (k, v) ∈ side_set p q d <-> (k, v) ∈ d.
Proof.
  intros Hp Hk.
  assert (k <> p) as Hkp.
  { intros ->. unfold is_nan in Hp. by rewrite Hk in Hp. }
  induction d as [|[k' v'] r IH]; simpl.
  - rewrite elem_of_cons. split; [| by intros ?%elem_of_nil].
    intros [[= -> ->] | ?%elem_of_nil]; done.
  - destruct (k' =? p)%float eqn:E.
    + rewrite !elem_of_cons. split.
      * intros [[= -> ->] | Hin]; [congruence | by right].
      * intros [[= -> ->] | Hin]; [congruence | by right].
    + by rewrite !elem_of_cons, IH.
Qed.

Lemma side_set_present p q (d : side) :
  is_nan p = false -> exists k, (k =? p)%float = true /\ (k, q) ∈ side_set p q d.
Proof.
  intros Hp. induction d as [|[k' v'] r IH]; simpl.
  - exists p. split; [| by left].
    unfold is_nan in Hp. by destruct (p =? p)%float.
  - destruct (k' =? p)%float eqn:E.
    + exists k'. split; [done | by left].
    + destruct IH as (k & Hk & Hin). exists k. split; [done | by right].
Qed.

(** X6. An update touches its own price level only. After
    [upsert_side] applies [(p, q)], [p] not a NaN, a level whose key is not
    equal to [p] is in the map exactly if it was before; for [q == 0] no
    key equals [p], otherwise one level has a key equal to [p] and it holds
    [q]. *)
Theorem upsert_touches_one_level (d : side) (price qty : pyval) (p q : float) :
  distinct_keys d -> is_nan p = false ->
  PyVal.to_float price = Return p -> PyVal.to_float qty = Return q ->
  let d' := (upsert_side d (PList [PList [price; qty]])).1 in
  (forall k v, (k =? p)%float = false -> (k, v) ∈ d' <-> (k, v) ∈ d)
  /\ (if (q =? 0)%float then side_mem p d' = false
      else exists k, (k =? p)%float = true /\ (k, q) ∈ d')
  /\ distinct_keys d'.
Proof.
  intros Hd Hnan Hp Hq. simpl.
  unfold upsert_side; simpl. unfold upsert_level; simpl.
  rewrite Hp; simpl. rewrite Hq; simpl.
  destruct (q =? 0)%float eqn:Hz; simpl.
  - split; [| split].
    + intros k v Hk. by apply side_pop_other.
    + by apply side_mem_pop.
    + by apply side_pop_distinct.
  - split; [| split].
    + intros k v Hk. by apply side_set_other.
    + by apply side_set_present.
    + by apply side_set_distinct.
Qed.

End BookMore.

Lemma upsert_zero_twice_witness :
  let d := [(100, 1); (101, 2)]%float in
  let once := (Book.upsert_side (SP := decimal_parse) d
                 (PList [PList [PStr "101"; PStr "0"]])).1 in
  (Book.upsert_side (SP := decimal_parse) once
     (PList [PList [PStr "101"; PStr "0"]])).1 = once
  /\ Book.side_mem 101 once = false.
Proof.
  apply (upsert_zero_twice (SP := decimal_parse) [(100, 1); (101, 2)]%float
           (PStr "101") (PStr "0") 101%float 0%float);
    [repeat constructor | reflexivity | reflexivity | reflexivity].
Defined.

Lemma upsert_touches_one_level_witness :
  let d := [(100, 1); (101, 2)]%float in
  let d' := (Book.upsert_side (SP := decimal_parse) d
               (PList [PList [PStr "101"; PStr "5"]])).1 in
  (forall k v, (k =? 101)%float = false -> (k, v) ∈ d' <-> (k, v) ∈ d)
  /\ (exists k, (k =? 101)%float = true /\ (k, 5%float) ∈ d')
  /\ Book.distinct_keys d'.
Proof.
  apply (upsert_touches_one_level (SP := decimal_parse) [(100, 1); (101, 2)]%float
           (PStr "101") (PStr "5") 101%float 5%float);
    [repeat constructor | reflexivity | reflexivity | reflexivity].
Defined.

(** ** More on snapshots *)

Section SnapshotMore.
Import Book.

Lemma fltb_leb a b : (a <? b)%float = true -> (a <=? b)%float = true.
Proof.
  intros Hab. destruct (ltb_true_not_nan _ _ Hab) as [Ha Hb].
  rewrite ltb_rank in Hab by done. rewrite leb_rank by done.
  by destruct (FloatOrder.lex3 (FloatOrder.frank a) (FloatOrder.frank b)).
Qed.

Lemma lex3_refl a : FloatOrder.lex3 a a = Eq.
Proof.
  destruct a as [[a1 a2] a3]. unfold FloatOrder.lex3; simpl.
  by rewrite !Z.compare_refl.
Qed.

Lemma fleb_refl a : is_nan a = false -> (a <=? a)%float = true.
Proof. intros Ha. by rewrite leb_rank, lex3_refl. Qed.

Lemma slice_to_all {A} (n : Z) (l : list A) :
  (Z.of_nat (length l) <= n)%Z -> slice_to n l = l.
Proof.
  intros Hn. unfold slice_to.
  destruct (0 <=? n)%Z eqn:E; [| apply Z.leb_gt in E; lia].
  apply take_ge. lia.
Qed.

Lemma slice_to_head {A} (n : Z) (l : list A) x r :
  slice_to n l = x :: r -> exists r', l = x :: r'.
Proof.
  unfold slice_to. destruct l as [|y l]; [by destruct (0 <=? n)%Z; rewrite take_nil |].
  destruct (0 <=? n)%Z.
  - destruct (Z.to_nat n); simpl; [done |]. intros [= -> _]. by eexists.
  - destruct (length (y :: l) - Z.to_nat (- n)); simpl; [done |].
    intros [= -> _]. by eexists.
Qed.

Lemma slice_to_nonempty {A} (n : Z) (l : list A) :
  (1 <= n)%Z -> l <> [] -> slice_to n l <> [].
Proof.
  intros Hn Hl. unfold slice_to.
  destruct (0 <=? n)%Z eqn:E; [| apply Z.leb_gt in E; lia].
  destruct l as [|x l]; [done |].
  destruct (Z.to_nat n) eqn:En; [lia | done].
Qed.

(** X7. A snapshot invents no level: every level of either
    side of [snapshot(N)] is a level of that side of the book, with the
    quantity the book holds; for [N] no less than the size of a side the
    snapshot lists exactly the levels of that side. *)
Theorem snapshot_levels_from_book (now : float) (N : Z) (lob : LocalOrderBook) :
  let d := snapshot now N lob in
  (forall kv, kv ∈ snap_bids d -> kv ∈ lob_bids lob)
  /\ (forall kv, kv ∈ snap_asks d -> kv ∈ lob_asks lob)
  /\ ((Z.of_nat (length (lob_bids lob)) <= N)%Z -> snap_bids d ≡ₚ lob_bids lob)
  /\ ((Z.of_nat (length (lob_asks lob)) <= N)%Z -> snap_asks d ≡ₚ lob_asks lob).
Proof.
  simpl. split; [| split; [| split]].
  - intros kv Hin.
    rewrite <- (sorted_by_perm (fun x => (- x.1)%float) (lob_bids lob)).
    eapply elem_of_sublist; [exact Hin | apply slice_to_sublist].
  - intros kv Hin.
    rewrite <- (sorted_by_perm (fun x => x.1) (lob_asks lob)).
    eapply elem_of_sublist; [exact Hin | apply slice_to_sublist].
  - intros Hn. rewrite slice_to_all by (by rewrite sorted_by_length).
    apply sorted_by_perm.
  - intros Hn. rewrite slice_to_all by (by rewrite sorted_by_length).
    apply sorted_by_perm.
Qed.

(** X8. The first level of each side of a snapshot is the
    best of the book: for a book whose maps are dicts holding no NaN price,
    no bid of the book is above the first bid of the snapshot and no ask is
    below its first ask; with [N >= 1] a side that is not empty in the book
    is not empty in the snapshot. *)
Theorem snapshot_best_first (now : float) (N : Z) (lob : LocalOrderBook) :
  distinct_keys (lob_bids lob) -> no_nan_keys (lob_bids lob) ->
  distinct_keys (lob_asks lob) -> no_nan_keys (lob_asks lob) ->
  let d := snapshot now N lob in
  (forall p q r, snap_bids d = (p, q) :: r ->
     forall kv, kv ∈ lob_bids lob -> (kv.1 <=? p)%float = true)
  /\ (forall p q r, snap_asks d = (p, q) :: r ->
     forall kv, kv ∈ lob_asks lob -> (p <=? kv.1)%float = true)
  /\ ((1 <= N)%Z -> lob_bids lob <> [] -> snap_bids d <> [])
  /\ ((1 <= N)%Z -> lob_asks lob <> [] -> snap_asks d <> []).
Proof.
  intros Hbd Hbn Had Han; simpl. split; [| split; [| split]].
  - intros p q r Hhead kv Hin.
    apply slice_to_head in Hhead as [r' Hs].
    pose proof (sorted_bids_descending _ Hbd Hbn) as Hsorted.
    rewrite <- (sorted_by_perm (fun x => (- x.1)%float)) in Hin.
    rewrite Hs in Hsorted, Hin.
    apply StronglySorted_inv in Hsorted as [_ Hall].
    apply elem_of_cons in Hin as [-> | Hin]; simpl.
    + apply fleb_refl.
      assert ((p, q) ∈ lob_bids lob) as Hpq.
      { rewrite <- (sorted_by_perm (fun x => (- x.1)%float)), Hs. by left. }
      unfold no_nan_keys in Hbn. rewrite Forall_forall in Hbn.
      by apply (Hbn (p, q)).
    + rewrite Forall_forall in Hall. apply fltb_leb.
      by apply (Hall kv).
  - intros p q r Hhead kv Hin.
    apply slice_to_head in Hhead as [r' Hs].
    pose proof (sorted_asks_ascending _ Had Han) as Hsorted.
    rewrite <- (sorted_by_perm (fun x => x.1)) in Hin.
    rewrite Hs in Hsorted, Hin.
    apply StronglySorted_inv in Hsorted as [_ Hall].
    apply elem_of_cons in Hin as [-> | Hin]; simpl.
    + apply fleb_refl.
      assert ((p, q) ∈ lob_asks lob) as Hpq.
      { rewrite <- (sorted_by_perm (fun x => x.1)), Hs. by left. }
      unfold no_nan_keys in Han. rewrite Forall_forall in Han.
      by apply (Han (p, q)).
    + rewrite Forall_forall in Hall. apply fltb_leb.
      by apply (Hall kv).
  - intros HN Hne. apply slice_to_nonempty; [done |].
    intros Hnil. apply Hne. apply Permutation_nil_r.
    by rewrite <- sorted_by_perm, Hnil.
  - intros HN Hne. apply slice_to_nonempty; [done |].
    intros Hnil. apply Hne. apply Permutation_nil_r.
    by rewrite <- sorted_by_perm, Hnil.
Qed.

Lemma sorted_by_order_independent (key : float * float -> float) (d d' : side) :
  Forall (fun y => is_nan (key y) = false) d ->
  StronglySorted (fun a b => (key a =? key b)%float = false) d ->
  Forall (fun y => is_nan (key y) = false) d' ->
  StronglySorted (fun a b => (key a =? key b)%float = false) d' ->
  d ≡ₚ d' -> sorted_by key d = sorted_by key d'.
Proof.
  intros Hn Hd Hn' Hd' Hperm.
  apply sorted_by_unique; [done | done | |].
  - by rewrite sorted_by_perm.
  - by apply sorted_by_sorted.
Qed.

Lemma neg_keys_no_nan (d : side) :
  no_nan_keys d -> Forall (fun y => is_nan (- y.1)%float = false) d.
Proof.
  intros Hn. eapply Forall_impl; [exact Hn |]. intros kv Hkv; simpl.
  by rewrite is_nan_opp.
Qed.

Lemma neg_keys_distinct (d : side) :
  distinct_keys d ->
  StronglySorted (fun a b => (- a.1 =? - b.1)%float = false) d.
Proof.
  intros Hd. eapply StronglySorted_mono; [| exact Hd].
  intros a b Hab; simpl in *. by rewrite feqb_opp.
Qed.

(** X9. A snapshot does not depend on the insertion order of
    the dicts: two books with the same symbol and update id whose sides
    hold the same levels, in whatever order, give the same snapshot. *)
Theorem snapshot_order_independent (now : float) (N : Z) (lob lob' : LocalOrderBook) :
  distinct_keys (lob_bids lob) -> no_nan_keys (lob_bids lob) ->
  distinct_keys (lob_asks lob) -> no_nan_keys (lob_asks lob) ->
  distinct_keys (lob_bids lob') -> distinct_keys (lob_asks lob') ->
  lob_symbol lob = lob_symbol lob' ->
  lob_last_update_id lob = lob_last_update_id lob' ->
  lob_bids lob ≡ₚ lob_bids lob' -> lob_asks lob ≡ₚ lob_asks lob' ->
  snapshot now N lob = snapshot now N lob'.
Proof.
  intros Hbd Hbn Had Han Hbd' Had' Hsym Hid Hb Ha.
  assert (no_nan_keys (lob_bids lob')) as Hbn'
    by (unfold no_nan_keys; by rewrite <- Hb).
  assert (no_nan_keys (lob_asks lob')) as Han'
    by (unfold no_nan_keys; by rewrite <- Ha).
  unfold snapshot. rewrite Hsym, Hid.
  rewrite (sorted_by_order_independent (fun x => (- x.1)%float)
             (lob_bids lob) (lob_bids lob'))
    by auto using neg_keys_no_nan, neg_keys_distinct.
  by rewrite (sorted_by_order_independent (fun x => x.1)
                (lob_asks lob) (lob_asks lob')).
Qed.

End SnapshotMore.

Lemma snapshot_best_first_witness :
  let lob := {| Book.lob_symbol := "BTC-USD";
                Book.lob_bids := [(100, 1); (101, 2); (99, 3)]%float;
                Book.lob_asks := [(103, 1); (102, 5)]%float;
                Book.lob_last_update_id := PInt 7 |} in
  let d := Book.snapshot 0 1 lob in
  (forall p q r, Book.snap_bids d = (p, q) :: r ->
     forall kv, kv ∈ Book.lob_bids lob -> (kv.1 <=? p)%float = true)
  /\ (forall p q r, Book.snap_asks d = (p, q) :: r ->
     forall kv, kv ∈ Book.lob_asks lob -> (p <=? kv.1)%float = true)
  /\ ((1 <= 1)%Z -> Book.lob_bids lob <> [] -> Book.snap_bids d <> [])
  /\ ((1 <= 1)%Z -> Book.lob_asks lob <> [] -> Book.snap_asks d <> []).
Proof.
  apply (snapshot_best_first 0 1
           {| Book.lob_symbol := "BTC-USD";
              Book.lob_bids := [(100, 1); (101, 2); (99, 3)]%float;
              Book.lob_asks := [(103, 1); (102, 5)]%float;
              Book.lob_last_update_id := PInt 7 |});
    repeat constructor.
Defined.

Lemma snapshot_order_independent_witness :
  let lob := {| Book.lob_symbol := "BTC-USD";
                Book.lob_bids := [(100, 1); (101, 2); (99, 3)]%float;
                Book.lob_asks := [(103, 1); (102, 5)]%float;
                Book.lob_last_update_id := PInt 7 |} in
  let lob' := {| Book.lob_symbol := "BTC-USD";
                 Book.lob_bids := [(101, 2); (99, 3); (100, 1)]%float;
                 Book.lob_asks := [(102, 5); (103, 1)]%float;
                 Book.lob_last_update_id := PInt 7 |} in
  Book.snapshot 0 2 lob = Book.snapshot 0 2 lob'.
Proof.
  apply (snapshot_order_independent 0 2
           {| Book.lob_symbol := "BTC-USD";
              Book.lob_bids := [(100, 1); (101, 2); (99, 3)]%float;
              Book.lob_asks := [(103, 1); (102, 5)]%float;
              Book.lob_last_update_id := PInt 7 |}
           {| Book.lob_symbol := "BTC-USD";
              Book.lob_bids := [(101, 2); (99, 3); (100, 1)]%float;
              Book.lob_asks := [(102, 5); (103, 1)]%float;
              Book.lob_last_update_id := PInt 7 |});
    try (repeat constructor; fail); simpl.
  eapply perm_trans; [apply perm_swap | apply perm_skip, perm_swap].
Defined.


(** ** The handlers of the other venues *)

Section VenueFacts.
Import Book Streamer Venues Frames.
Context {SP : StrParse}.

Lemma set_bids_same (lob : LocalOrderBook) : set_bids (lob_bids lob) lob = lob.
Proof. by destruct lob. Qed.

Lemma set_asks_same (lob : LocalOrderBook) : set_asks (lob_asks lob) lob = lob.
Proof. by destruct lob. Qed.

Lemma upsert_each_bids (us : list pyval) (lob : LocalOrderBook) :
  upsert_each upsert_bids us lob = upsert_bids (PList us) lob.
Proof.
  unfold upsert_bids, upsert_side; simpl.
  revert lob. induction us as [|u us IH]; intros lob; simpl.
  - by rewrite set_bids_same.
  - unfold mbind, stx_bind, lift, upsert_level. unfold mbind at 3, py_bind.
    destruct (PyVal.unpack2 u) as [[p q]|e]; simpl; [| by rewrite set_bids_same].
    unfold upsert_bids, upsert_side; simpl. unfold upsert_level; simpl.
    unfold mbind, py_bind.
    destruct (PyVal.to_float p) as [p'|e]; simpl; [| done].
    destruct (PyVal.to_float q) as [q'|e]; simpl; [| done].
    rewrite IH. simpl.
    by destruct (upsert_levels _ us).
Qed.


Lemma upsert_each_asks (us : list pyval) (lob : LocalOrderBook) :
  upsert_each upsert_asks us lob = upsert_asks (PList us) lob.
Proof.
  unfold upsert_asks, upsert_side; simpl.
  revert lob. induction us as [|u us IH]; intros lob; simpl.
  - by rewrite set_asks_same.
  - unfold mbind, stx_bind, lift, upsert_level. unfold mbind at 3, py_bind.
    destruct (PyVal.unpack2 u) as [[p q]|e]; simpl; [| by rewrite set_asks_same].
    unfold upsert_asks, upsert_side; simpl. unfold upsert_level; simpl.
    unfold mbind, py_bind.
    destruct (PyVal.to_float p) as [p'|e]; simpl; [| done].
    destruct (PyVal.to_float q) as [q'|e]; simpl; [| done].
    rewrite IH. simpl.
    by destruct (upsert_levels _ us).
Qed.

(** X10. Bybit applies the levels of a message one call of
    [upsert_side] at a time; on every list, well formed or not, that leaves
    the book and the outcome one call with the whole list leaves, the way
    Binance applies them. *)
Theorem bybit_levels_one_by_one (us : list pyval) (lob : LocalOrderBook) :
  upsert_each upsert_bids us lob = upsert_bids (PList us) lob
  /\ upsert_each upsert_asks us lob = upsert_asks (PList us) lob.
Proof. split; [apply upsert_each_bids | apply upsert_each_asks]. Qed.

(** *** Rules of the weakest precondition *)

Section WpRules.
Context {S : Type}.

Lemma wp_ret {A} (a : A) (Q : S -> A -> Prop) E (s : S) :
  Q s a -> wp (mret a) Q E s.
Proof. done. Qed.

Lemma wp_bind {A B} (m : stx S A) (k : A -> stx S B) (Q : S -> B -> Prop) E s :
  wp m (fun s' a => wp (k a) Q E s') E s -> wp (m ≫= k) Q E s.
Proof.
  unfold wp, mbind, stx_bind. by destruct (m s) as [s' [a|e]].
Qed.

Lemma wp_lift {A} (m : py A) (Q : S -> A -> Prop) (E : S -> Prop) s :
  (forall a, m = Return a -> Q s a) -> (forall e, m = Raise e -> E s) ->
  wp (lift m) Q E s.
Proof. unfold wp, lift. destruct m; eauto. Qed.

Lemma wp_modify (f : S -> S) (Q : S -> unit -> Prop) (E : S -> Prop) s :
  Q (f s) tt -> wp (modify f) Q E s.
Proof. done. Qed.

Lemma wp_get_state (Q : S -> S -> Prop) (E : S -> Prop) s :
  Q s s -> wp get_state Q E s.
Proof. done. Qed.

Lemma wp_mono {A} (c : stx S A) (Q Q' : S -> A -> Prop) (E E' : S -> Prop) s :
  (forall s' a, Q s' a -> Q' s' a) -> (forall s', E s' -> E' s') ->
  wp c Q E s -> wp c Q' E' s.
Proof. unfold wp. destruct (c s) as [s' [a|e]]; eauto. Qed.

End WpRules.

Lemma wp_with_book {A} (unified : string) (k : stx LocalOrderBook A)
    (Q : gmap string LocalOrderBook -> A -> Prop) E bs :
  match bs !! unified with
  | None => E bs
  | Some lob => wp k (fun lob' a => Q (<[unified := lob']> bs) a)
                  (fun lob' => E (<[unified := lob']> bs)) lob
  end ->
  wp (with_book unified k) Q E bs.
Proof.
  unfold wp, with_book. destruct (bs !! unified) as [lob|]; [| done].
  by destruct (k lob) as [lob' [a|e]].
Qed.

Lemma wp_upsert_bids (updates : pyval) (Q : LocalOrderBook -> unit -> Prop) E lob :
  (forall d, (upsert_side (lob_bids lob) updates).1 = d ->
             Q (set_bids d lob) tt /\ E (set_bids d lob)) ->
  wp (upsert_bids updates) Q E lob.
Proof.
  unfold wp, upsert_bids. intros H.
  destruct (upsert_side (lob_bids lob) updates) as [d [[]|e]]; by apply H.
Qed.

Lemma wp_upsert_asks (updates : pyval) (Q : LocalOrderBook -> unit -> Prop) E lob :
  (forall d, (upsert_side (lob_asks lob) updates).1 = d ->
             Q (set_asks d lob) tt /\ E (set_asks d lob)) ->
  wp (upsert_asks updates) Q E lob.
Proof.
  unfold wp, upsert_asks. intros H.
  destruct (upsert_side (lob_asks lob) updates) as [d [[]|e]]; by apply H.
Qed.

(** One step of symbolic execution. *)
Ltac wp_step :=
  lazymatch goal with
  | |- wp (mbind _ _) _ _ _ => apply wp_bind
  | |- wp (lift _) _ _ _ =>
      apply wp_lift; [intros ? ? | intros ? ?]
  | |- wp (modify _) _ _ _ => apply wp_modify
  | |- wp get_state _ _ _ => apply wp_get_state
  | |- wp (mret _) _ _ _ => apply wp_ret
  | |- wp (if ?b then _ else _) _ _ _ => destruct b eqn:?
  | |- wp (match ?o with Some _ => _ | None => _ end) _ _ _ => destruct o eqn:?
  | |- wp (let '(_, _) := ?p in _) _ _ _ => destruct p eqn:?
  | |- wp (with_book _ _) _ _ _ => apply wp_with_book
  | |- wp (upsert_bids _) _ _ _ => apply wp_upsert_bids; intros ? ?; split
  | |- wp (upsert_asks _) _ _ _ => apply wp_upsert_asks; intros ? ?; split
  | |- wp (upsert_each upsert_bids _) _ _ _ =>
      unfold wp at 1; rewrite upsert_each_bids;
      apply wp_upsert_bids; intros ? ?; split
  | |- wp (upsert_each upsert_asks _) _ _ _ =>
      unfold wp at 1; rewrite upsert_each_asks;
      apply wp_upsert_asks; intros ? ?; split
  end; cbv beta.

Lemma failed_here (bs : gmap string LocalOrderBook) : failed_from bs bs.
Proof. by left. Qed.

Ltac frame_done :=
  lazymatch goal with
  | |- failed_from ?bs ?bs => by left
  | |- failed_from _ (<[?u := _]> _) =>
      right; eexists u, _, _; split; [eassumption | by split]
  | |- published_from _ ?bs ?bs None => reflexivity
  | |- published_from _ _ (<[?u := _]> _) (Some _) =>
      eexists _, _; split; [simpl; eassumption | by repeat split]
  | |- match ?bs !! ?u with Some _ => _ | None => _ end =>
      destruct (bs !! u) eqn:?
  | _ => idtac
  end.

Ltac wp_run := repeat (first [wp_step | progress frame_done]).

Lemma bithumb_frame m clk f (bs : gmap string LocalOrderBook) :
  one_book_frame clk bs (bithumb_on_message m clk f).
Proof.
  unfold one_book_frame, bithumb_on_message, on_book, replace_both,
    stamp_and_publish.
  wp_run.
Qed.

(** *** Invariants of a read loop *)

Lemma read_loop_wp {S} (body : Clock -> frame -> stx S (option Event))
    (I : S -> Prop) (Pev : Event -> Prop) :
  (forall clk f s, I s ->
     wp (body clk f) (fun s' o => I s' /\ from_option Pev True o) I s) ->
  forall input s, I s ->
    I (read_loop body input s).1.1 /\ Forall Pev (read_loop body input s).1.2.
Proof.
  intros Hbody input.
  induction input as [|[clk f|] rest IH]; intros s Hs; simpl; [done | | done].
  specialize (Hbody clk f s Hs). unfold wp in Hbody.
  destruct (body clk f s) as [s' [o|e]]; [| done].
  destruct Hbody as [Hs' Ho]. specialize (IH s' Hs').
  destruct (read_loop body rest s') as [[s'' evs] fin]; simpl in *.
  destruct IH as [IH1 IH2]. split; [done |].
  destruct o; [by constructor | done].
Qed.

Lemma run_wp {S} (body : Clock -> frame -> stx S (option Event))
    (I : S -> Prop) (Pev : Event -> Prop) :
  (forall clk f s, I s ->
     wp (body clk f) (fun s' o => I s' /\ from_option Pev True o) I s) ->
  forall connections s, I s ->
    I (run body connections s).1.1 /\ Forall Pev (run body connections s).1.2.
Proof.
  intros Hbody connections.
  induction connections as [|input rest IH]; intros s Hs; simpl; [done |].
  pose proof (read_loop_wp body I Pev Hbody input s Hs) as [H1 H2].
  destruct (read_loop body input s) as [[s' evs] fin]; simpl in *.
  specialize (IH s' H1).
  destruct (run body rest s') as [[s'' evs'] fins]; simpl in *.
  destruct IH as [IH1 IH2]. split; [done |].
  by apply Forall_app.
Qed.

(** *** The incremental venues *)










(** X12. On every frame the Binance and the Bybit handler raise, or skip
    the frame with the book untouched, or publish an event for their own
    symbol that shows the book as the frame left it: the top 20 levels of
    the updated book, its update id as sequence number, the clock as
    receive time. *)
Theorem incremental_event_mirrors_book (m : symbol_map) (unified venue : string)
    (clk : Clock) (f : frame) (lob : LocalOrderBook) :
  let post (lob' : LocalOrderBook) (o : option Event) :=
    match o with
    | Some ev => mirrors clk lob' ev /\ ev_symbol ev = unified
    | None => lob' = lob
    end in
  wp (binance_on_message m unified venue clk f) post (fun _ => True) lob
  /\ wp (bybit_on_message m unified venue clk f) post (fun _ => True) lob.
Proof.
  split.
  - unfold binance_on_message.
    repeat (first [wp_step | done | by repeat split; simpl; congruence]).
  - unfold bybit_on_message.
    repeat (first [wp_step | done | by repeat split; simpl; congruence]).
Qed.

Context {SF : PyOps.StrFormat}.

Lemma coinone_frame m clk f (bs : gmap string LocalOrderBook) :
  one_book_frame clk bs (coinone_on_message m clk f).
Proof.
  unfold one_book_frame, coinone_on_message, on_book, replace_both,
    stamp_and_publish.
  wp_run.
Qed.

Lemma korbit_frame m clk f (bs : gmap string LocalOrderBook) :
  one_book_frame clk bs (korbit_on_message m clk f).
Proof.
  unfold one_book_frame, korbit_on_message, on_book, replace_both,
    stamp_and_publish.
  wp_run.
Qed.

Lemma okx_frame m clk f (bs : gmap string LocalOrderBook) :
  one_book_frame clk bs (okx_on_message m clk f).
Proof.
  unfold one_book_frame, okx_on_message.
  wp_run.
Qed.

Lemma upbit_frame m clk f (bs : gmap string LocalOrderBook) :
  one_book_frame clk bs (upbit_on_message m clk f).
Proof.
  unfold one_book_frame, upbit_on_message.
  wp_run.
Qed.

(** X13. A frame of the OKX or the Upbit stream touches one book: the
    handler skips it with every book as it was, or raises with at most one
    book rewritten, or publishes an event, and then it rewrote the book
    filed under the event's symbol and nothing else, and the event shows
    that book as it now stands. *)
Theorem snapshot_venues_touch_one_book (m : symbol_map) (clk : Clock) (f : frame)
    (bs : gmap string LocalOrderBook) :
  one_book_frame clk bs (okx_on_message m clk f)
  /\ one_book_frame clk bs (upbit_on_message m clk f).
Proof. split; [apply okx_frame | apply upbit_frame]. Qed.

(** X14. The same for the Bithumb, Coinone and Korbit streams: a frame
    is skipped with the books untouched, or rewrites the one book the event
    it publishes names, or raises with at most one book rewritten. *)
Theorem korean_venues_touch_one_book (m : symbol_map) (clk : Clock) (f : frame)
    (bs : gmap string LocalOrderBook) :
  one_book_frame clk bs (bithumb_on_message m clk f)
  /\ one_book_frame clk bs (coinone_on_message m clk f)
  /\ one_book_frame clk bs (korbit_on_message m clk f).
Proof.
  split; [apply bithumb_frame | split; [apply coinone_frame | apply korbit_frame]].
Qed.

Lemma make_books_dom (m : symbol_map) :
  dom (make_books m) = (list_to_set m.*1 : gset string).
Proof.
  unfold make_books. rewrite dom_list_to_map_L. f_equal.
  induction m as [|[u v] m IH]; [done | simpl in *; by f_equal].
Qed.

Lemma make_books_named (m : symbol_map) : books_named (make_books m).
Proof.
  intros u lob Hu. unfold make_books in Hu.
  apply elem_of_list_to_map_2 in Hu.
  change (map ?g m) with (g <$> m) in Hu.
  apply list_elem_of_fmap in Hu as ([u' v'] & [= -> ->] & _). done.
Qed.

Lemma one_book_frame_wp (D : gset string)
    (body : Clock -> frame -> stx (gmap string LocalOrderBook) (option Event)) :
  (forall clk f bs, one_book_frame clk bs (body clk f)) ->
  forall clk f bs, books_of D bs ->
    wp (body clk f)
      (fun bs' o => books_of D bs' /\ from_option (labelled D) True o)
      (books_of D) bs.
Proof.
  intros Hbody clk f bs [Hdom Hnamed].
  assert (forall u lob0 lob, bs !! u = Some lob0 ->
            lob_symbol lob = lob_symbol lob0 -> books_of D (<[u := lob]> bs))
    as Hins.
  { intros u lob0 lob Hu Hsym. split.
    - assert (u ∈ dom bs) as Hin by (by eapply elem_of_dom_2).
      rewrite dom_insert_L, subseteq_union_1_L; [done |].
      by apply singleton_subseteq_l.
    - intros u' lob' Hu'. destruct (decide (u = u')) as [<- | Hne].
      + rewrite lookup_insert_eq in Hu'. injection Hu' as <-.
        rewrite Hsym. by apply Hnamed.
      + rewrite lookup_insert_ne in Hu' by done. by apply Hnamed. }
  eapply wp_mono; [| | apply (Hbody clk f bs)].
  - intros bs' [ev|]; simpl.
    + intros (lob0 & lob & Hu & -> & Hsym & Hdepth & _). split; [by eapply Hins |].
      split.
      * rewrite <- Hdom. by eapply elem_of_dom_2.
      * rewrite Hdepth; simpl. rewrite Hsym. by apply Hnamed.
    + by intros ->.
  - intros bs' [-> | (u & lob0 & lob & Hu & -> & Hsym)]; [done | by eapply Hins].
Qed.

Lemma multiplexed_run
    (body : Clock -> frame -> stx (gmap string LocalOrderBook) (option Event))
    (m : symbol_map) (connections : list (list inbound)) :
  (forall clk f bs, one_book_frame clk bs (body clk f)) ->
  let r := run body connections (make_books m) in
  books_of (list_to_set m.*1) r.1.1 /\ Forall (labelled (list_to_set m.*1)) r.1.2.
Proof.
  intros Hbody. apply run_wp.
  - by apply one_book_frame_wp.
  - split; [apply make_books_dom | apply make_books_named].
Qed.

(** X15. Whatever the five multiplexed streamers read, over any number
    of connections, their books stay the books of the symbol map, each
    filed under its own symbol, and every event they publish carries a
    configured unified symbol and a snapshot labelled with that symbol. *)
Theorem multiplexed_streamers_keep_books (m : symbol_map)
    (connections : list (list inbound)) :
  Forall (fun body : symbol_map -> Clock -> frame ->
                     stx (gmap string LocalOrderBook) (option Event) =>
            let r := run (body m) connections (make_books m) in
            books_of (list_to_set m.*1) r.1.1
            /\ Forall (labelled (list_to_set m.*1)) r.1.2)
    [okx_on_message; upbit_on_message; bithumb_on_message;
     coinone_on_message; korbit_on_message].
Proof.
  constructor; [apply multiplexed_run; intros; apply okx_frame |].
  constructor; [apply multiplexed_run; intros; apply upbit_frame |].
  constructor; [apply multiplexed_run; intros; apply bithumb_frame |].
  constructor; [apply multiplexed_run; intros; apply coinone_frame |].
  constructor; [apply multiplexed_run; intros; apply korbit_frame |].
  constructor.
Qed.

(** *** Symbols rebuilt from a frame *)

Lemma remove_from_skip old (a s : string) :
  PyOps.remove_from old (String.length a) (a +:+ s) = PyOps.remove_from old 0 s.
Proof.
  induction a as [|c a IH]; simpl; [done | exact IH].
Qed.

Lemma is_prefix_app (p s : string) : PyVal.is_prefix p (p +:+ s) = true.
Proof. induction p as [|c p IH]; simpl; [by destruct s |]. by rewrite Ascii.eqb_refl. Qed.

Lemma remove_all_none old (s : string) :
  PyVal.is_substring old s = false -> PyOps.remove_all old s = s.
Proof.
  unfold PyOps.remove_all.
  induction s as [|c s IH]; simpl; [done |].
  intros [Hp Hs]%orb_false_elim. rewrite Hp.
  f_equal. by apply IH.
Qed.

Lemma remove_all_prefix old (s : string) :
  PyVal.is_substring old s = false -> PyOps.remove_all old (old +:+ s) = s.
Proof.
  intros Hs. rewrite <- (remove_all_none old s Hs) at 2.
  unfold PyOps.remove_all.
  destruct old as [|c old]; [by destruct s |].
  change (String c old +:+ s) with (String c (old +:+ s)).
  cbn [PyOps.remove_from].
  change (String c (old +:+ s)) with (String c old +:+ s).
  rewrite is_prefix_app.
  cbn [String.length]. rewrite Nat.sub_1_r; simpl Nat.pred.
  apply remove_from_skip.
Qed.

Lemma get_dict kv k d :
  PyVal.get (PDict kv) k d = Return (default d (PyVal.assoc k kv)).
Proof. unfold PyVal.get. by destruct (PyVal.assoc k kv). Qed.

Lemma app_dash_nonempty (t q : string) :
  String.eqb (t +:+ "-" +:+ q) EmptyString = false.
Proof. by destruct t. Qed.

(** X16. Coinone's subscription and its handler are inverse to each
    other. For a configured venue symbol [t-q] the subscription asks for
    the quote currency [q] and the target currency [t]; and a data frame of
    the order book channel that echoes this topic is never skipped: the
    handler raises or publishes an event for the unified symbol configured
    for [t-q], with [t-q] as venue symbol. *)
Theorem coinone_topic_round_trip (m : symbol_map) (unified t q : string)
    (clk : Clock) (kv tkv : list (string * pyval))
    (bs : gmap string LocalOrderBook) :
  NoDup (map (fun e => PyStr.upper e.2) m) ->
  (unified, t +:+ "-" +:+ q) ∈ m ->
  unified <> EmptyString ->
  PyStr.contains "-" t = false -> PyStr.contains "-" q = false ->
  PyVal.assoc "response_type" kv = Some (PStr "DATA") ->
  PyVal.assoc "channel" kv = Some (PStr "ORDERBOOK") ->
  PyVal.assoc "topic" kv = Some (PDict tkv) ->
  PyVal.assoc "target_currency" tkv = Some (PStr t) ->
  PyVal.assoc "quote_currency" tkv = Some (PStr q) ->
  coinone_topics [(unified, t +:+ "-" +:+ q)] = Return [(q, t)]
  /\ wp (coinone_on_message m clk (Json (PDict kv)))
       (fun _ o => exists ev, o = Some ev /\ ev_symbol ev = unified
                              /\ ev_venue_symbol ev = PStr (t +:+ "-" +:+ q))
       (fun _ => True) bs.
Proof.
  intros Hnd Hin Hne Ht Hq Hrt Hch Htopic Htc Hqc. split.
  - simpl. by rewrite join_sep, (split_pair "-" t q Ht Hq).
  - unfold coinone_on_message, on_book, replace_both, stamp_and_publish.
    repeat (wp_step;
            repeat match goal with
            | H : json_loads _ = _ |- _ => simpl in H; simplify_eq
            | H : PyVal.get (PDict _) _ _ = _ |- _ =>
                rewrite get_dict, ?Hrt, ?Hch, ?Htopic, ?Htc, ?Hqc in H;
                simpl in H; simplify_eq
            | H : find_unified _ _ = _ |- _ =>
                simpl PyOps.fmt in H;
                rewrite (find_unified_resolves m unified (t +:+ "-" +:+ q)) in H
                  by done; simplify_eq
            | H : String.eqb _ EmptyString = true |- _ =>
                apply String.eqb_eq in H; simplify_eq
            | H : negb (PyVal.eq_str _ _) = true |- _ => discriminate H
            end;
            try done).
    destruct (bs !! unified) as [lob|]; [| done].
    repeat (wp_step; try done).
    eexists. split; [done |]. split; [done |]. simpl.
    by rewrite app_dash_nonempty.
Qed.

(** X17. Korbit's channel name and its handler are inverse to each
    other: a frame of the channel [orderbook:] followed by a configured
    venue symbol is never skipped; the handler raises or publishes an event
    for the unified symbol of that venue symbol. *)
Theorem korbit_channel_round_trip (m : symbol_map) (unified venue : string)
    (clk : Clock) (kv : list (string * pyval)) (bs : gmap string LocalOrderBook) :
  NoDup (map (fun e => PyStr.upper e.2) m) ->
  (unified, venue) ∈ m ->
  unified <> EmptyString ->
  PyVal.is_substring "orderbook:" venue = false ->
  PyVal.assoc "channel" kv = Some (PStr ("orderbook:" +:+ venue)) ->
  wp (korbit_on_message m clk (Json (PDict kv)))
    (fun _ o => exists ev, o = Some ev /\ ev_symbol ev = unified)
    (fun _ => True) bs.
Proof.
  intros Hnd Hin Hne Hvenue Hch.
  unfold korbit_on_message, on_book, replace_both, stamp_and_publish.
  repeat (wp_step;
          repeat match goal with
          | H : json_loads _ = _ |- _ => simpl in H; simplify_eq
          | H : PyVal.get (PDict _) "channel" _ = _ |- _ =>
              rewrite get_dict, Hch in H; simpl in H; simplify_eq
          | H : PyOps.startswith _ _ = _ |- _ =>
              unfold PyOps.startswith in H; rewrite is_prefix_app in H;
              simplify_eq
          | H : find_unified _ _ = _ |- _ =>
              rewrite (remove_all_prefix _ _ Hvenue) in H;
              rewrite (find_unified_resolves m unified venue) in H by done;
              simplify_eq
          | H : String.eqb _ EmptyString = true |- _ =>
              apply String.eqb_eq in H; simplify_eq
          | H : negb true = true |- _ => discriminate H
          end;
          try done).
  destruct (bs !! unified) as [lob|]; [| done].
  repeat (wp_step; try done).
  by eexists.
Qed.

Lemma coinone_topics_bad (m : symbol_map) :
  Exists (fun e => PyStr.contains "-" e.2 = false) m ->
  coinone_topics m = Raise IndexError.
Proof.
  induction m as [|[u v] m IH]; intros Hex; [by apply Exists_nil in Hex |].
  simpl. destruct (PyStr.contains "-" v) eqn:Hv.
  - pose proof (split_with_sep _ _ Hv) as Hlen.
    destruct (PyStr.split "-" v) as [|a [|b l]]; simpl in Hlen; [lia | lia |].
    apply Exists_cons in Hex as [Hex | Hex]; [simpl in Hex; congruence |].
    by rewrite (IH Hex).
  - by rewrite (split_no_sep _ _ Hv).
Qed.

Lemma coinone_topics_good (m : symbol_map) :
  Forall (fun e => PyStr.contains "-" e.2 = true) m ->
  exists topics, coinone_topics m = Return topics /\ length topics = length m.
Proof.
  induction 1 as [|[u v] m Hv Hm (topics & IH & Hlen)]; simpl; [by exists [] |].
  simpl in Hv. pose proof (split_with_sep _ _ Hv) as Hsplit.
  destruct (PyStr.split "-" v) as [|a [|b l]]; simpl in Hsplit; [lia | lia |].
  rewrite IH. eexists. split; [done |]. simpl. by rewrite Hlen.
Qed.

(** X18. Before it reads, the Coinone streamer builds one subscription
    per symbol from [venue.split("-")]. If some venue symbol of the map has
    no dash this raises [IndexError] on every connection: the streamer
    reads no frame, leaves the books alone and publishes nothing. If every
    venue symbol has a dash there is one subscription per symbol and the
    read loop runs. *)
Theorem coinone_bad_symbol_never_reads (m : symbol_map) :
  (Exists (fun e => PyStr.contains "-" e.2 = false) m ->
   forall input (bs : gmap string LocalOrderBook),
     coinone_connection m input bs
     = (bs, [], HandlerRaised IndexError (length input)))
  /\ (Forall (fun e => PyStr.contains "-" e.2 = true) m ->
      (exists topics, coinone_topics m = Return topics
                      /\ length topics = length m)
      /\ forall input (bs : gmap string LocalOrderBook),
           coinone_connection m input bs
           = read_loop (coinone_on_message m) input bs).
Proof.
  split.
  - intros Hbad input bs. unfold coinone_connection.
    by rewrite (coinone_topics_bad m Hbad).
  - intros Hgood. destruct (coinone_topics_good m Hgood) as (topics & Ht & Hlen).
    split; [by exists topics |].
    intros input bs. unfold coinone_connection. by rewrite Ht.
Qed.

End VenueFacts.


Lemma coinone_topic_round_trip_witness :
  let tkv := [("quote_currency", PStr "krw"); ("target_currency", PStr "btc")]%string in
  let kv := [("response_type", PStr "DATA"); ("channel", PStr "ORDERBOOK");
             ("topic", PDict tkv);
             ("data", PDict [("bids", PList [PDict [("price", PStr "100");
                                                    ("qty", PStr "1")]])])]%string in
  Venues.coinone_topics [("BTC-KRW", "btc" +:+ "-" +:+ "krw")]%string
  = Return [("krw", "btc")]%string
  /\ Frames.wp
       (Venues.coinone_on_message (SP := decimal_parse)
          (SF := fun _ => "?"%string) Main.coinone_map Streamer.sample_clock
          (Streamer.Json (PDict kv)))
       (fun _ o => exists ev, o = Some ev /\ Streamer.ev_symbol ev = "BTC-KRW"%string
                              /\ Streamer.ev_venue_symbol ev
                                 = PStr ("btc" +:+ "-" +:+ "krw"))
       (fun _ => True) (Streamer.make_books Main.coinone_map).
Proof.
  intros tkv kv.
  apply (coinone_topic_round_trip (SP := decimal_parse) (SF := fun _ => "?"%string)
           Main.coinone_map "BTC-KRW" "btc" "krw" Streamer.sample_clock kv tkv);
    try reflexivity; try discriminate.
  - by apply (bool_decide_unpack _); vm_compute.
  - by apply (bool_decide_unpack _); vm_compute.
Defined.

Lemma korbit_channel_round_trip_witness :
  Frames.wp
    (Venues.korbit_on_message (SP := decimal_parse) Main.korbit_map
       Streamer.sample_clock
       (Streamer.Json (PDict [("channel", PStr ("orderbook:" +:+ "eth_krw"))]%string)))
    (fun _ o => exists ev, o = Some ev /\ Streamer.ev_symbol ev = "ETH-KRW"%string)
    (fun _ => True) (Streamer.make_books Main.korbit_map).
Proof.
  apply (korbit_channel_round_trip (SP := decimal_parse)
           Main.korbit_map "ETH-KRW" "eth_krw");
    try reflexivity; try discriminate.
  - by apply (bool_decide_unpack _); vm_compute.
  - by apply (bool_decide_unpack _); vm_compute.
Defined.

Lemma coinone_bad_symbol_never_reads_witness :
  Venues.coinone_connection (SP := decimal_parse) (SF := fun _ => "?"%string)
    [("BTC-KRW", "btckrw")]%string
    [Streamer.Frame Streamer.sample_clock Streamer.NotJson] ∅
  = (∅, [], Streamer.HandlerRaised IndexError 1)
  /\ Venues.coinone_connection (SP := decimal_parse) (SF := fun _ => "?"%string)
       Main.coinone_map [] ∅
     = Streamer.read_loop
         (Venues.coinone_on_message (SP := decimal_parse)
            (SF := fun _ => "?"%string) Main.coinone_map) [] ∅.
Proof.
  split.
  - apply (proj1 (coinone_bad_symbol_never_reads (SP := decimal_parse)
                    (SF := fun _ => "?"%string) [("BTC-KRW", "btckrw")]%string)).
    by repeat constructor.
  - apply (proj2 (coinone_bad_symbol_never_reads (SP := decimal_parse)
                    (SF := fun _ => "?"%string) Main.coinone_map)).
    by repeat constructor.
Defined.

(** ** The configuration of [main] *)

Section MainFacts.
Import Streamer Venues Main.

(** X19. The symbol maps of [main] agree with [split_symbol] and with
    [_find_unified]: for each of the seven streamers, the venue symbols
    differ pairwise ignoring case, and every configured pair has a
    non-empty unified symbol, is found again from its venue symbol, and is
    normalised by [split_symbol] to that same unified symbol, so the symbol
    stored with a row is the symbol of the event. Each Coinone venue symbol
    yields a subscription. *)
Theorem main_symbols_consistent :
  Forall (fun s : string * symbol_map =>
            NoDup (map (fun e => PyStr.upper e.2) s.2)
            /\ Forall (fun e : string * string =>
                         e.1 <> EmptyString
                         /\ find_unified s.2 (PStr e.2) = Return (Some e.1)
                         /\ exists base quote,
                              split_symbol s.1 e.2 = Return (base, quote, e.1))
                 s.2)
    streamers
  /\ exists topics, coinone_topics coinone_map = Return topics
                    /\ length topics = length coinone_map.
Proof.
  split.
  - repeat (apply Forall_cons; split;
            [split; [by apply (bool_decide_unpack _); vm_compute |];
             repeat (apply Forall_cons; split;
                     [split; [done |]; split; [reflexivity |];
                      by eexists _, _ |]);
             by apply Forall_nil |]).
    by apply Forall_nil.
  - by eexists.
Qed.

End MainFacts.

(** ** More on the fan-out stage and the batcher *)

Section PipelineMore.
Import Book Streamer Pipeline.

(** X20. The broadcaster serves the destination queues in the order
    [main] lists them, one event at a time: in every run, whatever the
    capacities and the interleaving, a queue listed later has received a
    prefix of what a queue listed earlier has received, and is behind it by
    one event at most. *)
Theorem fanout_lag_at_most_one (src_max : Z) (dst_max : list Z)
    (labels : list label) (s : Fanout) (i j : nat) (hi hj : list Event) :
  exec (fresh_fanout src_max dst_max) labels = Some s ->
  i <= j ->
  f_received s !! i = Some hi -> f_received s !! j = Some hj ->
  hj `prefix_of` hi /\ length hi <= S (length hj).
Proof.
  intros Hex Hij Hi Hj.
  pose proof (exec_inv _ _ _ (fresh_fanout_inv src_max dst_max) Hex)
    as (Hlen & Hhand & done & Hpub & Hrecv).
  assert (i < length (f_dsts s)) as Hilt
    by (rewrite <- Hlen; by eapply lookup_lt_Some).
  assert (j < length (f_dsts s)) as Hjlt
    by (rewrite <- Hlen; by eapply lookup_lt_Some).
  rewrite (Hrecv i Hilt) in Hi. rewrite (Hrecv j Hjlt) in Hj.
  injection Hi as <-. injection Hj as <-.
  unfold hand_part. destruct (f_hand s) as [[ev k]|].
  - destruct (Nat.ltb_spec j k) as [Hjk|Hjk].
    + assert ((i <? k)%nat = true) as -> by (apply Nat.ltb_lt; lia).
      split; [done | lia].
    + rewrite app_nil_r. split; [by apply prefix_app_r |].
      destruct (i <? k)%nat; rewrite ?length_app; simpl; lia.
  - split; [done | lia].
Qed.

Lemma step_suffix s l s' :
  length (f_received s) = length (f_dsts s) ->
  (forall i q h, f_dsts s !! i = Some q -> f_received s !! i = Some h ->
                 q_items q `suffix_of` h) ->
  step s l = Some s' ->
  forall i q h, f_dsts s' !! i = Some q -> f_received s' !! i = Some h ->
                q_items q `suffix_of` h.
Proof.
  intros Hlen Hsuf Hstep.
  destruct l as [ev| | |i0]; simpl in Hstep.
  - destruct (put ev (f_src s)) as [q0|]; simplify_eq/=. done.
  - destruct (f_hand s); [done |].
    destruct (get (f_src s)) as [[ev q0]|]; simplify_eq/=. done.
  - destruct (f_hand s) as [[ev i0]|]; [| done]. simpl in Hstep.
    destruct (f_dsts s !! i0) as [q0|] eqn:Hq0; [| done]. simpl in Hstep.
    destruct (put ev q0) as [q1|] eqn:Hput; simplify_eq/=.
    apply put_items in Hput as [Hitems _].
    intros i q h Hq Hh. destruct (decide (i = i0)) as [-> | Hne].
    + rewrite list_lookup_insert_eq in Hq by (by eapply lookup_lt_Some).
      injection Hq as <-.
      rewrite list_lookup_alter_eq in Hh.
      destruct (f_received s !! i0) as [h0|] eqn:Hh0; simplify_eq/=.
      rewrite Hitems. destruct (Hsuf i0 q0 h0 Hq0 Hh0) as [k ->].
      exists k. by rewrite app_assoc.
    + rewrite list_lookup_insert_ne in Hq by done.
      rewrite list_lookup_alter_ne in Hh by done. by eapply Hsuf.
  - destruct (f_dsts s !! i0) as [q0|] eqn:Hq0; [| done]. simpl in Hstep.
    destruct (get q0) as [[ev q1]|] eqn:Hget; simplify_eq/=.
    apply get_items in Hget as [Hitems _].
    intros i q h Hq Hh. destruct (decide (i = i0)) as [-> | Hne].
    + rewrite list_lookup_insert_eq in Hq by (by eapply lookup_lt_Some).
      injection Hq as <-.
      pose proof (Hsuf i0 q0 h Hq0 Hh) as Hs. rewrite Hitems in Hs.
      by eapply suffix_cons_l.
    + rewrite list_lookup_insert_ne in Hq by done. by eapply Hsuf.
Qed.

Lemma exec_suffix s ls s' :
  fan_inv s ->
  (forall i q h, f_dsts s !! i = Some q -> f_received s !! i = Some h ->
                 q_items q `suffix_of` h) ->
  exec s ls = Some s' ->
  forall i q h, f_dsts s' !! i = Some q -> f_received s' !! i = Some h ->
                q_items q `suffix_of` h.
Proof.
  revert s. induction ls as [|l ls IH]; intros s Hinv Hsuf; simpl.
  - by intros [= <-].
  - destruct (step s l) as [s1|] eqn:E; [| done]. simpl.
    apply IH; [by eapply step_inv |].
    eapply step_suffix; [apply Hinv | done | done].
Qed.

(** X21. What waits in a consumer queue is a run of consecutive
    published events in published order: in every run of the fan-out
    stage, the events published are those the queue received and no longer
    holds, then the queue's content, then events it has yet to receive. *)
Theorem consumer_queue_is_published_run (src_max : Z) (dst_max : list Z)
    (labels : list label) (s : Fanout) (i : nat) (q : Queue Event) :
  exec (fresh_fanout src_max dst_max) labels = Some s ->
  f_dsts s !! i = Some q ->
  exists taken rest,
    f_received s !! i = Some (taken ++ q_items q)
    /\ f_published s = taken ++ q_items q ++ rest.
Proof.
  intros Hex Hq.
  pose proof (exec_inv _ _ _ (fresh_fanout_inv src_max dst_max) Hex) as Hinv.
  assert (is_Some (f_received s !! i)) as [h Hh].
  { apply lookup_lt_is_Some. destruct Hinv as [-> _]. by eapply lookup_lt_Some. }
  assert (q_items q `suffix_of` h) as [taken ->].
  { eapply (exec_suffix _ _ _ (fresh_fanout_inv src_max dst_max)); [| done..].
    intros i' q' h' Hq' Hh'.
    unfold fresh_fanout in Hq', Hh'. cbn [f_dsts f_received] in Hq', Hh'.
    change (map ?g ?l) with (g <$> l) in Hq'.
    change (map ?g ?l) with (g <$> l) in Hh'.
    rewrite list_lookup_fmap in Hq'. rewrite list_lookup_fmap in Hh'.
    destruct (dst_max !! i'); simplify_eq/=. done. }
  destruct (fan_inv_prefix s i _ Hinv Hh) as [rest Hrest].
  exists taken, rest. split; [done |]. by rewrite Hrest, <- app_assoc.
Qed.

Lemma batcher_step_bound B W st obs :
  (1 <= B)%Z -> (Z.of_nat (length (b_buf st)) < B)%Z ->
  (Z.of_nat (length (b_buf (batcher_step B W st obs).1)) < B)%Z
  /\ from_option (fun b => (Z.of_nat (length b) <= B)%Z) True
       (batcher_step B W st obs).2.
Proof.
  intros HB Hbuf.
  assert (Z.of_nat (length (match obs.1 with
                            | Got ev => b_buf st ++ [ev]
                            | TimedOut => b_buf st
                            end)) <= B)%Z as Hnew.
  { destruct obs.1; rewrite ?length_app; simpl; lia. }
  destruct (batcher_step_cases B W st obs) as [(E & _) | (E & Hhold)];
    rewrite E; simpl.
  - split; [lia | done].
  - split; [| done]. destruct Hhold as [-> | [Hlt _]]; simpl; lia.
Qed.

(** X22. With a batch size of at least one, no batch exceeds it: from a
    buffer shorter than [B], every batch the batcher emits holds at most
    [B] events and the buffer stays shorter than [B], whatever the arrivals
    and the clock. *)
Theorem batcher_batches_bounded (B : Z) (W : float) (st : BatcherState)
    (trace : list (wait_result * float)) :
  (1 <= B)%Z -> (Z.of_nat (length (b_buf st)) < B)%Z ->
  Forall (fun b => (Z.of_nat (length b) <= B)%Z) (batcher B W st trace).1
  /\ (Z.of_nat (length (b_buf (batcher B W st trace).2)) < B)%Z.
Proof.
  intros HB. revert st. induction trace as [|obs trace IH]; intros st Hbuf; simpl.
  - by split.
  - pose proof (batcher_step_bound B W st obs HB Hbuf) as [Hst Hout].
    destruct (batcher_step B W st obs) as [st' out]; simpl in *.
    specialize (IH st' Hst).
    destruct (batcher B W st' trace) as [bs fin]; simpl in *.
    destruct IH as [IH1 IH2]. split; [| done].
    destruct out; [by constructor | done].
Qed.

Lemma batcher_idle B W st (ts : list float) :
  b_buf st = [] ->
  batcher B W st (map (fun t => (TimedOut, t)) ts) = ([], st).
Proof.
  intros Hbuf. induction ts as [|t ts IH]; simpl; [done |].
  unfold batcher_step; simpl. rewrite Hbuf; simpl.
  rewrite andb_false_r.
  replace {| b_buf := []; b_last_flush := b_last_flush st |} with st
    by (destruct st; simpl in *; by subst).
  by rewrite IH.
Qed.

(** X23. The time trigger measures from the last flush, not from the
    arrival: time-outs on an empty buffer change nothing, so an event that
    arrives at least [W] after the last flush is emitted at once, alone,
    whatever the batch size; an event that arrives sooner is held when the
    batch size exceeds one. *)
Theorem batcher_idle_then_single (B : Z) (W : float) (st : BatcherState)
    (ts : list float) (ev : Event) (now : float) :
  b_buf st = [] ->
  let trace := map (fun t => (TimedOut, t)) ts ++ [(Got ev, now)] in
  ((W <=? now - b_last_flush st)%float = true ->
   batcher B W st trace = ([[ev]], {| b_buf := []; b_last_flush := now |}))
  /\ ((W <=? now - b_last_flush st)%float = false -> (1 < B)%Z ->
      batcher B W st trace
      = ([], {| b_buf := [ev]; b_last_flush := b_last_flush st |})).
Proof.
  intros Hbuf trace. unfold trace.
  rewrite batcher_run_app, (batcher_idle B W st ts Hbuf). simpl.
  unfold batcher_step; simpl. rewrite Hbuf; simpl. split.
  - intros ->. by destruct (B <=? Z.of_nat 1)%Z.
  - intros -> HB. by destruct (Z.leb_spec B (Z.of_nat 1)); [lia |].
Qed.

End PipelineMore.

Lemma fanout_lag_at_most_one_witness :
  match Pipeline.exec (Pipeline.fresh_fanout 0 [0; 0; 0]%Z)
          [Pipeline.Publish (Ingest.sample_event "okx" "BTC-USDT" 1);
           Pipeline.BroadcasterGet; Pipeline.BroadcasterPut] with
  | Some s =>
      forall hi hj, Pipeline.f_received s !! 0 = Some hi ->
                    Pipeline.f_received s !! 2 = Some hj ->
                    hj `prefix_of` hi /\ length hi <= S (length hj)
  | None => False
  end.
Proof.
  destruct (Pipeline.exec _ _) as [s|] eqn:Hex; [| vm_compute in Hex; discriminate Hex].
  intros hi hj.
  apply (fanout_lag_at_most_one 0 [0; 0; 0]%Z _ s 0 2 hi hj Hex). lia.
Defined.

Lemma consumer_queue_is_published_run_witness :
  match Pipeline.exec (Pipeline.fresh_fanout 0 [0; 0; 0]%Z)
          [Pipeline.Publish (Ingest.sample_event "okx" "BTC-USDT" 1);
           Pipeline.BroadcasterGet; Pipeline.BroadcasterPut] with
  | Some s =>
      forall q, Pipeline.f_dsts s !! 0 = Some q ->
        exists taken rest,
          Pipeline.f_received s !! 0 = Some (taken ++ Pipeline.q_items q)
          /\ Pipeline.f_published s = taken ++ Pipeline.q_items q ++ rest
  | None => False
  end.
Proof.
  destruct (Pipeline.exec _ _) as [s|] eqn:Hex; [| vm_compute in Hex; discriminate Hex].
  intros q. apply (consumer_queue_is_published_run 0 [0; 0; 0]%Z _ s 0 q Hex).
Defined.

Lemma batcher_batches_bounded_witness :
  let trace := [(Pipeline.Got (Ingest.sample_event "okx" "BTC-USDT" 1), 1%float);
                (Pipeline.Got (Ingest.sample_event "okx" "BTC-USDT" 2), 2%float);
                (Pipeline.Got (Ingest.sample_event "okx" "BTC-USDT" 3), 3%float)] in
  Forall (fun b => (Z.of_nat (length b) <= 2)%Z)
    (Pipeline.batcher 2 8 (Pipeline.batcher_init 0) trace).1
  /\ (Z.of_nat (length (Pipeline.b_buf
                          (Pipeline.batcher 2 8 (Pipeline.batcher_init 0) trace).2)) < 2)%Z.
Proof.
  intros trace.
  apply (batcher_batches_bounded 2 8 (Pipeline.batcher_init 0) trace); simpl; lia.
Defined.

Lemma batcher_idle_then_single_witness :
  let ev := Ingest.sample_event "okx" "BTC-USDT" 3 in
  Pipeline.batcher 100 0.5 (Pipeline.batcher_init 0)
    (map (fun t => (Pipeline.TimedOut, t)) [0.5; 1]%float ++ [(Pipeline.Got ev, 1.25%float)])
  = ([[ev]], {| Pipeline.b_buf := []; Pipeline.b_last_flush := 1.25 |})
  /\ Pipeline.batcher 100 0.5 (Pipeline.batcher_init 1)
       (map (fun t => (Pipeline.TimedOut, t)) [] ++ [(Pipeline.Got ev, 1.25%float)])
     = ([], {| Pipeline.b_buf := [ev]; Pipeline.b_last_flush := 1 |}).
Proof.
  intros ev. split.
  - apply (proj1 (batcher_idle_then_single 100 0.5 (Pipeline.batcher_init 0)
                    [0.5; 1]%float ev 1.25%float eq_refl)).
    reflexivity.
  - apply (proj2 (batcher_idle_then_single 100 0.5 (Pipeline.batcher_init 1)
                    [] ev 1.25%float eq_refl)); [reflexivity | lia].
Defined.

(** ** More on the ingestor *)

Section ConsumerMore.
Import Book Streamer Pipeline Ingest.
Context {SP : StrParse} {S : Type} {SND : Sender S}.

Lemma buildable_app (a b : list Event) :
  buildable (a ++ b) = buildable a ++ buildable b.
Proof. apply omap_app. Qed.

(** The lines [Flushed n events] a run prints. *)
Lemma ingest_batch_calls (s : S) (b : list Event) :
  row_calls (ingest_batch s b).1.2 = buildable b
  /\ flush_calls (ingest_batch s b).1.2 = 1
  /\ Forall (fun a => match a with
                      | PrintFlushed n => n = length b
                      | _ => True
                      end) (ingest_batch s b).1.2.
Proof.
  unfold ingest_batch.
  pose proof (ingest_events_row_calls s b) as Hrows.
  pose proof (ingest_events_no_flush s b) as Hflush.
  assert (Forall (fun a => match a with
                           | PrintFlushed n => n = length b
                           | _ => True
                           end) (ingest_events s b).2) as Hprint.
  { clear. generalize (length b). revert s.
    induction b as [|ev b IH]; intros s n; simpl; [constructor |].
    destruct (build_row ev) as [r|e].
    - destruct (sender_row s r) as [s1 [[]|e]]; specialize (IH s1 n);
        destruct (ingest_events s1 b); simpl in *; by repeat constructor.
    - specialize (IH s n). destruct (ingest_events s b); simpl in *.
      by constructor. }
  destruct (ingest_events s b) as [s1 out]; simpl in *.
  destruct (sender_flush s1) as [s2 [[]|e]]; simpl;
    rewrite row_calls_app, flush_calls_app, Hrows, Hflush; simpl;
    rewrite app_nil_r; (split; [done |]); (split; [done |]);
    apply Forall_app; (split; [done |]); by repeat constructor.
Qed.

Lemma questdb_consumer_app (s : S) (a b : list (list Event)) :
  questdb_consumer s (a ++ b)
  = let '(s1, o1, r1) := questdb_consumer s a in
    match r1 with
    | Return _ =>
        let '(s2, o2, r2) := questdb_consumer s1 b in (s2, o1 ++ o2, r2)
    | Raise e => (s1, o1, Raise e)
    end.
Proof.
  revert s. induction a as [|x a IH]; intros s; simpl.
  - by destruct (questdb_consumer s b) as [[s2 o2] r2].
  - destruct (ingest_batch s x) as [[s1 out] [[]|e]]; [| done].
    rewrite IH. destruct (questdb_consumer s1 a) as [[s2 o1] [[]|e]]; simpl.
    + destruct (questdb_consumer s2 b) as [[s3 o2] r2]. by rewrite app_assoc.
    + done.
Qed.

(** A run that ends without an exception went through every batch. *)
Lemma questdb_consumer_done (s : S) (batches : list (list Event)) :
  (questdb_consumer s batches).2 = Return tt ->
  row_calls (questdb_consumer s batches).1.2 = buildable (concat batches)
  /\ flush_calls (questdb_consumer s batches).1.2 = length batches
  /\ Forall (fun a => match a with
                      | PrintFlushed n => exists b, b ∈ batches /\ n = length b
                      | _ => True
                      end) (questdb_consumer s batches).1.2.
Proof.
  revert s. induction batches as [|b batches IH]; intros s; simpl; [done |].
  pose proof (ingest_batch_calls s b) as (Hrows & Hflush & Hprint).
  destruct (ingest_batch s b) as [[s1 out] [[]|e]]; simpl in *; [| done].
  specialize (IH s1).
  destruct (questdb_consumer s1 batches) as [[s2 out'] res]; simpl in *.
  intros Hres. destruct (IH Hres) as (IH1 & IH2 & IH3).
  rewrite row_calls_app, flush_calls_app, buildable_app, Hrows, Hflush, IH1, IH2.
  split; [done |]. split; [done |].
  apply Forall_app. split.
  - eapply Forall_impl; [exact Hprint |]. intros [] Ha; try done.
    exists b. split; [by left | done].
  - eapply Forall_impl; [exact IH3 |]. intros [] Ha; try done.
    destruct Ha as (b' & Hb' & ->). exists b'. split; [by right | done].
Qed.

(** X24. A failed flush ends the consumer for good. When the batches
    before [b] went through and the flush after [b] raises, the run ends
    with that exception: the rows of [b] were handed to the sender before
    the flush, one flush was called per batch up to [b], and no event of a
    later batch is looked at. *)
Theorem consumer_stops_at_failed_flush (s : S) (pre post : list (list Event))
    (b : list Event) (e : exn) :
  (questdb_consumer s pre).2 = Return tt ->
  (ingest_batch (questdb_consumer s pre).1.1 b).2 = Raise e ->
  let r := questdb_consumer s (pre ++ b :: post) in
  r.2 = Raise e
  /\ r.1.1 = (ingest_batch (questdb_consumer s pre).1.1 b).1.1
  /\ row_calls r.1.2 = buildable (concat pre ++ b)
  /\ flush_calls r.1.2 = Datatypes.S (length pre).
Proof.
  intros Hpre Hb. simpl. rewrite questdb_consumer_app.
  pose proof (questdb_consumer_done s pre Hpre) as (Hrows & Hflush & _).
  destruct (questdb_consumer s pre) as [[s1 o1] r1]; simpl in *. subst r1.
  pose proof (ingest_batch_calls s1 b) as (Hrows' & Hflush' & _).
  destruct (ingest_batch s1 b) as [[s2 o2] r2]; simpl in *. subst r2. simpl.
  rewrite row_calls_app, flush_calls_app, buildable_app, Hrows, Hrows', Hflush, Hflush'.
  repeat split; try done; lia.
Qed.

(** X25. Batcher and ingestor together, with a client whose flush does
    not fail: for the events handed to the batcher, the rows sent to
    [sender.row] followed by the rows of the events still buffered are the
    rows of the events that build, in arrival order; there is one flush per
    batch, and every [Flushed n events] line reports at least one event. *)
Theorem batched_rows_keep_arrival_order (s : S) (B : Z) (W t0 : float)
    (trace : list (wait_result * float)) :
  (forall s' : S, (sender_flush s').2 = Return tt) ->
  let batches := (batcher B W (batcher_init t0) trace).1 in
  let fin := (batcher B W (batcher_init t0) trace).2 in
  let r := questdb_consumer s batches in
  r.2 = Return tt
  /\ row_calls r.1.2 ++ buildable (b_buf fin) = buildable (events_of trace)
  /\ flush_calls r.1.2 = length batches
  /\ Forall (fun a => match a with
                      | PrintFlushed n => 1 <= n
                      | _ => True
                      end) r.1.2.
Proof.
  intros Hflush. simpl.
  pose proof (batcher_run_order B W (batcher_init t0) trace) as Horder.
  pose proof (batcher_run_nonempty B W (batcher_init t0) trace) as Hne.
  destruct (batcher B W (batcher_init t0) trace) as [batches fin]; simpl in *.
  assert ((questdb_consumer s batches).2 = Return tt) as Hres.
  { clear -Hflush. revert s.
    induction batches as [|b batches IH]; intros s; simpl; [done |].
    unfold ingest_batch. destruct (ingest_events s b) as [s1 out].
    specialize (Hflush s1). destruct (sender_flush s1) as [s2 res]; simpl in *.
    subst res. specialize (IH s2).
    by destruct (questdb_consumer s2 batches) as [[s3 out'] res]. }
  pose proof (questdb_consumer_done s batches Hres) as (Hrows & Hfl & Hprint).
  split; [done |]. split; [| split; [done |]].
  - by rewrite Hrows, <- buildable_app, Horder.
  - eapply Forall_impl; [exact Hprint |]. intros [] Ha; try done.
    destruct Ha as (b & Hb & ->).
    rewrite Forall_forall in Hne. specialize (Hne b Hb).
    destruct b; simpl; [done | lia].
Qed.

End ConsumerMore.

Lemma consumer_stops_at_failed_flush_witness :
  let ev1 := Ingest.sample_event "binance" "btcusdt" 1 in
  let ev2 := Ingest.sample_event "bybit" "BTCUSDT" 2 in
  let ev3 := Ingest.sample_event "okx" "BTC-USDT" 3 in
  let r := Ingest.questdb_consumer (SP := decimal_parse) (SND := Samples.small_sender)
             [] ([[ev1]] ++ [ev2; ev3] :: [[ev1]]) in
  r.2 = Raise IngressError
  /\ r.1.1 = (Ingest.ingest_batch (SP := decimal_parse) (SND := Samples.small_sender)
                (Ingest.questdb_consumer (SP := decimal_parse)
                   (SND := Samples.small_sender) [] [[ev1]]).1.1 [ev2; ev3]).1.1
  /\ Ingest.row_calls r.1.2
     = Ingest.buildable (SP := decimal_parse) (concat [[ev1]] ++ [ev2; ev3])
  /\ Ingest.flush_calls r.1.2 = 2.
Proof.
  intros ev1 ev2 ev3.
  apply (consumer_stops_at_failed_flush (SP := decimal_parse)
           (SND := Samples.small_sender) [] [[ev1]] [[ev1]] [ev2; ev3] IngressError);
    reflexivity.
Defined.

Lemma batched_rows_keep_arrival_order_witness :
  let trace := [(Pipeline.Got (Ingest.sample_event "binance" "btcusdt" 1), 1%float);
                (Pipeline.Got (Ingest.sample_event "okx" "BTC-USDT-SWAP" 2), 2%float);
                (Pipeline.Got (Ingest.sample_event "bybit" "BTCUSDT" 3), 3%float)] in
  let batches := (Pipeline.batcher 2 8 (Pipeline.batcher_init 0) trace).1 in
  let fin := (Pipeline.batcher 2 8 (Pipeline.batcher_init 0) trace).2 in
  let r := Ingest.questdb_consumer (SP := decimal_parse) (SND := Ingest.buffer_sender)
             ([], []) batches in
  r.2 = Return tt
  /\ Ingest.row_calls r.1.2 ++ Ingest.buildable (SP := decimal_parse) (Pipeline.b_buf fin)
     = Ingest.buildable (SP := decimal_parse) (Pipeline.events_of trace)
  /\ Ingest.flush_calls r.1.2 = length batches
  /\ Forall (fun a => match a with
                      | Ingest.PrintFlushed n => 1 <= n
                      | _ => True
                      end) r.1.2.
Proof.
  intros trace.
  apply (batched_rows_keep_arrival_order (SP := decimal_parse)
           (SND := Ingest.buffer_sender) ([], []) 2 8 0 trace).
  intros s'. reflexivity.
Defined.

(** ** The console consumer *)

Section ConsoleFacts.
Import Book Streamer Console ConsoleLog.

Lemma realtime_step_last_seen ls ev k :
  (realtime_step ls ev).1 !! k
  = if tracks k ev then Some (ev_recv_ts ev) else ls !! k.
Proof.
  unfold realtime_step, tracks, key_of.
  destruct (high_frequency (ev_exchange ev)); simpl; [done |].
  assert ((<[(ev_exchange ev, ev_symbol ev) := ev_recv_ts ev]> ls) !! k
          = if bool_decide ((ev_exchange ev, ev_symbol ev) = k)
            then Some (ev_recv_ts ev) else ls !! k) as Hins.
  { case_bool_decide as Hk.
    - subst k. by rewrite lookup_insert_eq.
    - by rewrite lookup_insert_ne. }
  destruct (first_price (snap_bids (ev_depth ev))) as [bid|];
    destruct (first_price (snap_asks (ev_depth ev))) as [ask|]; try done.
  by destruct (PyFloat.truthy bid && PyFloat.truthy ask).
Qed.

Lemma realtime_consumer_app ls (a b : list Event) :
  realtime_consumer ls (a ++ b)
  = let '(ls1, o1) := realtime_consumer ls a in
    let '(ls2, o2) := realtime_consumer ls1 b in
    (ls2, o1 ++ o2).
Proof.
  revert ls. induction a as [|ev a IH]; intros ls; simpl.
  - by destruct (realtime_consumer ls b).
  - destruct (realtime_step ls ev) as [ls0 o]. rewrite IH.
    destruct (realtime_consumer ls0 a) as [ls1 o1].
    by destruct (realtime_consumer ls1 b).
Qed.

Lemma realtime_consumer_last_seen ls evs k :
  (realtime_consumer ls evs).1 !! k
  = match last_tracked k evs with Some t => Some t | None => ls !! k end.
Proof.
  revert ls. induction evs as [|ev evs IH]; intros ls; simpl; [done |].
  pose proof (realtime_step_last_seen ls ev k) as Hstep.
  destruct (realtime_step ls ev) as [ls0 o]; simpl in *.
  specialize (IH ls0). destruct (realtime_consumer ls0 evs) as [ls1 outs]; simpl in *.
  rewrite IH. destruct (last_tracked k evs); [done |].
  rewrite Hstep. by destruct (tracks k ev).
Qed.

Lemma realtime_consumer_length ls evs :
  length (realtime_consumer ls evs).2 = length evs.
Proof.
  revert ls. induction evs as [|ev evs IH]; intros ls; simpl; [done |].
  destruct (realtime_step ls ev) as [ls0 o]. specialize (IH ls0).
  destruct (realtime_consumer ls0 evs) as [ls1 outs]; simpl in *. by rewrite IH.
Qed.

(** X26. [last_seen] holds, for each exchange and symbol, the receive
    time of the last event of that pair the consumer has gone through,
    Binance and OKX events left out: they are dropped before the
    bookkeeping and never print a line. Every event gets its turn: the
    consumer makes one decision per event. *)
Theorem console_tracks_last_seen (ls : gmap (string * string) float)
    (evs : list Event) :
  (forall k, (realtime_consumer ls evs).1 !! k
             = match last_tracked k evs with Some t => Some t | None => ls !! k end)
  /\ length (realtime_consumer ls evs).2 = length evs
  /\ (forall i ev, evs !! i = Some ev ->
        high_frequency (ev_exchange ev) = true ->
        (realtime_consumer ls evs).2 !! i = Some None).
Proof.
  split; [intros k; apply realtime_consumer_last_seen |].
  split; [apply realtime_consumer_length |].
  revert ls. induction evs as [|ev evs IH]; intros ls; simpl; [done |].
  destruct (realtime_step ls ev) as [ls0 o] eqn:Hstep.
  specialize (IH ls0). destruct (realtime_consumer ls0 evs) as [ls1 outs]; simpl in *.
  rename IH into IH2.
  intros [|i] ev' Hev Hhf; simpl in *.
  - injection Hev as <-. unfold realtime_step in Hstep. rewrite Hhf in Hstep.
    by injection Hstep as <- <-.
  - by eapply IH2.
Qed.

(** X27. What a printed line shows. If the consumer prints a line for an
    event, the event is not from Binance or OKX, both sides of its snapshot
    are non-empty with a best price that is not zero, the line shows these
    two prices, the exchange in upper case, and as [dt] the receive time of
    the event minus the receive time of the last earlier event of the same
    exchange and symbol, or minus itself when there is none. *)
Theorem console_line_content (ls : gmap (string * string) float)
    (pre post : list Event) (ev : Event) (ln : Line) :
  (realtime_consumer ls (pre ++ ev :: post)).2 !! length pre = Some (Some ln) ->
  high_frequency (ev_exchange ev) = false
  /\ first_price (snap_bids (ev_depth ev)) = Some (ln_bid ln)
  /\ first_price (snap_asks (ev_depth ev)) = Some (ln_ask ln)
  /\ PyFloat.truthy (ln_bid ln) = true /\ PyFloat.truthy (ln_ask ln) = true
  /\ ln_exchange ln = PyStr.upper (ev_exchange ev)
  /\ ln_symbol ln = ev_symbol ev
  /\ ln_dt ln
     = (ev_recv_ts ev
        - default (default (ev_recv_ts ev) (ls !! key_of ev))
            (last_tracked (key_of ev) pre))%float.
Proof.
  rewrite realtime_consumer_app.
  pose proof (realtime_consumer_last_seen ls pre (key_of ev)) as Hseen.
  pose proof (realtime_consumer_length ls pre) as Hlen.
  destruct (realtime_consumer ls pre) as [ls1 o1]; simpl in *.
  destruct (realtime_step ls1 ev) as [ls2 o] eqn:Hstep.
  destruct (realtime_consumer ls2 post) as [ls3 o3]; simpl.
  rewrite lookup_app_r by lia. rewrite Hlen, Nat.sub_diag; simpl.
  intros [= ->]. unfold realtime_step in Hstep.
  destruct (high_frequency (ev_exchange ev)); [done |].
  destruct (first_price (snap_bids (ev_depth ev))) as [bid|]; [| done].
  destruct (first_price (snap_asks (ev_depth ev))) as [ask|]; [| done].
  destruct (PyFloat.truthy bid && PyFloat.truthy ask) eqn:Htruthy; [| done].
  apply andb_true_iff in Htruthy as [Hb Ha].
  injection Hstep as _ <-; simpl.
  repeat split; try done.
  unfold key_of in *. rewrite Hseen.
  by destruct (last_tracked _ pre), (ls !! _).
Qed.

End ConsoleFacts.

Lemma console_tracks_last_seen_witness :
  let evs := [Ingest.sample_event "bithumb" "BTC_KRW" 1;
              Ingest.sample_event "binance" "btcusdt" 2] in
  (Console.realtime_consumer ∅ evs).2 !! 1 = Some None.
Proof.
  intros evs.
  apply (proj2 (proj2 (console_tracks_last_seen ∅ evs)) 1
           (Ingest.sample_event "binance" "btcusdt" 2)); reflexivity.
Defined.

Lemma console_line_content_witness :
  let ev := Ingest.sample_event "bithumb" "BTC_KRW" 2 in
  let pre := [Ingest.sample_event "bithumb" "BTC_KRW" 0.5] in
  let ln := {| Console.ln_exchange := "BITHUMB"; Console.ln_symbol := "BTC-USD";
               Console.ln_dt := 1.5; Console.ln_bid := 100; Console.ln_ask := 101 |} in
  Console.high_frequency (Streamer.ev_exchange ev) = false
  /\ Console.first_price (Book.snap_bids (Streamer.ev_depth ev)) = Some (Console.ln_bid ln)
  /\ Console.first_price (Book.snap_asks (Streamer.ev_depth ev)) = Some (Console.ln_ask ln)
  /\ PyFloat.truthy (Console.ln_bid ln) = true
  /\ PyFloat.truthy (Console.ln_ask ln) = true
  /\ Console.ln_exchange ln = PyStr.upper (Streamer.ev_exchange ev)
  /\ Console.ln_symbol ln = Streamer.ev_symbol ev
  /\ Console.ln_dt ln
     = (Streamer.ev_recv_ts ev
        - default (default (Streamer.ev_recv_ts ev) ((∅ : gmap (string * string) float) !! ConsoleLog.key_of ev))
            (ConsoleLog.last_tracked (ConsoleLog.key_of ev) pre))%float.
Proof.
  intros ev pre ln.
  apply (console_line_content ∅ pre [] ev ln).
  vm_compute. reflexivity.
Defined.

(** ** Snapshot venues keep no history *)

Section Stateless.
Import Book Streamer Venues Frames.
Context {SP : StrParse} {SF : PyOps.StrFormat}.

Lemma book_ext (lob lob' : LocalOrderBook) :
  lob_symbol lob = lob_symbol lob' -> lob_bids lob = lob_bids lob' ->
  lob_asks lob = lob_asks lob' -> lob_last_update_id lob = lob_last_update_id lob' ->
  lob = lob'.
Proof. destruct lob, lob'; simpl; congruence. Qed.

Ltac pure_case :=
  match goal with
  | |- context [find_unified _ ?x] =>
      lazymatch x with
      | context [match _ with _ => _ end] =>
          let sym := fresh "sym" in generalize x; intros sym
      end
  | |- context [match ?m with Return _ => _ | Raise _ => _ end] =>
      lazymatch m with
      | context [match _ with _ => _ end] => fail
      | context [if _ then _ else _] => fail
      | _ => destruct m eqn:?
      end
  | |- context [if ?b then _ else _] =>
      lazymatch b with
      | context [match _ with _ => _ end] => fail
      | context [if _ then _ else _] => fail
      | _ => destruct b eqn:?
      end
  | |- context [match ?o with Some _ => _ | None => _ end] =>
      is_var o; destruct o
  end.

Lemma rebuilt_same u a b (l l' : LocalOrderBook) :
  lob_symbol l = lob_symbol l' ->
  set_last_update_id u (set_asks a (set_bids b l))
  = set_last_update_id u (set_asks a (set_bids b l')).
Proof. intros Hsym. apply book_ext; simpl; congruence. Qed.

Lemma lookup_same_dom (bs bs' : gmap string LocalOrderBook) u :
  books_named bs -> books_named bs' -> dom bs = dom bs' ->
  match bs !! u, bs' !! u with
  | Some l, Some l' => lob_symbol l = lob_symbol l'
  | None, None => True
  | _, _ => False
  end.
Proof.
  intros Hn Hn' Hdom.
  destruct (bs !! u) as [l|] eqn:E, (bs' !! u) as [l'|] eqn:E'; try done.
  - by rewrite (Hn u l E), (Hn' u l' E').
  - apply elem_of_dom_2 in E. rewrite Hdom in E.
    apply elem_of_dom in E as [? E]. congruence.
  - apply elem_of_dom_2 in E'. rewrite <- Hdom in E'.
    apply elem_of_dom in E' as [? E']. congruence.
Qed.

Ltac stateless bs bs' Hn Hn' Hdom :=
  unfold same_outcome, on_book, with_book, replace_both, stamp_and_publish;
  unfold mbind, stx_bind, lift, mret, stx_ret, modify, get_state;
  repeat (cbn beta iota zeta; try done; pure_case);
  cbn beta iota zeta; try done;
  lazymatch goal with
  | |- context [bs !! ?u] =>
      let Hsame := fresh "Hsame" in
      pose proof (lookup_same_dom bs bs' u Hn Hn' Hdom) as Hsame;
      destruct (bs !! u) as [l|], (bs' !! u) as [l'|]; try done; simpl;
      rewrite ?(rebuilt_same _ _ _ l l' Hsame);
      (split; [done | intros ? [= <-]; simpl; by rewrite !lookup_insert_eq])
  | _ => idtac
  end.

Lemma bithumb_stateless m clk f (bs bs' : gmap string LocalOrderBook) :
  books_named bs -> books_named bs' -> dom bs = dom bs' ->
  same_outcome (bithumb_on_message m clk f) bs bs'.
Proof.
  intros Hn Hn' Hdom. unfold bithumb_on_message. stateless bs bs' Hn Hn' Hdom.
Qed.

Lemma coinone_stateless m clk f (bs bs' : gmap string LocalOrderBook) :
  books_named bs -> books_named bs' -> dom bs = dom bs' ->
  same_outcome (coinone_on_message m clk f) bs bs'.
Proof.
  intros Hn Hn' Hdom. unfold coinone_on_message. stateless bs bs' Hn Hn' Hdom.
Qed.

Lemma korbit_stateless m clk f (bs bs' : gmap string LocalOrderBook) :
  books_named bs -> books_named bs' -> dom bs = dom bs' ->
  same_outcome (korbit_on_message m clk f) bs bs'.
Proof.
  intros Hn Hn' Hdom. unfold korbit_on_message. stateless bs bs' Hn Hn' Hdom.
Qed.

Lemma okx_stateless m clk f (bs bs' : gmap string LocalOrderBook) :
  books_named bs -> books_named bs' -> dom bs = dom bs' ->
  same_outcome (okx_on_message m clk f) bs bs'.
Proof.
  intros Hn Hn' Hdom. unfold okx_on_message. stateless bs bs' Hn Hn' Hdom.
Qed.

Lemma upbit_stateless m clk f (bs bs' : gmap string LocalOrderBook) :
  books_named bs -> books_named bs' -> dom bs = dom bs' ->
  same_outcome (upbit_on_message m clk f) bs bs'.
Proof.
  intros Hn Hn' Hdom. unfold upbit_on_message. stateless bs bs' Hn Hn' Hdom.
Qed.

(** X28. The five venues that send whole snapshots keep no history:
    whether a frame is skipped, raises or publishes, the event it
    publishes, and the book it leaves under the event's symbol, are the
    same from any two sets of books filed under the same symbols. What the
    books held before the frame never shows. *)
Theorem snapshot_venues_keep_no_history (m : symbol_map) (clk : Clock) (f : frame)
    (bs bs' : gmap string LocalOrderBook) :
  books_named bs -> books_named bs' -> dom bs = dom bs' ->
  Forall (fun h : symbol_map -> Clock -> frame ->
                  stx (gmap string LocalOrderBook) (option Event) =>
            same_outcome (h m clk f) bs bs')
    [okx_on_message; upbit_on_message; bithumb_on_message;
     coinone_on_message; korbit_on_message].
Proof.
  intros Hn Hn' Hdom.
  constructor; [by apply okx_stateless |].
  constructor; [by apply upbit_stateless |].
  constructor; [by apply bithumb_stateless |].
  constructor; [by apply coinone_stateless |].
  constructor; [by apply korbit_stateless |].
  constructor.
Qed.

End Stateless.

Lemma snapshot_venues_keep_no_history_witness :
  let bs : gmap string Book.LocalOrderBook :=
    {["BTC-KRW"%string := Book.new_book "BTC-KRW"]} in
  let bs' : gmap string Book.LocalOrderBook :=
    {["BTC-KRW"%string := Book.set_bids [(100, 1)%float] (Book.new_book "BTC-KRW")]} in
  let f := Streamer.Json
             (PDict [("type", PStr "orderbook"); ("code", PStr "KRW-BTC");
                     ("orderbook_units",
                      PList [PDict [("bid_price", PInt 99); ("bid_size", PInt 2);
                                    ("ask_price", PInt 101); ("ask_size", PInt 3)]]);
                     ("timestamp", PInt 1700000000000)]%string) in
  Forall (fun h : Streamer.symbol_map -> Streamer.Clock -> Streamer.frame ->
                  Streamer.stx (gmap string Book.LocalOrderBook) (option Streamer.Event) =>
            Frames.same_outcome (h Streamer.upbit_map Streamer.sample_clock f) bs bs')
    [Streamer.okx_on_message (SP := decimal_parse);
     Streamer.upbit_on_message (SP := decimal_parse);
     Venues.bithumb_on_message (SP := decimal_parse);
     Venues.coinone_on_message (SP := decimal_parse) (SF := fun _ => "?"%string);
     Venues.korbit_on_message (SP := decimal_parse)].
Proof.
  intros bs bs' f.
  apply (snapshot_venues_keep_no_history (SP := decimal_parse)
           (SF := fun _ => "?"%string) Streamer.upbit_map Streamer.sample_clock f bs bs').
  - intros u lob [<- <-]%lookup_singleton_Some. reflexivity.
  - intros u lob [<- <-]%lookup_singleton_Some. reflexivity.
  - unfold bs, bs'. by rewrite !dom_singleton_L.
Defined.

(** ** The REST snapshot of Bybit *)

Section BybitRest.
Import Book Streamer Venues Frames.
Context {SP : StrParse}.




End BybitRest.


Lemma snapshot_levels_from_book_witness :
  let lob := {| Book.lob_symbol := "BTC-USD";
                Book.lob_bids := [(100, 1); (101, 2); (99, 3)]%float;
                Book.lob_asks := [(103, 1); (102, 5)]%float;
                Book.lob_last_update_id := PInt 7 |} in
  Book.snap_bids (Book.snapshot 0 20 lob) ≡ₚ Book.lob_bids lob
  /\ Book.snap_asks (Book.snapshot 0 20 lob) ≡ₚ Book.lob_asks lob.
Proof.
  intros lob.
  destruct (snapshot_levels_from_book 0 20 lob) as (_ & _ & Hb & Ha).
  split; [apply Hb | apply Ha]; simpl; lia.
Defined.
